(** * MultiRaft: the replication engine and the key-value layer

    A shallow embedding of the Go sources of the Raft node
    (append-entries sender, reply processor, commit advancement,
    receiver, submit interface, applier, log abstraction) and of the
    key-value server built on it, with the properties of the design
    document stated and settled against that embedding.

    Conventions.
    - A Go [int] / [int64] is a [Z]; additions and subtractions wrap
      around at 64 bits ([GoInt.add], [GoInt.sub]).
    - A method with a pointer receiver is a computation in the monad
      [M S], a state monad over the receiver [S] in which a run either
      yields a value or panics; the state reached at the panic is kept,
      as deferred calls and callers of a Go program observe it.
    - A slice is a [list]; its capacity is taken to be its length, so
      re-slicing past the length panics.
    - The node mutex is not modelled: every function below is one
      critical section of the source and runs atomically. *)

From Stdlib Require Import ZArith Lia QArith.
From stdpp Require Import base list gmap strings.

Open Scope Z_scope.

(** ** Go integers *)

Module GoInt.
Definition min_int : Z := - 2 ^ 63.
Definition max_int : Z := 2 ^ 63 - 1.

(** Two's complement wrap-around of a 64-bit signed integer. *)
Definition wrap (z : Z) : Z := (z - min_int) mod 2 ^ 64 + min_int.

Definition add (a b : Z) : Z := wrap (a + b).
Definition sub (a b : Z) : Z := wrap (a - b).

Definition is_intb (z : Z) : bool := (min_int <=? z) && (z <=? max_int).
Definition is_int (z : Z) : Prop := min_int <= z <= max_int.
End GoInt.

(** ** Runs that may panic *)

Inductive Res (A : Type) : Type :=
| Val (a : A)
| Panic (msg : string).
Arguments Val {A} a.
Arguments Panic {A} msg.

Definition M (S A : Type) : Type := S -> Res A * S.

Definition ret {S A} (a : A) : M S A := fun s => (Val a, s).

Definition bind {S A B} (m : M S A) (k : A -> M S B) : M S B :=
  fun s => match m s with
           | (Val a, s') => k a s'
           | (Panic msg, s') => (Panic msg, s')
           end.

Definition panic {S A} (msg : string) : M S A := fun s => (Panic msg, s).
Definition get {S} : M S S := fun s => (Val s, s).
Definition gets {S A} (f : S -> A) : M S A := fun s => (Val (f s), s).
Definition put {S} (s : S) : M S unit := fun _ => (Val tt, s).
Definition modify {S} (f : S -> S) : M S unit := fun s => (Val tt, f s).

(** Run a computation on a component of the state (a field that holds
    an object with methods of its own). *)
Definition zoom {S T A} (proj : S -> T) (upd : T -> S -> S) (m : M T A) : M S A :=
  fun s => let (r, t) := m (proj s) in (r, upd t s).

(** [defer d body]: the deferred call [d] runs when [body] is left,
    whether it returned or panicked; a panic of [body] goes on after it. *)
Definition defer {S A} (d : M S unit) (body : M S A) : M S A :=
  fun s => match body s with
           | (Val a, s') => match d s' with
                            | (Val _, s'') => (Val a, s'')
                            | (Panic msg, s'') => (Panic msg, s'')
                            end
           | (Panic msg, s') => (Panic msg, snd (d s'))
           end.

Declare Scope go_scope.
Delimit Scope go_scope with go.
Notation "x <- c ;; k" := (bind c (fun x => k))
  (at level 100, c at next level, right associativity) : go_scope.
Notation "c ;;; k" := (bind c (fun _ => k))
  (at level 100, right associativity) : go_scope.
Open Scope go_scope.

Definition len {A} (s : list A) : Z := Z.of_nat (length s).

(** Go's [s[i]], [s[i] = v] and [s[lo:hi]] on a slice. *)
Definition index {S A} (s : list A) (i : Z) : M S A :=
  if (i <? 0) || (len s <=? i) then panic "index out of range"
  else match s !! Z.to_nat i with
       | Some x => ret x
       | None => panic "index out of range"
       end.

Definition store {S A} (s : list A) (i : Z) (v : A) : M S (list A) :=
  if (i <? 0) || (len s <=? i) then panic "index out of range"
  else ret (<[Z.to_nat i := v]> s).

Definition slice_expr {S A} (s : list A) (lo hi : Z) : M S (list A) :=
  if (lo <? 0) || (hi <? lo) || (len s <? hi)
  then panic "slice bounds out of range"
  else ret (take (Z.to_nat (hi - lo)) (drop (Z.to_nat lo) s)).

(** Go's [make([]T, n)] (given the zero value of [T]) and [copy(dst, src)]. *)
Definition make {S A} (zero : A) (n : Z) : M S (list A) :=
  if n <? 0 then panic "makeslice: len out of range"
  else ret (replicate (Z.to_nat n) zero).

Definition copy {A} (dst src : list A) : list A :=
  take (length dst) src ++ drop (length src) dst.

(** ** Data model *)

(** The operation the key-value layer submits to the log (kvraft.Op). *)
Module Op.
Record t : Type := mk
  { OpTask : string;
    Key : string;
    Value : string;
    ClientId : Z;
    CommandId : Z;
    Seq : Z }.
End Op.

(** The payload of an entry is an [interface{}]: [None] is the nil
    interface (the payload of the dummy entry and of a zero entry), and
    the only concrete type this repository stores in it is [Op]. *)
Definition Cmd : Type := option Op.t.

(** Modelled from the spec: the [Entry] struct, whose declaration is not
    among the sources: a log entry is [{index, term, command}]. *)
Module Entry.
Record t : Type := mk
  { Index : Z;
    Term : Z;
    Command : Cmd }.
Definition zero : t := mk 0 0 None.
End Entry.

(** Modelled from the spec: the argument and reply structs of the
    AppendEntries RPC, [{term, leaderId, prevLogIndex, prevLogTerm,
    entries, leaderCommit}] and [{term, success, conflictIndex}]. *)
Module AppendEntriesArgs.
Record t : Type := mk
  { Term : Z;
    LeaderId : Z;
    PrevLogIndex : Z;
    PrevLogTerm : Z;
    Entries : list Entry.t;
    LeaderCommit : Z }.
End AppendEntriesArgs.

Module AppendEntriesReply.
Record t : Type := mk
  { Term : Z;
    Success : bool;
    ConflictIndex : Z }.
Definition zero : t := mk 0 false 0.
Definition set_Term (v : Z) (x : t) : t := mk v (Success x) (ConflictIndex x).
Definition set_Success (v : bool) (x : t) : t := mk (Term x) v (ConflictIndex x).
Definition set_ConflictIndex (v : Z) (x : t) : t := mk (Term x) (Success x) v.
End AppendEntriesReply.

(** A key-value snapshot is a byte string produced by the external
    encoder; it is represented by what the decoder makes of it: no data,
    data that fails to decode, or the encoding of a storage map and a
    dedupe table. *)
Inductive SnapshotData : Type :=
| NoData
| Corrupt
| Encoded (storage : gmap string string) (latestTime : gmap Z Z).

(** Modelled from the spec: the apply-channel message, a tagged union of
    [{commandValid, command, commandTerm, commandIndex}] and
    [{snapshotValid, snapshot, snapshotTerm, snapshotIndex}]. *)
Module ApplyMsg.
Record t : Type := mk
  { CommandValid : bool;
    Command : Cmd;
    CommandTerm : Z;
    CommandIndex : Z;
    SnapshotValid : bool;
    Snapshot : SnapshotData;
    SnapshotTerm : Z;
    SnapshotIndex : Z }.
End ApplyMsg.
(** ** The log (type raftLog and its methods) *)

Record raftLog : Type := mkLog { logs : list Entry.t }.

Definition newLogs : raftLog := mkLog [Entry.zero].

Definition dummyIndex : M raftLog Z :=
  l <- get;;
  e <- index (logs l) 0;;
  ret (Entry.Index e).

Definition convertIndex (idx : Z) : M raftLog Z :=
  d <- dummyIndex;;
  if idx <? d then panic "current index is smaller than dummy Index"
  else
    d' <- dummyIndex;;
    ret (GoInt.sub idx d').

Definition getEntry (idx : Z) : M raftLog Entry.t :=
  i <- convertIndex idx;;
  l <- get;;
  index (logs l) i.

Definition lastIndex : M raftLog Z :=
  l <- get;;
  e <- index (logs l) (GoInt.sub (len (logs l)) 1);;
  ret (Entry.Index e).

Definition lastTerm : M raftLog Z :=
  l <- get;;
  e <- index (logs l) (GoInt.sub (len (logs l)) 1);;
  ret (Entry.Term e).

Definition lastEntry : M raftLog Entry.t :=
  l <- get;;
  index (logs l) (GoInt.sub (len (logs l)) 1).

Definition append (ents : list Entry.t) : M raftLog Z :=
  if len ents =? 0 then lastIndex
  else
    modify (fun l => mkLog (logs l ++ ents));;;
    lastIndex.

Definition sliceFrom (low : Z) : M raftLog (list Entry.t) :=
  i <- convertIndex low;;
  l <- get;;
  slice_expr (logs l) i (len (logs l)).

Definition sliceTo (high : Z) : M raftLog (list Entry.t) :=
  i <- convertIndex high;;
  l <- get;;
  slice_expr (logs l) 0 i.

Definition slice (low high : Z) : M raftLog (list Entry.t) :=
  i <- convertIndex low;;
  j <- convertIndex high;;
  l <- get;;
  slice_expr (logs l) i j.

Definition trunc (high : Z) : M raftLog Z :=
  s <- sliceTo high;;
  put (mkLog s);;;
  lastIndex.

Definition matchLog (requestPrevTerm requestPrevIndex : Z) : M raftLog bool :=
  last <- lastIndex;;
  if requestPrevIndex >? last then ret false
  else
    targetLog <- getEntry requestPrevIndex;;
    if (requestPrevIndex =? Entry.Index targetLog) && (requestPrevTerm =? Entry.Term targetLog)
    then ret true
    else ret false.

Definition isLogUpToDate (requestLastTerm requestLastIndex : Z) : M raftLog bool :=
  mylastLog <- lastEntry;;
  ret ((requestLastTerm >? Entry.Term mylastLog)
       || ((Entry.Term mylastLog =? requestLastTerm)
           && (requestLastIndex >=? Entry.Index mylastLog))).

(** *** The representation invariant of the log

    The log is never empty, the index of the dummy entry is not
    negative, the entry at position [k] carries the index
    [dummyIndex + k], and all these indices, and the index that follows
    the last one, are Go integers. *)

Fixpoint contiguous_from (d : Z) (es : list Entry.t) : bool :=
  match es with
  | [] => true
  | e :: es' => (Entry.Index e =? d) && contiguous_from (d + 1) es'
  end.

Definition wf_log (l : raftLog) : bool :=
  match logs l with
  | [] => false
  | e0 :: rest =>
      (0 <=? Entry.Index e0)
      && GoInt.is_intb (Entry.Index e0 + len rest + 1)
      && contiguous_from (Entry.Index e0 + 1) rest
  end.

(** The index of the dummy entry and of the last entry, as plain
    functions of a log (0 on an empty log, which [wf_log] excludes). *)
Definition dummy_of (l : raftLog) : Z :=
  match logs l with
  | [] => 0
  | e0 :: _ => Entry.Index e0
  end.

Definition last_of (l : raftLog) : Z := dummy_of l + len (logs l) - 1.

(** The entry and the term stored at an absolute index ([None] outside
    the log). *)
Definition entry_at (l : raftLog) (i : Z) : option Entry.t :=
  if i <? dummy_of l then None
  else logs l !! Z.to_nat (i - dummy_of l).

Definition term_at (l : raftLog) (i : Z) : option Z :=
  Entry.Term <$> entry_at l i.

(** ** The node (type Raft) *)

(** Modelled from the spec: the role constants [StateFollower],
    [StateCandidate], [StateLeader] (declared outside the sources):
    Role is one of Follower, Candidate, Leader. *)
Inductive NodeState : Type := StateFollower | StateCandidate | StateLeader.

#[global] Instance NodeState_eq_dec : EqDecision NodeState.
Proof. solve_decision. Defined.

Definition NodeState_eqb (a b : NodeState) : bool :=
  match a, b with
  | StateFollower, StateFollower
  | StateCandidate, StateCandidate
  | StateLeader, StateLeader => true
  | _, _ => false
  end.

(** The two jobs of [BroadcastAppend]. *)
Inductive Job : Type := HeartBeat | Append.

(** What [persist] saves: [(currentTerm, votedFor, log)]. *)
Record RaftBlob : Type := mkBlob
  { blobTerm : Z;
    blobVotedFor : Z;
    blobLogs : list Entry.t }.

(** The fields of [Raft].  [peers] is [len(rf.peers)] (the end points are
    opaque).  The synchronisation objects are represented by what was
    done to them: [applyCond] counts the signals sent to the applier,
    [tryAppendCond] holds per peer the number of signals sent to its
    replicator ([None] is the nil condition at the node's own position),
    [electionTimer] counts the resets, [applyCh] lists the messages sent
    on the apply channel, [goroutines] the peers for which a
    fire-and-forget [appendOneRound] was started, [snapshots] the calls
    of [Snapshot] received, and [persister] is the blob last saved. *)
Module Raft.
Record t : Type := mk
  { peers : nat;
    me : Z;
    persister : option RaftBlob;
    applyCh : list ApplyMsg.t;
    applyCond : nat;
    tryAppendCond : list (option nat);
    goroutines : list Z;
    state : NodeState;
    currentTerm : Z;
    votedFor : Z;
    raftLog : raftLog;
    commitIndex : Z;
    lastApplied : Z;
    nextIndex : list Z;
    matchIndex : list Z;
    electionTimer : nat;
    snapshots : list (Z * SnapshotData) }.
Definition set_persister (v : option RaftBlob) (x : t) : t :=
  mk (peers x) (me x) v (applyCh x) (applyCond x) (tryAppendCond x)
    (goroutines x) (state x) (currentTerm x) (votedFor x) (raftLog x)
    (commitIndex x) (lastApplied x) (nextIndex x) (matchIndex x)
    (electionTimer x) (snapshots x).
Definition set_applyCond (v : nat) (x : t) : t :=
  mk (peers x) (me x) (persister x) (applyCh x) v (tryAppendCond x)
    (goroutines x) (state x) (currentTerm x) (votedFor x) (raftLog x)
    (commitIndex x) (lastApplied x) (nextIndex x) (matchIndex x)
    (electionTimer x) (snapshots x).
Definition set_tryAppendCond (v : list (option nat)) (x : t) : t :=
  mk (peers x) (me x) (persister x) (applyCh x) (applyCond x) v (goroutines x)
    (state x) (currentTerm x) (votedFor x) (raftLog x) (commitIndex x)
    (lastApplied x) (nextIndex x) (matchIndex x) (electionTimer x)
    (snapshots x).
Definition set_goroutines (v : list Z) (x : t) : t :=
  mk (peers x) (me x) (persister x) (applyCh x) (applyCond x)
    (tryAppendCond x) v (state x) (currentTerm x) (votedFor x) (raftLog x)
    (commitIndex x) (lastApplied x) (nextIndex x) (matchIndex x)
    (electionTimer x) (snapshots x).
Definition set_state (v : NodeState) (x : t) : t :=
  mk (peers x) (me x) (persister x) (applyCh x) (applyCond x)
    (tryAppendCond x) (goroutines x) v (currentTerm x) (votedFor x)
    (raftLog x) (commitIndex x) (lastApplied x) (nextIndex x) (matchIndex x)
    (electionTimer x) (snapshots x).
Definition set_currentTerm (v : Z) (x : t) : t :=
  mk (peers x) (me x) (persister x) (applyCh x) (applyCond x)
    (tryAppendCond x) (goroutines x) (state x) v (votedFor x) (raftLog x)
    (commitIndex x) (lastApplied x) (nextIndex x) (matchIndex x)
    (electionTimer x) (snapshots x).
Definition set_votedFor (v : Z) (x : t) : t :=
  mk (peers x) (me x) (persister x) (applyCh x) (applyCond x)
    (tryAppendCond x) (goroutines x) (state x) (currentTerm x) v (raftLog x)
    (commitIndex x) (lastApplied x) (nextIndex x) (matchIndex x)
    (electionTimer x) (snapshots x).
Definition set_raftLog v (x : t) : t :=
  mk (peers x) (me x) (persister x) (applyCh x) (applyCond x)
    (tryAppendCond x) (goroutines x) (state x) (currentTerm x) (votedFor x) v
    (commitIndex x) (lastApplied x) (nextIndex x) (matchIndex x)
    (electionTimer x) (snapshots x).
Definition set_commitIndex (v : Z) (x : t) : t :=
  mk (peers x) (me x) (persister x) (applyCh x) (applyCond x)
    (tryAppendCond x) (goroutines x) (state x) (currentTerm x) (votedFor x)
    (raftLog x) v (lastApplied x) (nextIndex x) (matchIndex x)
    (electionTimer x) (snapshots x).
Definition set_lastApplied (v : Z) (x : t) : t :=
  mk (peers x) (me x) (persister x) (applyCh x) (applyCond x)
    (tryAppendCond x) (goroutines x) (state x) (currentTerm x) (votedFor x)
    (raftLog x) (commitIndex x) v (nextIndex x) (matchIndex x)
    (electionTimer x) (snapshots x).
Definition set_nextIndex (v : list Z) (x : t) : t :=
  mk (peers x) (me x) (persister x) (applyCh x) (applyCond x)
    (tryAppendCond x) (goroutines x) (state x) (currentTerm x) (votedFor x)
    (raftLog x) (commitIndex x) (lastApplied x) v (matchIndex x)
    (electionTimer x) (snapshots x).
Definition set_matchIndex (v : list Z) (x : t) : t :=
  mk (peers x) (me x) (persister x) (applyCh x) (applyCond x)
    (tryAppendCond x) (goroutines x) (state x) (currentTerm x) (votedFor x)
    (raftLog x) (commitIndex x) (lastApplied x) (nextIndex x) v
    (electionTimer x) (snapshots x).
Definition set_electionTimer (v : nat) (x : t) : t :=
  mk (peers x) (me x) (persister x) (applyCh x) (applyCond x)
    (tryAppendCond x) (goroutines x) (state x) (currentTerm x) (votedFor x)
    (raftLog x) (commitIndex x) (lastApplied x) (nextIndex x) (matchIndex x) v
    (snapshots x).
Definition set_snapshots (v : list (Z * SnapshotData)) (x : t) : t :=
  mk (peers x) (me x) (persister x) (applyCh x) (applyCond x)
    (tryAppendCond x) (goroutines x) (state x) (currentTerm x) (votedFor x)
    (raftLog x) (commitIndex x) (lastApplied x) (nextIndex x) (matchIndex x)
    (electionTimer x) v.
End Raft.

Definition onLog {A} (m : M raftLog A) : M Raft.t A :=
  zoom Raft.raftLog Raft.set_raftLog m.

(** Modelled from the spec: [persist], which is not among the sources:
    the node persists [(currentTerm, votedFor, log)] as one blob. *)
Definition persist : M Raft.t unit :=
  modify (fun rf =>
    Raft.set_persister
      (Some (mkBlob (Raft.currentTerm rf) (Raft.votedFor rf) (logs (Raft.raftLog rf)))) rf).

(** Modelled from the spec: [ChangeState], which is not among the
    sources: the role becomes the given one, and on becoming Leader
    [nextIndex[p] := lastIndex+1] and [matchIndex[p] := 0] for each peer.
    (Terms, votes, timers and persistence are left to the callers, as
    the sources that call it do them themselves.) *)
Definition ChangeState (s : NodeState) : M Raft.t unit :=
  match s with
  | StateLeader =>
      last <- onLog lastIndex;;
      modify (fun rf =>
        Raft.set_state StateLeader
          (Raft.set_nextIndex (replicate (Raft.peers rf) (GoInt.add last 1))
             (Raft.set_matchIndex (replicate (Raft.peers rf) 0) rf)))
  | _ => modify (Raft.set_state s)
  end.

(** [rf.electionTimer.Reset(RandomizedElectionTimeout())] *)
Definition resetElectionTimer : M Raft.t unit :=
  modify (fun rf => Raft.set_electionTimer (S (Raft.electionTimer rf)) rf).

(** [rf.applyCond.Signal()] *)
Definition signalApplyCond : M Raft.t unit :=
  modify (fun rf => Raft.set_applyCond (S (Raft.applyCond rf)) rf).

(** [rf.tryAppendCond[peer].Signal()] *)
Definition signalTryAppendCond (peer : Z) : M Raft.t unit :=
  rf <- get;;
  c <- index (Raft.tryAppendCond rf) peer;;
  match c with
  | None => panic "invalid memory address or nil pointer dereference"
  | Some n =>
      modify (Raft.set_tryAppendCond (<[Z.to_nat peer := Some (S n)]> (Raft.tryAppendCond rf)))
  end.

(** [go rf.appendOneRound(peer)] *)
Definition goAppendOneRound (peer : Z) : M Raft.t unit :=
  modify (fun rf => Raft.set_goroutines (Raft.goroutines rf ++ [peer]) rf).

(** *** BroadcastAppend *)

Fixpoint BroadcastAppend_loop (job : Job) (ps : list nat) : M Raft.t unit :=
  match ps with
  | [] => ret tt
  | peer :: ps' =>
      rf <- get;;
      (if Z.of_nat peer =? Raft.me rf then ret tt
       else match job with
            | HeartBeat => goAppendOneRound (Z.of_nat peer)
            | Append => signalTryAppendCond (Z.of_nat peer)
            end);;;
      BroadcastAppend_loop job ps'
  end.

Definition BroadcastAppend (job : Job) : M Raft.t unit :=
  rf <- get;;
  BroadcastAppend_loop job (seq 0 (Raft.peers rf)).

(** *** advanceCommitIndexForLeader *)

(** The inner loop: [num] counts the peers other than the node whose
    [matchIndex] is at least [i]. *)
Fixpoint countMatch (i : Z) (js : list nat) (num : Z) : M Raft.t Z :=
  match js with
  | [] => ret num
  | j :: js' =>
      rf <- get;;
      hit <- (if negb (Z.of_nat j =? Raft.me rf)
              then m <- index (Raft.matchIndex rf) (Z.of_nat j);; ret (m >=? i)
              else ret false);;
      countMatch i js' (if hit then GoInt.add num 1 else num)
  end.

(** The outer loop, [for i := lastIndex; i > commitIndex; i--].  Its
    condition is evaluated at most [lastIndex - commitIndex + 1] times;
    [fuel] is that bound, and the case of no fuel left is never
    reached. *)
Fixpoint advanceLoop (fuel : nat) (i : Z) : M Raft.t unit :=
  match fuel with
  | O => ret tt
  | S fuel' =>
      rf <- get;;
      if i >? Raft.commitIndex rf then
        num <- countMatch i (seq 0 (Raft.peers rf)) 0;;
        ok <- (if GoInt.add num 1 >? Z.quot (Z.of_nat (Raft.peers rf)) 2
               then e <- onLog (getEntry i);;
                    ret (Entry.Term e =? Raft.currentTerm rf)
               else ret false);;
        if ok then
          modify (Raft.set_commitIndex i);;;
          signalApplyCond
        else advanceLoop fuel' (GoInt.sub i 1)
      else ret tt
  end.

Definition advanceCommitIndexForLeader : M Raft.t unit :=
  rf <- get;;
  if negb (NodeState_eqb (Raft.state rf) StateLeader) then ret tt
  else
    last <- onLog lastIndex;;
    advanceLoop (S (Z.to_nat (last - Raft.commitIndex rf))) last.

(** *** appendOneRound and processAppendEntriesReply *)

(** The first critical section of [appendOneRound]: the arguments of the
    RPC, or [None] when the node is not the leader. *)
Definition appendOneRound_args (peer : Z) : M Raft.t (option AppendEntriesArgs.t) :=
  rf <- get;;
  if negb (NodeState_eqb (Raft.state rf) StateLeader) then ret None
  else
    next <- index (Raft.nextIndex rf) peer;;
    let prevLogIndex := GoInt.sub next 1 in
    d <- onLog dummyIndex;;
    (if prevLogIndex <? d then
       index (Raft.nextIndex rf) peer;;;
       panic "weird"
     else ret tt);;;
    last <- onLog lastIndex;;
    prevLogIndex <- (if prevLogIndex >? last
                     then last' <- onLog lastIndex;; ret (GoInt.add last' 1)
                     else ret prevLogIndex);;
    prev <- onLog (getEntry prevLogIndex);;
    last'' <- onLog lastIndex;;
    entries <- make Entry.zero (GoInt.sub last'' prevLogIndex);;
    from <- onLog (sliceFrom (GoInt.add prevLogIndex 1));;
    ret (Some (AppendEntriesArgs.mk
                 (Raft.currentTerm rf) (Raft.me rf) prevLogIndex (Entry.Term prev)
                 (copy entries from) (Raft.commitIndex rf))).

Definition processAppendEntriesReply (peer : Z) (args : AppendEntriesArgs.t)
    (reply : AppendEntriesReply.t) : M Raft.t unit :=
  rf <- get;;
  if AppendEntriesReply.Term reply >? Raft.currentTerm rf then
    modify (Raft.set_currentTerm (AppendEntriesReply.Term reply));;;
    modify (Raft.set_votedFor (-1));;;
    ChangeState StateFollower;;;
    resetElectionTimer;;;
    persist
  else
    fresh <- (if (AppendEntriesReply.Term reply =? Raft.currentTerm rf)
                 && NodeState_eqb (Raft.state rf) StateLeader
                 && (AppendEntriesArgs.Term args =? Raft.currentTerm rf)
              then next <- index (Raft.nextIndex rf) peer;;
                   ret (AppendEntriesArgs.PrevLogIndex args =? GoInt.sub next 1)
              else ret false);;
    if fresh then
      (if AppendEntriesReply.Success reply then
         let newNext :=
           GoInt.add (GoInt.add (len (AppendEntriesArgs.Entries args))
                                (AppendEntriesArgs.PrevLogIndex args)) 1 in
         let newMatch :=
           GoInt.add (len (AppendEntriesArgs.Entries args))
                     (AppendEntriesArgs.PrevLogIndex args) in
         next <- index (Raft.nextIndex rf) peer;;
         (if newNext >? next then
            s <- store (Raft.nextIndex rf) peer newNext;;
            modify (Raft.set_nextIndex s)
          else ret tt);;;
         mtch <- index (Raft.matchIndex rf) peer;;
         (if newMatch >? mtch then
            s <- store (Raft.matchIndex rf) peer newMatch;;
            modify (Raft.set_matchIndex s)
          else ret tt);;;
         advanceCommitIndexForLeader
       else
         s <- store (Raft.nextIndex rf) peer (AppendEntriesReply.ConflictIndex reply);;
         modify (Raft.set_nextIndex s));;;
      rf' <- get;;
      next' <- index (Raft.nextIndex rf') peer;;
      last <- onLog lastIndex;;
      if negb (next' =? GoInt.add last 1) then signalTryAppendCond peer
      else ret tt
    else ret tt.

(** [appendOneRound] with the transport as a function: it delivers the
    reply of the peer or nothing.  The steps other tasks take between
    the two critical sections are steps of their own. *)
Definition appendOneRound
    (sendAppendEntries : Z -> AppendEntriesArgs.t -> option AppendEntriesReply.t)
    (peer : Z) : M Raft.t unit :=
  a <- appendOneRound_args peer;;
  match a with
  | None => ret tt
  | Some args =>
      match sendAppendEntries peer args with
      | Some reply => processAppendEntriesReply peer args reply
      | None => ret tt
      end
  end.

(** *** HandleAppendEntries *)

(** The handler works on the node and on the reply struct the caller
    passed by pointer, which it fills in place. *)
Definition Handler : Type := (Raft.t * AppendEntriesReply.t)%type.

Definition onRf {A} (m : M Raft.t A) : M Handler A :=
  zoom fst (fun rf h => (rf, snd h)) m.

Definition onReply {A} (m : M AppendEntriesReply.t A) : M Handler A :=
  zoom snd (fun r h => (fst h, r)) m.

(** [reply.Term, reply.Success = term, success] *)
Definition setReply (term : Z) (success : bool) : M Handler unit :=
  onReply (modify (fun r =>
    AppendEntriesReply.set_Success success (AppendEntriesReply.set_Term term r))).

(** The backward walk of the fast backup,
    [for index > dummyIndex+1 && getEntry(index).Term == abandondRound
    { index-- }].  Every round reads the entry at [index], which panics
    below the dummy index, so the condition of the loop is evaluated
    at most [index - dummyIndex + 2] times; [fuel] is that bound, and
    the case of no fuel left is never reached. *)
Fixpoint backoff (fuel : nat) (index dummy abandondRound : Z) : M raftLog Z :=
  match fuel with
  | O => ret index
  | S fuel' =>
      if index >? GoInt.add dummy 1 then
        e <- getEntry index;;
        if Entry.Term e =? abandondRound
        then backoff fuel' (GoInt.sub index 1) dummy abandondRound
        else ret index
      else ret index
  end.

(** The per-entry conflict scan, [for index, entry := range args.Entries]. *)
Fixpoint scanEntries (ents : list Entry.t) : M raftLog unit :=
  match ents with
  | [] => ret tt
  | entry :: rest =>
      i <- convertIndex (Entry.Index entry);;
      l <- get;;
      conflict <- (if i >=? len (logs l) then ret true
                   else e <- getEntry (Entry.Index entry);;
                        ret (negb (Entry.Term e =? Entry.Term entry)));;
      if conflict then
        trunc (Entry.Index entry);;;
        append (entry :: rest);;;
        ret tt
      else scanEntries rest
  end.

(** The branch of the handler for a log that does not match the
    request: the reply carries the fast-backup [ConflictIndex]. *)
Definition HandleAppendEntries_conflict (args : AppendEntriesArgs.t) : M Handler unit :=
  rf <- gets fst;;
  setReply (Raft.currentTerm rf) false;;;
  lastIndex <- onRf (onLog lastIndex);;
  if AppendEntriesArgs.PrevLogIndex args >? lastIndex then
    onReply (modify (AppendEntriesReply.set_ConflictIndex (GoInt.add lastIndex 1)))
  else
    dummyIndex <- onRf (onLog dummyIndex);;
    prev <- onRf (onLog (getEntry (AppendEntriesArgs.PrevLogIndex args)));;
    let abandondRound := Entry.Term prev in
    index <- onRf (onLog (backoff
               (S (S (Z.to_nat (AppendEntriesArgs.PrevLogIndex args - dummyIndex))))
               (AppendEntriesArgs.PrevLogIndex args) dummyIndex abandondRound));;
    onReply (modify (AppendEntriesReply.set_ConflictIndex index)).

(** The branch of the handler for a log that matches the request: the
    conflict scan, the commit index, the reply. *)
Definition HandleAppendEntries_append (args : AppendEntriesArgs.t) : M Handler unit :=
  onRf (onLog (scanEntries (AppendEntriesArgs.Entries args)));;;
  rf <- gets fst;;
  (if AppendEntriesArgs.LeaderCommit args >? Raft.commitIndex rf then
     last <- onRf (onLog lastIndex);;
     onRf (modify (Raft.set_commitIndex
                     (Z.min (AppendEntriesArgs.LeaderCommit args) last)));;;
     onRf signalApplyCond
   else ret tt);;;
  rf <- gets fst;;
  setReply (Raft.currentTerm rf) true.

(** The handler from the check of [PrevLogIndex] on. *)
Definition HandleAppendEntries_log (args : AppendEntriesArgs.t) : M Handler unit :=
  d <- onRf (onLog dummyIndex);;
  (if AppendEntriesArgs.PrevLogIndex args <? d then
     setReply 0 false;;;
     onRf (onLog dummyIndex);;;
     panic "weird2"
   else ret tt);;;
  matched <- onRf (onLog (matchLog (AppendEntriesArgs.PrevLogTerm args)
                                   (AppendEntriesArgs.PrevLogIndex args)));;
  if negb matched then HandleAppendEntries_conflict args
  else HandleAppendEntries_append args.

Definition HandleAppendEntries (args : AppendEntriesArgs.t) : M Handler unit :=
  defer (onRf persist)
    ((* the arguments of the deferred trace call are evaluated here *)
     onRf (onLog dummyIndex);;;
     onRf (onLog lastIndex);;;
     rf <- gets fst;;
     if AppendEntriesArgs.Term args <? Raft.currentTerm rf then
       setReply (Raft.currentTerm rf) false
     else
       (if AppendEntriesArgs.Term args >? Raft.currentTerm rf then
          onRf (modify (fun rf =>
            Raft.set_votedFor (-1)
              (Raft.set_currentTerm (AppendEntriesArgs.Term args) rf)))
        else ret tt);;;
       onRf (ChangeState StateFollower);;;
       onRf resetElectionTimer;;;
       HandleAppendEntries_log args).

(** *** Start *)

Definition Start (command : Cmd) : M Raft.t (Z * Z * bool) :=
  rf <- get;;
  if negb (NodeState_eqb (Raft.state rf) StateLeader) then ret (-1, -1, false)
  else
    last <- onLog lastIndex;;
    let newLog := Entry.mk (GoInt.add last 1) (Raft.currentTerm rf) command in
    onLog (append [newLog]);;;
    persist;;;
    BroadcastAppend Append;;;
    ret (Entry.Index newLog, Entry.Term newLog, true).

(** Modelled from the spec: [GetState], which is not among the sources:
    [getState() -> (term, isLeader)]. *)
Definition GetState : M Raft.t (Z * bool) :=
  rf <- get;;
  ret (Raft.currentTerm rf, NodeState_eqb (Raft.state rf) StateLeader).

(** *** The applier *)


(** The first critical section of one round of the applier: [None] when
    the loop waits on the condition ([lastApplied >= commitIndex]),
    otherwise the commit index it read and the entries it copied out. *)
Definition applier_collect : M Raft.t (option (Z * list Entry.t)) :=
  rf <- get;;
  if Raft.lastApplied rf >=? Raft.commitIndex rf then ret None
  else
    let commitIndex := Raft.commitIndex rf in
    let lastApplied := Raft.lastApplied rf in
    entries <- make Entry.zero (GoInt.sub commitIndex lastApplied);;
    from <- onLog (slice (GoInt.add lastApplied 1) (GoInt.add commitIndex 1));;
    ret (Some (commitIndex, copy entries from)).




(** [CondInstallSnapshot] and [Snapshot] are stubs in the source: the
    first answers [true], the second does nothing with the snapshot it
    is handed (the model only records the call in [Raft.snapshots], a
    field no modelled function reads). *)
Definition CondInstallSnapshot (lastIncludedTerm lastIncludedIndex : Z)
    (snapshot : SnapshotData) : M Raft.t bool :=
  ret true.

Definition Snapshot (index : Z) (snapshot : SnapshotData) : M Raft.t unit :=
  modify (fun rf => Raft.set_snapshots (Raft.snapshots rf ++ [(index, snapshot)]) rf).

(** ** The key-value server *)

Definition OK : string := "OK".
Definition ErrNoKey : string := "ErrNoKey".
Definition ErrWrongLeader : string := "ErrWrongLeader".
Definition ErrTimeout : string := " ErrTimeout".

Definition Putt : string := "Put".
Definition Appendd : string := "Append".
Definition Gett : string := "Get".

Module CommandArgs.
Record t : Type := mk
  { Key : string;
    Value : string;
    Op : string;
    ClientId : Z;
    CommandId : Z }.
End CommandArgs.

Module CommandReply.
Record t : Type := mk
  { Err : string;
    Value : string }.
Definition zero : t := mk EmptyString EmptyString.
End CommandReply.

(** The fields of [KVServer].  [rf] is the node it owns; a wait channel
    is represented by the values sent on it and not yet received. *)
Module KVServer.
Record t : Type := mk
  { me : Z;
    rf : Raft.t;
    maxraftstate : Z;
    storage : gmap string string;
    latestTime : gmap Z Z;
    waitChannel : gmap Z (list bool);
    lastApplied : Z }.
Definition set_rf (v : Raft.t) (x : t) : t :=
  mk (me x) v (maxraftstate x) (storage x) (latestTime x) (waitChannel x)
    (lastApplied x).
Definition set_storage (v : gmap string string) (x : t) : t :=
  mk (me x) (rf x) (maxraftstate x) v (latestTime x) (waitChannel x)
    (lastApplied x).
Definition set_latestTime (v : gmap Z Z) (x : t) : t :=
  mk (me x) (rf x) (maxraftstate x) (storage x) v (waitChannel x)
    (lastApplied x).
Definition set_waitChannel (v : gmap Z (list bool)) (x : t) : t :=
  mk (me x) (rf x) (maxraftstate x) (storage x) (latestTime x) v
    (lastApplied x).
Definition set_lastApplied (v : Z) (x : t) : t :=
  mk (me x) (rf x) (maxraftstate x) (storage x) (latestTime x) (waitChannel x)
    v.
End KVServer.

Definition onNode {A} (m : M Raft.t A) : M KVServer.t A :=
  zoom KVServer.rf KVServer.set_rf m.

(** Modelled from the spec: the in-memory store [MemoryKV], which is not
    among the sources: [storage: map<string,string>], written by Put and
    Append and read by Get (which answers [ErrNoKey] for a missing key). *)
Definition MemoryKV_Put (key value : string) (kv : gmap string string)
    : gmap string string :=
  <[key := value]> kv.

Definition MemoryKV_Append (key value : string) (kv : gmap string string)
    : gmap string string :=
  <[key := (default EmptyString (kv !! key) +:+ value)%string]> kv.

Definition MemoryKV_Get (key : string) (kv : gmap string string)
    : string * string :=
  match kv !! key with
  | Some v => (v, OK)
  | None => (EmptyString, ErrNoKey)
  end.

(** Go's integer division [a / b]. *)
Definition int_quot {S} (a b : Z) : M S Z :=
  if b =? 0 then panic "integer divide by zero"
  else ret (GoInt.wrap (Z.quot a b)).

(** [float32(n) > 0.8] for an integer [n].  The conversion rounds to the
    nearest float32, is monotone and exact on 0 and 1, and the constant
    becomes a float32 strictly between 0 and 1; the comparison therefore
    has the value it has on the rationals. *)
Definition float32_gt_0_8 (n : Z) : bool :=
  negb (Qle_bool (inject_Z n) (8 # 10)).

Definition dupCommand (commandId clientId : Z) : M KVServer.t bool :=
  kv <- get;;
  match KVServer.latestTime kv !! clientId with
  | Some latestId => ret (commandId <=? latestId)
  | None => ret false
  end.

(** [RaftStateSize] is the answer of [kv.persister.RaftStateSize()]; the
    persister is an external collaborator. *)
Definition needSnapShot (RaftStateSize : Z) : M KVServer.t bool :=
  kv <- get;;
  if negb (KVServer.maxraftstate kv =? -1) then
    q <- int_quot RaftStateSize (KVServer.maxraftstate kv);;
    ret (float32_gt_0_8 q)
  else ret false.

Definition saveState : M KVServer.t SnapshotData :=
  kv <- get;;
  ret (Encoded (KVServer.storage kv) (KVServer.latestTime kv)).

Definition takeSnapShot (index : Z) : M KVServer.t unit :=
  snapShot <- saveState;;
  onNode (Snapshot index snapShot).

Definition replaceSnapshot (data : SnapshotData) : M KVServer.t unit :=
  match data with
  | NoData => ret tt
  | Corrupt => panic "log.Fatal: error"
  | Encoded storage latestTime =>
      modify (fun kv => KVServer.set_latestTime latestTime (KVServer.set_storage storage kv))
  end.

Definition startWaitChannelL (seq : Z) : M KVServer.t unit :=
  modify (fun kv => KVServer.set_waitChannel (<[seq := []]> (KVServer.waitChannel kv)) kv).

Definition deleteWaitChannel (seq : Z) : M KVServer.t unit :=
  modify (fun kv => KVServer.set_waitChannel (delete seq (KVServer.waitChannel kv)) kv).

(** The body of the loop of [listenApplyCh] for one message of the apply
    channel. *)
Definition listenApplyCh (RaftStateSize : Z) (applyMessage : ApplyMsg.t)
    : M KVServer.t unit :=
  if ApplyMsg.CommandValid applyMessage then
    match ApplyMsg.Command applyMessage with
    | None => panic "interface conversion: interface is nil, not kvraft.Op"
    | Some curOp =>
        kv <- get;;
        if ApplyMsg.CommandIndex applyMessage >? KVServer.lastApplied kv then
          modify (KVServer.set_lastApplied (ApplyMsg.CommandIndex applyMessage));;;
          fresh <- (if negb (String.eqb (Op.OpTask curOp) Gett)
                    then dup <- dupCommand (Op.CommandId curOp) (Op.ClientId curOp);;
                         ret (negb dup)
                    else ret false);;
          (if fresh then
             (if String.eqb (Op.OpTask curOp) Appendd then
                modify (fun kv => KVServer.set_storage
                  (MemoryKV_Append (Op.Key curOp) (Op.Value curOp) (KVServer.storage kv)) kv)
              else if String.eqb (Op.OpTask curOp) Putt then
                modify (fun kv => KVServer.set_storage
                  (MemoryKV_Put (Op.Key curOp) (Op.Value curOp) (KVServer.storage kv)) kv)
              else ret tt);;;
             modify (fun kv => KVServer.set_latestTime
               (<[Op.ClientId curOp := Op.CommandId curOp]> (KVServer.latestTime kv)) kv)
           else ret tt);;;
          st <- onNode GetState;;
          (if snd st && (ApplyMsg.CommandTerm applyMessage =? fst st) then
             kv <- get;;
             match KVServer.waitChannel kv !! Op.Seq curOp with
             | Some c =>
                 modify (KVServer.set_waitChannel
                           (<[Op.Seq curOp := c ++ [true]]> (KVServer.waitChannel kv)))
             | None => ret tt
             end
           else ret tt);;;
          need <- needSnapShot RaftStateSize;;
          if need then takeSnapShot (ApplyMsg.CommandIndex applyMessage)
          else ret tt
        else ret tt
    end
  else if ApplyMsg.SnapshotValid applyMessage then
    kv <- get;;
    if KVServer.lastApplied kv <? ApplyMsg.SnapshotIndex applyMessage then
      ok <- onNode (CondInstallSnapshot (ApplyMsg.SnapshotTerm applyMessage)
                      (ApplyMsg.CommandIndex applyMessage)
                      (ApplyMsg.Snapshot applyMessage));;
      if ok then
        replaceSnapshot (ApplyMsg.Snapshot applyMessage);;;
        modify (KVServer.set_lastApplied (ApplyMsg.SnapshotIndex applyMessage))
      else ret tt
    else ret tt
  else ret tt.

(** The messages of the apply channel, handled one after the other. *)
Fixpoint listenApplyCh_run (RaftStateSize : Z) (msgs : list ApplyMsg.t)
    : M KVServer.t unit :=
  match msgs with
  | [] => ret tt
  | m :: msgs' =>
      listenApplyCh RaftStateSize m;;;
      listenApplyCh_run RaftStateSize msgs'
  end.

(** How the wait of [Command] for its operation ended. *)
Inductive WaitOutcome : Type := TimedOut | Applied.

(** [Command], with the token [nrand()] drew and the outcome of the
    [select] as parameters.  The clean-up task started with [go] on the
    two error paths is run at once. *)
Definition Command (args : CommandArgs.t) (seq : Z) (outcome : WaitOutcome)
    : M KVServer.t CommandReply.t :=
  let op := Op.mk (CommandArgs.Op args) (CommandArgs.Key args) (CommandArgs.Value args)
              (CommandArgs.ClientId args) (CommandArgs.CommandId args) seq in
  startWaitChannelL (Op.Seq op);;;
  r <- onNode (Start (Some op));;
  let isLeader := snd r in
  if negb isLeader then
    deleteWaitChannel (Op.Seq op);;;
    ret (CommandReply.mk ErrWrongLeader EmptyString)
  else
    match outcome with
    | TimedOut =>
        deleteWaitChannel (Op.Seq op);;;
        ret (CommandReply.mk ErrTimeout EmptyString)
    | Applied =>
        kv <- get;;
        let got := MemoryKV_Get (CommandArgs.Key args) (KVServer.storage kv) in
        deleteWaitChannel (Op.Seq op);;;
        ret (CommandReply.mk (snd got) (fst got))
    end.

(** ** Definitions used by the statements *)

(** *** Frames *)

(** [keeps f m]: whatever the outcome of [m], the component [f] of the
    state is what it was. *)
Definition keeps {S A T} (f : S -> T) (m : M S A) : Prop :=
  forall s, f (snd (m s)) = f s.

(** *** The leader *)

(** The replication indices of a leader. *)
Definition indices (rf : Raft.t) : list Z * list Z :=
  (Raft.nextIndex rf, Raft.matchIndex rf).

(** The staleness guard of [processAppendEntriesReply] fails. *)
Definition stale (peer : Z) (args : AppendEntriesArgs.t)
    (reply : AppendEntriesReply.t) (rf : Raft.t) : Prop :=
  Raft.state rf <> StateLeader \/
  AppendEntriesReply.Term reply <> Raft.currentTerm rf \/
  AppendEntriesArgs.Term args <> Raft.currentTerm rf \/
  exists next,
    0 <= peer /\ Raft.nextIndex rf !! Z.to_nat peer = Some next /\
    AppendEntriesArgs.PrevLogIndex args <> GoInt.sub next 1.

(** Peer [j] is another node than the leader and is known to hold
    index [i]. *)
Definition holds (rf : Raft.t) (i : Z) (j : nat) : bool :=
  negb (Z.of_nat j =? Raft.me rf)
  && match Raft.matchIndex rf !! j with
     | Some m => i <=? m
     | None => false
     end.

(** The number of such peers among [js]. *)
Definition holders (rf : Raft.t) (i : Z) (js : list nat) : nat :=
  length (List.filter (holds rf i) js).

(** The leader together with the peers that hold index [i] are a strict
    majority of the cluster. *)
Definition majority (rf : Raft.t) (i : Z) : Prop :=
  Z.of_nat (Raft.peers rf)
  < 2 * (1 + Z.of_nat (holders rf i (seq 0 (Raft.peers rf)))).

(** Index [i] can be committed by the leader: it lies above the commit
    index and within the log, a strict majority holds it, and its entry
    is of the current term. *)
Definition committable (rf : Raft.t) (i : Z) : Prop :=
  Raft.commitIndex rf < i <= last_of (Raft.raftLog rf) /\
  majority rf i /\
  term_at (Raft.raftLog rf) i = Some (Raft.currentTerm rf).

#[global] Instance committable_dec rf i : Decision (committable rf i).
Proof. unfold committable, majority. apply _. Defined.

(** The node after the leader has committed index [i]. *)
Definition committed (i : Z) (rf : Raft.t) : Raft.t :=
  Raft.set_applyCond (S (Raft.applyCond rf)) (Raft.set_commitIndex i rf).

(** What the commit advancement relies on: the log is well formed, the
    commit index is not below the dummy index, [matchIndex] has a
    position for every peer, and the number of peers is a Go integer. *)
Definition commit_ready (rf : Raft.t) : bool :=
  wf_log (Raft.raftLog rf)
  && (dummy_of (Raft.raftLog rf) <=? Raft.commitIndex rf)
  && (Raft.peers rf <=? length (Raft.matchIndex rf))%nat
  && (Z.of_nat (Raft.peers rf) <? GoInt.max_int).

(** Every peer other than the node has a replicator condition (as [Make]
    sets them up), so that a broadcast of [Append] signals them all. *)
Definition conds_ready (rf : Raft.t) : bool :=
  forallb (fun j => (Z.of_nat j =? Raft.me rf)
                    || match Raft.tryAppendCond rf !! j with
                       | Some (Some _) => true
                       | _ => false
                       end)
          (seq 0 (Raft.peers rf)).

(** *** The receiver *)

(** The node after the receiver has adopted the term of the request and
    stepped down (the statements between the term check and the check of
    [PrevLogIndex]). *)
Definition adoptTerm (args : AppendEntriesArgs.t) (rf : Raft.t) : Raft.t :=
  let rf1 := if AppendEntriesArgs.Term args >? Raft.currentTerm rf
             then Raft.set_votedFor (-1)
                    (Raft.set_currentTerm (AppendEntriesArgs.Term args) rf)
             else rf in
  Raft.set_electionTimer (S (Raft.electionTimer rf1))
    (Raft.set_state StateFollower rf1).

(** The log with the entries at index [high] and after dropped. *)
Definition truncate_at (l : raftLog) (high : Z) : list Entry.t :=
  List.filter (fun e => Entry.Index e <? high) (logs l).

(** The conflict scan as the design words it: at the first entry whose
    index is beyond the last index, or whose term differs from the term
    stored at its index, the log is truncated at that index and that
    entry and the ones after it are appended; without such an entry the
    log is unchanged. *)
Fixpoint conflict_scan (l : raftLog) (ents : list Entry.t) : list Entry.t :=
  match ents with
  | [] => logs l
  | e :: rest =>
      if (last_of l <? Entry.Index e)
         || negb (bool_decide (term_at l (Entry.Index e) = Some (Entry.Term e)))
      then truncate_at l (Entry.Index e) ++ e :: rest
      else conflict_scan l rest
  end.

(** *** The applier *)




(** What the applier relies on: the log is well formed and the applied
    and commit indices lie within it, in this order. *)
Definition applier_ready (rf : Raft.t) : bool :=
  wf_log (Raft.raftLog rf)
  && (dummy_of (Raft.raftLog rf) <=? Raft.lastApplied rf)
  && (Raft.lastApplied rf <=? Raft.commitIndex rf)
  && (Raft.commitIndex rf <=? last_of (Raft.raftLog rf)).


(** *** The key-value server *)

(** The part of the server the deduplication protects: the store and
    the dedupe table. *)
Definition kvCore (kv : KVServer.t) : gmap string string * gmap Z Z :=
  (KVServer.storage kv, KVServer.latestTime kv).

(** The delivery of the message changed the store or the dedupe table. *)
Definition affects (RaftStateSize : Z) (m : ApplyMsg.t) (kv : KVServer.t) : Prop :=
  kvCore (snd (listenApplyCh RaftStateSize m kv)) <> kvCore kv.

(** The command is a duplicate for the table: its client has an entry
    and the command identifier does not exceed it. *)
Definition dupb (kv : KVServer.t) (op : Op.t) : bool :=
  match KVServer.latestTime kv !! Op.ClientId op with
  | Some latestId => Op.CommandId op <=? latestId
  | None => false
  end.

(** The store after a fresh operation. *)
Definition applyOp (op : Op.t) (storage : gmap string string) : gmap string string :=
  if String.eqb (Op.OpTask op) Appendd
  then MemoryKV_Append (Op.Key op) (Op.Value op) storage
  else if String.eqb (Op.OpTask op) Putt
       then MemoryKV_Put (Op.Key op) (Op.Value op) storage
       else storage.

(** The entries of the dedupe table only grow. *)
Definition dedupe_le (kv kv' : KVServer.t) : Prop :=
  forall c latest,
    KVServer.latestTime kv !! c = Some latest ->
    exists latest', KVServer.latestTime kv' !! c = Some latest' /\ latest <= latest'.

(** ** Sample nodes, requests and messages

    A node of a cluster of three, at position 0, for the worked
    scenarios. *)

Definition ent (i t : Z) : Entry.t := Entry.mk i t None.

Definition node3 (st : NodeState) (term : Z) (log : list Entry.t)
    (commit applied : Z) (next mtch : list Z) : Raft.t :=
  Raft.mk 3 0 None [] 0 [None; Some 0%nat; Some 0%nat] [] st term (-1)
    (mkLog log) commit applied next mtch 0 [].

Definition kv3 (node : Raft.t) (maxraftstate : Z) : KVServer.t :=
  KVServer.mk 0 node maxraftstate ∅ ∅ ∅ 0.

(** A follower with a fresh log; a request that names an index before
    its dummy entry; a request whose [PrevLogIndex] is its dummy index
    and whose [PrevLogTerm] is not the term of its dummy entry. *)
Definition freshFollower : Raft.t :=
  node3 StateFollower 1 [ent 0 0] 0 0 [0; 0; 0] [0; 0; 0].

Definition requestBeforeDummy : AppendEntriesArgs.t :=
  AppendEntriesArgs.mk 1 1 (-1) 0 [] 0.

Definition requestAtDummy : AppendEntriesArgs.t :=
  AppendEntriesArgs.mk 1 1 0 1 [] 0.

(** The follower of the worked scenario of the conflict scan, with log
    [1:t1, 2:t1, 3:t2] after the dummy entry, and the request with
    [prevLogIndex = 2], [prevLogTerm = t1] and entries [3:t3, 4:t3]. *)
Definition followerLog (t1 t2 : Z) : list Entry.t :=
  [ent 0 0; ent 1 t1; ent 2 t1; ent 3 t2].

Definition conflictingArgs (term t1 t3 : Z) : AppendEntriesArgs.t :=
  AppendEntriesArgs.mk term 1 2 t1 [ent 3 t3; ent 4 t3] 0.

(** A leader whose [nextIndex] for peer 1 lies two past its last index. *)
Definition leaderAhead : Raft.t :=
  node3 StateLeader 1 [ent 0 0] 0 0 [1; 2; 1] [0; 0; 0].

(** A leader of term 2 whose log holds the dummy entry and one entry. *)
Definition leaderOne : Raft.t :=
  node3 StateLeader 2 [ent 0 0; ent 1 1] 0 0 [2; 2; 2] [0; 0; 0].

(** A leader of term 2 with two entries, which sent peer 1 a request with
    [PrevLogIndex = 0] and has since moved [nextIndex[1]] to 3; that
    request, a request to peer 2 that is still current, and a reply that
    reports success. *)
Definition leaderTwo : Raft.t :=
  node3 StateLeader 2 [ent 0 0; ent 1 2; ent 2 2] 0 0 [3; 3; 1] [0; 2; 0].

Definition staleArgs : AppendEntriesArgs.t :=
  AppendEntriesArgs.mk 2 0 0 0 [ent 1 2] 0.

Definition freshArgs : AppendEntriesArgs.t :=
  AppendEntriesArgs.mk 2 0 0 0 [ent 1 2; ent 2 2] 0.

Definition successReply : AppendEntriesReply.t := AppendEntriesReply.mk 2 true 0.

(** A leader of term 4 (cluster of three) whose entries 1 and 2 are of
    term 2; peer 1 holds both, peer 2 holds nothing. *)
Definition leaderOldTerm : Raft.t :=
  node3 StateLeader 4 [ent 0 0; ent 1 2; ent 2 2] 0 0 [3; 3; 1] [0; 2; 0].

(** The same leader once it has appended an entry of its own term at
    index 3 and peer 1 holds it. *)
Definition leaderNewTerm : Raft.t :=
  node3 StateLeader 4 [ent 0 0; ent 1 2; ent 2 2; ent 3 4] 0 0 [4; 4; 1] [0; 3; 0].



(** A key-value server with [maxraftstate = 10], and a Put delivered to
    it at index 1. *)
Definition kvTen : KVServer.t := kv3 freshFollower 10.

Definition putMsg : ApplyMsg.t :=
  ApplyMsg.mk true (Some (Op.mk Putt "k" "v" 1 7 42)) 1 1 false NoData 0 0.

(** A Get request of client 1. *)
Definition getArgs : CommandArgs.t := CommandArgs.mk "k" EmptyString Gett 1 7.

(** Command messages, and commands of clients 1 and 2: a Put of client 1
    with command identifier 7, a second Put with the same identifier, and
    an Append of client 2. *)
Definition cmdMsg (index : Z) (op : Op.t) : ApplyMsg.t :=
  ApplyMsg.mk true (Some op) 1 index false NoData 0 0.

Definition putOp : Op.t := Op.mk Putt "k" "v" 1 7 42.

Definition putAgain : Op.t := Op.mk Putt "k" "w" 1 7 43.

Definition appendOp : Op.t := Op.mk Appendd "k" "x" 2 1 44.

(** ** Further functions of the sources, and samples for them *)

(** A log whose dummy entry stands for a snapshot through index 3. *)
Definition sampleLog : raftLog :=
  mkLog [ent 3 1; ent 4 1; ent 5 2; ent 6 2].

(** A log that ends in an older term but is longer. *)
Definition olderLog : raftLog :=
  mkLog [ent 0 0; ent 1 1; ent 2 1; ent 3 1; ent 4 1; ent 5 1; ent 6 1; ent 7 1].

(** [needAppend]: whether the replicator of [peer] has entries to push.
    Go's [&&] does not evaluate its right operand for a node that is not
    the leader. *)
Definition needAppend (peer : Z) : M Raft.t bool :=
  rf <- get;;
  if NodeState_eqb (Raft.state rf) StateLeader then
    m <- index (Raft.matchIndex rf) peer;;
    last <- onLog lastIndex;;
    ret (m <? last)
  else ret false.

(** The transport when it delivers: the request reaches the node
    [follower], whose handler fills the zero reply struct the sender
    passed, and the reply comes back; there is no reply when the handler
    panics. *)
Definition deliver (follower : Raft.t) (peer : Z) (args : AppendEntriesArgs.t)
    : option AppendEntriesReply.t :=
  match HandleAppendEntries args (follower, AppendEntriesReply.zero) with
  | (Val _, (_, reply)) => Some reply
  | (Panic _, _) => None
  end.

(** The node [follower] once its handler has run on the request. *)
Definition received (follower : Raft.t) (args : AppendEntriesArgs.t) : Raft.t :=
  fst (snd (HandleAppendEntries args (follower, AppendEntriesReply.zero))).

(** The term, the vote and the role of a node. *)
Definition termState (rf : Raft.t) : Z * Z * NodeState :=
  (Raft.currentTerm rf, Raft.votedFor rf, Raft.state rf).

(** From [rf] to [rf'] the term has not gone down, and if it has gone up
    the node has stepped down and forgotten its vote. *)
Definition steps_up (rf rf' : Raft.t) : Prop :=
  Raft.currentTerm rf <= Raft.currentTerm rf' /\
  (Raft.currentTerm rf < Raft.currentTerm rf' ->
   Raft.state rf' = StateFollower /\ Raft.votedFor rf' = -1).

(** Modelled from the spec: [readPersist], which is not among the
    sources: persisting then reloading [(currentTerm, votedFor, log)]
    yields identical values; a store that holds no blob restores
    nothing. *)
Definition readPersist (data : option RaftBlob) : M Raft.t unit :=
  match data with
  | None => ret tt
  | Some b =>
      modify (fun rf =>
        Raft.set_raftLog (mkLog (blobLogs b))
          (Raft.set_votedFor (blobVotedFor b)
             (Raft.set_currentTerm (blobTerm b) rf)))
  end.

(** The loop of [Make] that creates the replicator conditions,
    [for i := 0; i < len(peers); i++]. *)
Fixpoint Make_loop (ps : list nat) : M Raft.t unit :=
  match ps with
  | [] => ret tt
  | i :: ps' =>
      rf <- get;;
      (if negb (Z.of_nat i =? Raft.me rf) then
         s <- store (Raft.tryAppendCond rf) (Z.of_nat i) (Some 0%nat);;
         modify (Raft.set_tryAppendCond s)
       else ret tt);;;
      Make_loop ps'
  end.

(** [Make], for [len(peers)] peers and a persister that holds
    [persister]; the apply channel it is handed has carried nothing
    yet.  The tasks it starts (replicators, ticker, applier) take their
    steps on their own.  The result is the outcome and the node. *)
Definition Make (peers : nat) (me : Z) (persister : option RaftBlob)
    : Res unit * Raft.t :=
  (readPersist persister;;;
   modify (Raft.set_applyCond 0);;;
   Make_loop (seq 0 peers))
    (Raft.mk peers me persister [] 0 (replicate peers None) [] StateFollower
       0 (-1) newLogs 0 0 (replicate peers 0) (replicate peers 0) 0 []).

(** A snapshot message of the apply channel. *)
Definition snapMsg (data : SnapshotData) (term index : Z) : ApplyMsg.t :=
  ApplyMsg.mk false None 0 0 true data term index.

(** The wait channels after the waiter of [op] has been notified. *)
Definition notified (op : Op.t) (wc : gmap Z (list bool)) : gmap Z (list bool) :=
  match wc !! Op.Seq op with
  | Some c => <[Op.Seq op := c ++ [true]]> wc
  | None => wc
  end.

(** * Properties *)

(** ** Go integers *)

Lemma is_intb_spec z : GoInt.is_intb z = true <-> GoInt.is_int z.
Proof. unfold GoInt.is_intb, GoInt.is_int. rewrite andb_true_iff. lia. Qed.

Lemma wrap_id z : GoInt.is_int z -> GoInt.wrap z = z.
Proof.
  unfold GoInt.is_int, GoInt.wrap, GoInt.min_int, GoInt.max_int. intros Hz.
  rewrite Z.mod_small; lia.
Qed.

Lemma add_id a b : GoInt.is_int (a + b) -> GoInt.add a b = a + b.
Proof. apply wrap_id. Qed.

Lemma sub_id a b : GoInt.is_int (a - b) -> GoInt.sub a b = a - b.
Proof. apply wrap_id. Qed.

Lemma is_int_elim z :
  GoInt.is_int z -> - 9223372036854775808 <= z <= 9223372036854775807.
Proof. unfold GoInt.is_int, GoInt.min_int, GoInt.max_int. lia. Qed.

Lemma is_int_intro z :
  - 9223372036854775808 <= z <= 9223372036854775807 -> GoInt.is_int z.
Proof. unfold GoInt.is_int, GoInt.min_int, GoInt.max_int. lia. Qed.

(** Rewrites the wrapped sums and differences whose exact value is shown
    to be a Go integer by linear arithmetic. *)
Ltac unwrap :=
  repeat first
    [ rewrite add_id by (apply is_int_intro; lia)
    | rewrite sub_id by (apply is_int_intro; lia) ].

(** ** Slices *)

Ltac munfold :=
  unfold bind, ret, get, gets, put, modify, panic, zoom in *.

Lemma index_run {S A} (s : list A) (i : Z) (x : A) (st : S) :
  0 <= i -> s !! Z.to_nat i = Some x -> index s i st = (Val x, st).
Proof.
  intros Hi Hx. unfold index, len.
  pose proof (lookup_lt_Some _ _ _ Hx) as Hlt.
  destruct (i <? 0) eqn:E1; [lia|].
  destruct (Z.of_nat (length s) <=? i) eqn:E2; [lia|].
  simpl. rewrite Hx. reflexivity.
Qed.

Lemma index_oob {S A} (s : list A) (i : Z) (st : S) :
  i < 0 \/ len s <= i -> index s i st = (Panic "index out of range", st).
Proof.
  intros Hi. unfold index.
  destruct ((i <? 0) || (len s <=? i)) eqn:E; [reflexivity|].
  apply orb_false_iff in E. lia.
Qed.

(** ** The log *)

Lemma contiguous_from_lookup d es k e :
  contiguous_from d es = true -> es !! k = Some e ->
  Entry.Index e = d + Z.of_nat k.
Proof.
  revert d k. induction es as [|x es IH]; intros d k Hc Hk; [done|].
  simpl in Hc. apply andb_true_iff in Hc as [Hx Hc].
  destruct k as [|k]; simpl in Hk.
  - inversion Hk; subst. lia.
  - rewrite (IH _ _ Hc Hk). lia.
Qed.

Lemma contiguous_from_app d es es' :
  contiguous_from d (es ++ es') =
  contiguous_from d es && contiguous_from (d + len es) es'.
Proof.
  revert d. induction es as [|x es IH]; intros d; simpl.
  - unfold len. simpl. f_equal. lia.
  - rewrite IH, andb_assoc. do 2 f_equal. unfold len. simpl length. lia.
Qed.

Lemma contiguous_from_take d es n :
  contiguous_from d es = true -> contiguous_from d (take n es) = true.
Proof.
  intros H. rewrite <- (take_drop n es) in H.
  rewrite contiguous_from_app in H. by apply andb_true_iff in H as [H _].
Qed.

(** What [wf_log] says, in logical form. *)
Lemma wf_log_inv l :
  wf_log l = true ->
  0 <= dummy_of l /\ GoInt.is_int (last_of l + 1) /\ (0 < length (logs l))%nat /\
  forall k e, logs l !! k = Some e -> Entry.Index e = dummy_of l + Z.of_nat k.
Proof.
  unfold wf_log, last_of, dummy_of, len. destruct (logs l) as [|e0 rest]; [done|].
  intros H. apply andb_true_iff in H as [H Hc]. apply andb_true_iff in H as [H0 Hi].
  apply is_intb_spec in Hi. apply is_int_elim in Hi. apply Z.leb_le in H0.
  unfold len in Hi. simpl length.
  split; [lia|]. split; [apply is_int_intro; lia|]. split; [lia|].
  intros [|k] e Hk; simpl in Hk.
  - inversion Hk; subst. lia.
  - rewrite (contiguous_from_lookup _ _ _ _ Hc Hk). lia.
Qed.

Lemma wf_log_bounds l :
  wf_log l = true ->
  0 <= dummy_of l <= last_of l /\ last_of l < 9223372036854775807 /\
  len (logs l) = last_of l - dummy_of l + 1.
Proof.
  intros H. destruct (wf_log_inv _ H) as (H0 & Hi & Hlen & _).
  apply is_int_elim in Hi. unfold last_of, len in *. lia.
Qed.

Lemma dummyIndex_run l : wf_log l = true -> dummyIndex l = (Val (dummy_of l), l).
Proof.
  intros H. unfold dummyIndex, dummy_of. munfold.
  unfold wf_log in H. destruct (logs l) as [|e0 rest] eqn:E; [done|].
  reflexivity.
Qed.

Lemma entry_at_Some l i e :
  wf_log l = true -> entry_at l i = Some e ->
  dummy_of l <= i <= last_of l /\ Entry.Index e = i /\
  logs l !! Z.to_nat (i - dummy_of l) = Some e.
Proof.
  intros H He. unfold entry_at in He.
  destruct (i <? dummy_of l) eqn:E; [done|].
  destruct (wf_log_inv _ H) as (H0 & Hi & Hlen & Hidx).
  pose proof (lookup_lt_Some _ _ _ He) as Hlt.
  rewrite (Hidx _ _ He). unfold last_of, len.
  split; [lia|]. split; [lia|done].
Qed.

Lemma entry_at_in_range l i :
  wf_log l = true -> dummy_of l <= i <= last_of l -> is_Some (entry_at l i).
Proof.
  intros H Hi. unfold entry_at. destruct (i <? dummy_of l) eqn:E; [lia|].
  apply lookup_lt_is_Some. unfold last_of, len in Hi. lia.
Qed.

Lemma entry_at_None l i :
  wf_log l = true -> entry_at l i = None -> i < dummy_of l \/ last_of l < i.
Proof.
  intros H He. destruct (Z.ltb_spec i (dummy_of l)); [lia|].
  destruct (Z.ltb_spec (last_of l) i); [lia|].
  destruct (entry_at_in_range l i H) as [e He']; [lia|congruence].
Qed.

Lemma lastIndex_run l : wf_log l = true -> lastIndex l = (Val (last_of l), l).
Proof.
  intros H. destruct (wf_log_inv _ H) as (H0 & Hi & Hlen & Hidx).
  unfold lastIndex. munfold. unfold len.
  rewrite sub_id by (apply is_int_intro; apply is_int_elim in Hi; unfold last_of, len in Hi; lia).
  destruct (lookup_lt_is_Some_2 (logs l) (Z.to_nat (Z.of_nat (length (logs l)) - 1)))
    as [e He]; [lia|].
  rewrite (index_run _ _ e) by (lia || done).
  rewrite (Hidx _ _ He). unfold last_of, len. do 2 f_equal. lia.
Qed.

Lemma convertIndex_run l i :
  wf_log l = true -> dummy_of l <= i -> GoInt.is_int i ->
  convertIndex i l = (Val (i - dummy_of l), l).
Proof.
  intros H Hd Hi. unfold convertIndex. munfold.
  rewrite !(dummyIndex_run _ H).
  destruct (i <? dummy_of l) eqn:E; [lia|].
  rewrite !(dummyIndex_run _ H).
  destruct (wf_log_bounds _ H) as (? & ? & ?). apply is_int_elim in Hi.
  unwrap. reflexivity.
Qed.

Lemma convertIndex_low l i :
  wf_log l = true -> i < dummy_of l ->
  convertIndex i l = (Panic "current index is smaller than dummy Index", l).
Proof.
  intros H Hd. unfold convertIndex. munfold.
  rewrite !(dummyIndex_run _ H).
  destruct (i <? dummy_of l) eqn:E; [reflexivity|lia].
Qed.

Lemma getEntry_run l i e :
  wf_log l = true -> entry_at l i = Some e -> getEntry i l = (Val e, l).
Proof.
  intros H He. destruct (entry_at_Some _ _ _ H He) as (Hr & _ & Hl).
  destruct (wf_log_bounds _ H) as (? & ? & ?).
  unfold getEntry. munfold.
  rewrite convertIndex_run by (done || lia || (apply is_int_intro; lia)).
  apply index_run; [lia|done].
Qed.

Lemma getEntry_beyond l i :
  wf_log l = true -> last_of l < i -> GoInt.is_int i ->
  getEntry i l = (Panic "index out of range", l).
Proof.
  intros H Hr Hi. destruct (wf_log_bounds _ H) as (? & ? & ?).
  unfold getEntry. munfold.
  rewrite convertIndex_run by (done || lia).
  apply index_oob. lia.
Qed.

(** ** Running a computation step by step *)

Lemma bind_val {S A B} (m : M S A) (k : A -> M S B) s a s' :
  m s = (Val a, s') -> bind m k s = k a s'.
Proof. intros H. unfold bind. by rewrite H. Qed.

Lemma bind_panic {S A B} (m : M S A) (k : A -> M S B) s msg s' :
  m s = (Panic msg, s') -> bind m k s = (Panic msg, s').
Proof. intros H. unfold bind. by rewrite H. Qed.

Lemma onLog_read {A} (m : M raftLog A) rf r :
  m (Raft.raftLog rf) = (r, Raft.raftLog rf) -> onLog m rf = (r, rf).
Proof. intros H. unfold onLog, zoom. rewrite H. by destruct rf. Qed.

Lemma onLog_run {A} (m : M raftLog A) rf r l :
  m (Raft.raftLog rf) = (r, l) -> onLog m rf = (r, Raft.set_raftLog l rf).
Proof. intros H. unfold onLog, zoom. by rewrite H. Qed.

Lemma onRf_run {A} (m : M Raft.t A) rf rf' reply r :
  m rf = (r, rf') -> onRf m (rf, reply) = (r, (rf', reply)).
Proof. intros H. unfold onRf, zoom. simpl. by rewrite H. Qed.

Lemma onRf_onLog_read {A} (m : M raftLog A) rf reply r :
  m (Raft.raftLog rf) = (r, Raft.raftLog rf) ->
  onRf (onLog m) (rf, reply) = (r, (rf, reply)).
Proof. intros H. by apply onRf_run, onLog_read. Qed.

(** ** The receiver on a request that precedes the dummy entry (C7) *)

Lemma adoptTerm_raftLog args rf : Raft.raftLog (adoptTerm args rf) = Raft.raftLog rf.
Proof. unfold adoptTerm. by destruct (_ >? _). Qed.

Lemma adoptTerm_currentTerm args rf :
  Raft.currentTerm rf <= AppendEntriesArgs.Term args ->
  Raft.currentTerm (adoptTerm args rf) = AppendEntriesArgs.Term args.
Proof.
  intros H. unfold adoptTerm.
  destruct (Z.gtb_spec (AppendEntriesArgs.Term args) (Raft.currentTerm rf)); simpl; lia.
Qed.

(** One step of a run: the first computation of a sequence is replaced
    by its result, which the given tactic establishes. *)
Ltac step_by tac := erewrite bind_val; [| solve [tac]].
Ltac step := step_by ltac:(reflexivity).

Lemma persist_run rf :
  persist rf =
  (Val tt, Raft.set_persister
             (Some (mkBlob (Raft.currentTerm rf) (Raft.votedFor rf)
                           (logs (Raft.raftLog rf)))) rf).
Proof. reflexivity. Qed.

(** The receiver up to the check of [PrevLogIndex], on a request whose
    term is not behind. *)
Lemma HandleAppendEntries_adopt args rf reply :
  wf_log (Raft.raftLog rf) = true ->
  Raft.currentTerm rf <= AppendEntriesArgs.Term args ->
  HandleAppendEntries args (rf, reply) =
  defer (onRf persist) (HandleAppendEntries_log args) (adoptTerm args rf, reply).
Proof.
  intros Hwf Hterm.
  unfold HandleAppendEntries, defer.
  step_by ltac:(apply onRf_onLog_read, dummyIndex_run, Hwf).
  step_by ltac:(apply onRf_onLog_read, lastIndex_run, Hwf).
  step. cbn [fst].
  destruct (Z.ltb_spec (AppendEntriesArgs.Term args) (Raft.currentTerm rf)) as [?|_]; [lia|].
  erewrite (bind_val _ _ _ tt
              (if AppendEntriesArgs.Term args >? Raft.currentTerm rf
               then Raft.set_votedFor (-1)
                      (Raft.set_currentTerm (AppendEntriesArgs.Term args) rf)
               else rf, reply));
    [| by destruct (_ >? _)].
  step. step. reflexivity.
Qed.

Lemma HandleAppendEntries_before_dummy args rf reply :
  wf_log (Raft.raftLog rf) = true ->
  Raft.currentTerm rf <= AppendEntriesArgs.Term args ->
  AppendEntriesArgs.PrevLogIndex args < dummy_of (Raft.raftLog rf) ->
  HandleAppendEntries args (rf, reply) =
  (Panic "weird2",
   (snd (persist (adoptTerm args rf)),
    AppendEntriesReply.set_Success false (AppendEntriesReply.set_Term 0 reply))).
Proof.
  intros Hwf Hterm Hprev.
  rewrite HandleAppendEntries_adopt by done.
  assert (Hwf' : wf_log (Raft.raftLog (adoptTerm args rf)) = true)
    by (by rewrite adoptTerm_raftLog).
  unfold defer, HandleAppendEntries_log.
  step_by ltac:(apply onRf_onLog_read, dummyIndex_run, Hwf').
  rewrite adoptTerm_raftLog.
  destruct (Z.ltb_spec (AppendEntriesArgs.PrevLogIndex args) (dummy_of (Raft.raftLog rf)))
    as [_|?]; [|lia].
  erewrite bind_panic.
  2:{ step.
      step_by ltac:(apply onRf_onLog_read, dummyIndex_run; cbn; apply Hwf').
      reflexivity. }
  reflexivity.
Qed.

(** C7, as stated, fails: on a request whose term is not behind and whose
    [PrevLogIndex] is below the dummy index, the receiver does not
    return to its caller. *)
Lemma HandleAppendEntries_before_dummy_no_return :
  AppendEntriesArgs.Term requestBeforeDummy >= Raft.currentTerm freshFollower /\
  AppendEntriesArgs.PrevLogIndex requestBeforeDummy
    < dummy_of (Raft.raftLog freshFollower) /\
  fst (HandleAppendEntries requestBeforeDummy (freshFollower, AppendEntriesReply.zero))
    = Panic "weird2" /\
  forall h,
    HandleAppendEntries requestBeforeDummy (freshFollower, AppendEntriesReply.zero)
      <> (Val tt, h).
Proof.
  split; [by vm_compute|]. split; [by vm_compute|]. split; [reflexivity|].
  intros h H. apply (f_equal fst) in H. vm_compute in H. discriminate.
Qed.

(** C7 (amended): for every request with [args.Term >= currentTerm] and
    [args.PrevLogIndex] below the dummy index of a well-formed log, the
    receiver writes term 0 and success false into the reply and then
    panics with "weird2" instead of returning; the log is unchanged, the
    node has stepped down to Follower in the term of the request, and the
    deferred persist has saved that term and the unchanged log. *)
Theorem HandleAppendEntries_before_dummy_panics args rf reply :
  wf_log (Raft.raftLog rf) = true ->
  AppendEntriesArgs.Term args >= Raft.currentTerm rf ->
  AppendEntriesArgs.PrevLogIndex args < dummy_of (Raft.raftLog rf) ->
  exists rf' reply',
    HandleAppendEntries args (rf, reply) = (Panic "weird2", (rf', reply')) /\
    AppendEntriesReply.Term reply' = 0 /\
    AppendEntriesReply.Success reply' = false /\
    AppendEntriesReply.ConflictIndex reply' = AppendEntriesReply.ConflictIndex reply /\
    Raft.raftLog rf' = Raft.raftLog rf /\
    Raft.state rf' = StateFollower /\
    Raft.currentTerm rf' = AppendEntriesArgs.Term args /\
    Raft.commitIndex rf' = Raft.commitIndex rf /\
    Raft.persister rf' =
      Some (mkBlob (AppendEntriesArgs.Term args) (Raft.votedFor rf')
                   (logs (Raft.raftLog rf))).
Proof.
  intros Hwf Hterm Hprev.
  eexists _, _. split.
  - apply HandleAppendEntries_before_dummy; [done|lia|done].
  - rewrite persist_run. cbn [snd]. unfold adoptTerm.
    destruct (Z.gtb_spec (AppendEntriesArgs.Term args) (Raft.currentTerm rf));
      simpl; repeat split; try done; try lia.
    do 2 f_equal. lia.
Qed.

Lemma HandleAppendEntries_before_dummy_panics_witness :
  exists rf' reply',
    HandleAppendEntries requestBeforeDummy (freshFollower, AppendEntriesReply.zero)
      = (Panic "weird2", (rf', reply')) /\
    AppendEntriesReply.Term reply' = 0 /\
    AppendEntriesReply.Success reply' = false /\
    AppendEntriesReply.ConflictIndex reply' = 0 /\
    Raft.raftLog rf' = Raft.raftLog freshFollower /\
    Raft.state rf' = StateFollower /\
    Raft.currentTerm rf' = 1 /\
    Raft.commitIndex rf' = 0 /\
    Raft.persister rf' = Some (mkBlob 1 (Raft.votedFor rf') [ent 0 0]).
Proof.
  apply (HandleAppendEntries_before_dummy_panics requestBeforeDummy freshFollower
           AppendEntriesReply.zero);
    unfold requestBeforeDummy, freshFollower, node3, dummy_of, ent; simpl;
    [reflexivity | lia | lia].
Defined.

(** ** The snapshot threshold (C9) *)



(** C9: the threshold is not 0.8 times [maxraftstate].  With
    [maxraftstate = 10] and a persisted size of 9, which exceeds
    [0.8 * 10], [needSnapShot] answers false (the quotient [9 / 10] is
    taken on integers, and is 0), and the server that applies a command
    at that size hands no snapshot to the node. *)
Theorem needSnapShot_misses_threshold :
  KVServer.maxraftstate kvTen = 10 /\
  ((8 # 10) * inject_Z 10 < inject_Z 9)%Q /\
  needSnapShot 9 kvTen = (Val false, kvTen) /\
  (let kv' := snd (listenApplyCh 9 putMsg kvTen) in
   fst (listenApplyCh 9 putMsg kvTen) = Val tt /\
   KVServer.storage kv' !! "k"%string = Some "v"%string /\
   Raft.snapshots (KVServer.rf kv') = []).
Proof.
  split; [reflexivity|]. split; [reflexivity|]. split; [reflexivity|].
  cbv zeta. split; [by vm_compute|]. split; by vm_compute.
Qed.

(** ** The sender past the end of its log (C6) *)

Lemma onLog_dummyIndex rf :
  wf_log (Raft.raftLog rf) = true ->
  onLog dummyIndex rf = (Val (dummy_of (Raft.raftLog rf)), rf).
Proof. intros H. by apply onLog_read, dummyIndex_run. Qed.

Lemma onLog_lastIndex rf :
  wf_log (Raft.raftLog rf) = true ->
  onLog lastIndex rf = (Val (last_of (Raft.raftLog rf)), rf).
Proof. intros H. by apply onLog_read, lastIndex_run. Qed.

Lemma onLog_getEntry rf i e :
  wf_log (Raft.raftLog rf) = true -> entry_at (Raft.raftLog rf) i = Some e ->
  onLog (getEntry i) rf = (Val e, rf).
Proof. intros H He. by apply onLog_read, getEntry_run. Qed.

(** Whenever [nextIndex[peer] - 1] exceeds the last index, the sender
    moves [prevLogIndex] to [lastIndex + 1], and reading the entry there
    panics: no arguments are built. *)
Lemma appendOneRound_args_beyond_last peer next rf :
  wf_log (Raft.raftLog rf) = true ->
  Raft.state rf = StateLeader ->
  0 <= peer -> Raft.nextIndex rf !! Z.to_nat peer = Some next ->
  GoInt.is_int next ->
  last_of (Raft.raftLog rf) < next - 1 ->
  appendOneRound_args peer rf = (Panic "index out of range", rf).
Proof.
  intros Hwf Hst Hp Hn Hi Hlast. apply is_int_elim in Hi.
  destruct (wf_log_bounds _ Hwf) as (Hd & Hmax & Hlen).
  unfold appendOneRound_args.
  step. rewrite Hst. cbn [NodeState_eqb negb].
  step_by ltac:(by apply index_run).
  step_by ltac:(by apply onLog_dummyIndex).
  rewrite sub_id by (apply is_int_intro; lia).
  destruct (Z.ltb_spec (next - 1) (dummy_of (Raft.raftLog rf))); [lia|].
  step.
  step_by ltac:(by apply onLog_lastIndex).
  destruct (Z.gtb_spec (next - 1) (last_of (Raft.raftLog rf))); [|lia].
  step_by ltac:(step_by ltac:(by apply onLog_lastIndex); reflexivity).
  rewrite add_id by (apply is_int_intro; lia).
  erewrite bind_panic; [reflexivity|].
  apply onLog_read, getEntry_beyond; [done|lia|apply is_int_intro; lia].
Qed.

(** C6: the sender does not clamp [prevLogIndex] to [lastIndex].  On a
    leader whose log ends at index 0 and whose [nextIndex] for peer 1
    is 2, [prevLogIndex = 1] exceeds the last index; the sender then reads
    the entry at [lastIndex + 1] and panics, with whatever transport. *)
Theorem appendOneRound_no_clamp :
  onLog lastIndex leaderAhead = (Val 0, leaderAhead) /\
  Raft.nextIndex leaderAhead !! 1%nat = Some 2 /\
  appendOneRound_args 1 leaderAhead = (Panic "index out of range", leaderAhead) /\
  forall send, appendOneRound send 1 leaderAhead
               = (Panic "index out of range", leaderAhead).
Proof.
  split; [reflexivity|]. split; [reflexivity|].
  assert (H : appendOneRound_args 1 leaderAhead
              = (Panic "index out of range", leaderAhead)) by reflexivity.
  split; [exact H|]. intros send. unfold appendOneRound.
  by rewrite (bind_panic _ _ _ _ _ H).
Qed.

(** ** The fast backup of the receiver (C5) *)

Lemma term_at_Some l i t :
  term_at l i = Some t <-> exists e, entry_at l i = Some e /\ Entry.Term e = t.
Proof.
  unfold term_at. destruct (entry_at l i) as [e|]; simpl; split.
  - intros [= <-]. eauto.
  - by intros (e' & [= <-] & <-).
  - done.
  - by intros (e' & ? & _).
Qed.

Lemma matchLog_run l t i :
  wf_log l = true -> dummy_of l <= i -> GoInt.is_int i ->
  matchLog t i l =
  (Val (match term_at l i with Some t' => t =? t' | None => false end), l).
Proof.
  intros Hwf Hd Hi. unfold matchLog.
  step_by ltac:(by apply lastIndex_run).
  destruct (Z.gtb_spec i (last_of l)) as [Hgt|Hle].
  - unfold term_at. destruct (entry_at l i) as [e|] eqn:He; [|reflexivity].
    destruct (entry_at_Some _ _ _ Hwf He). lia.
  - destruct (entry_at_in_range l i Hwf) as [e He]; [lia|].
    step_by ltac:(by apply getEntry_run).
    unfold term_at. rewrite He. simpl.
    destruct (entry_at_Some _ _ _ Hwf He) as (_ & -> & _).
    rewrite Z.eqb_refl. simpl. by destruct (t =? Entry.Term e).
Qed.

(** The backward walk stops at the first index, going down from [index],
    that is not above [dummyIndex + 1] or that holds another term. *)
Lemma backoff_spec l t fuel : forall index,
  wf_log l = true ->
  dummy_of l <= index <= last_of l ->
  (Z.to_nat (index - dummy_of l) < fuel)%nat ->
  exists c,
    backoff fuel index (dummy_of l) t l = (Val c, l) /\
    c <= index /\
    (index <= dummy_of l + 1 -> c = index) /\
    (dummy_of l + 1 <= index -> dummy_of l + 1 <= c) /\
    (forall j, c < j <= index -> term_at l j = Some t) /\
    (c <= dummy_of l + 1 \/ term_at l c <> Some t).
Proof.
  induction fuel as [|fuel IH]; intros index Hwf Hr Hf; [lia|].
  destruct (wf_log_bounds _ Hwf) as (Hd & Hmax & Hlen).
  cbn [backoff]. rewrite add_id by (apply is_int_intro; lia).
  destruct (Z.gtb_spec index (dummy_of l + 1)) as [Hgt|Hle].
  - destruct (entry_at_in_range l index Hwf) as [e He]; [lia|].
    step_by ltac:(by apply getEntry_run).
    destruct (Z.eqb_spec (Entry.Term e) t) as [Ht|Ht].
    + rewrite sub_id by (apply is_int_intro; lia).
      destruct (IH (index - 1)) as (c & Hrun & Hc1 & Hc2 & Hc3 & Hc4 & Hc5);
        [done|lia|lia|].
      exists c. split; [done|]. split; [lia|]. split; [lia|]. split; [lia|].
      split; [|done]. intros j Hj.
      destruct (Z.eq_dec j index) as [->|]; [|apply Hc4; lia].
      apply term_at_Some. eauto.
    + exists index. split; [done|]. split; [lia|]. split; [lia|]. split; [lia|].
      split; [intros; lia|]. right. intros (e' & He' & Ht')%term_at_Some. congruence.
  - exists index. split; [done|]. split; [lia|]. split; [lia|]. split; [lia|].
    split; [intros; lia|]. by left.
Qed.

(** The receiver on a request that its log does not match: the reply is
    [(currentTerm, false)] with the fast-backup index, which exceeds the
    dummy index whenever [PrevLogIndex] does, and is the dummy index
    itself when [PrevLogIndex] is. *)
Lemma HandleAppendEntries_mismatch args rf reply :
  wf_log (Raft.raftLog rf) = true ->
  Raft.currentTerm rf <= AppendEntriesArgs.Term args ->
  dummy_of (Raft.raftLog rf) <= AppendEntriesArgs.PrevLogIndex args ->
  GoInt.is_int (AppendEntriesArgs.PrevLogIndex args) ->
  term_at (Raft.raftLog rf) (AppendEntriesArgs.PrevLogIndex args)
    <> Some (AppendEntriesArgs.PrevLogTerm args) ->
  let l := Raft.raftLog rf in
  let prev := AppendEntriesArgs.PrevLogIndex args in
  exists c,
    HandleAppendEntries args (rf, reply) =
    (Val tt, (snd (persist (adoptTerm args rf)),
              AppendEntriesReply.mk (AppendEntriesArgs.Term args) false c)) /\
    (last_of l < prev -> c = last_of l + 1) /\
    (prev <= last_of l ->
       c <= prev /\
       (forall j, c < j <= prev -> term_at l j = term_at l prev) /\
       (c <= dummy_of l + 1 \/ term_at l c <> term_at l prev)) /\
    (dummy_of l < prev -> dummy_of l < c) /\
    (prev = dummy_of l -> c = dummy_of l).
Proof.
  intros Hwf Hterm Hd Hi Hmis. cbv zeta.
  set (l := Raft.raftLog rf) in *.
  set (prev := AppendEntriesArgs.PrevLogIndex args) in *.
  apply is_int_elim in Hi.
  destruct (wf_log_bounds _ Hwf) as (Hb & Hmax & Hlen).
  rewrite HandleAppendEntries_adopt by done.
  assert (Hl : Raft.raftLog (adoptTerm args rf) = l) by apply adoptTerm_raftLog.
  assert (Hwf' : wf_log (Raft.raftLog (adoptTerm args rf)) = true) by (by rewrite Hl).
  assert (Ht : Raft.currentTerm (adoptTerm args rf) = AppendEntriesArgs.Term args)
    by (by apply adoptTerm_currentTerm).
  unfold defer, HandleAppendEntries_log.
  step_by ltac:(by apply onRf_run, onLog_dummyIndex).
  rewrite Hl. fold prev.
  destruct (Z.ltb_spec prev (dummy_of l)); [lia|].
  step.
  step_by ltac:(apply onRf_run, onLog_read, matchLog_run; rewrite ?Hl; done).
  rewrite Hl. fold prev.
  assert (Hm : match term_at l prev with
               | Some t' => AppendEntriesArgs.PrevLogTerm args =? t'
               | None => false
               end = false).
  { destruct (term_at l prev) as [t'|] eqn:E; [|done].
    apply Z.eqb_neq. congruence. }
  rewrite Hm. cbn [negb]. unfold HandleAppendEntries_conflict.
  step. step. cbn [fst]. rewrite Ht.
  step_by ltac:(by apply onRf_run, onLog_lastIndex).
  rewrite Hl. fold prev.
  destruct (Z.gtb_spec prev (last_of l)) as [Hgt|Hle].
  - rewrite add_id by (apply is_int_intro; lia).
    exists (last_of l + 1). split; [reflexivity|]. repeat split; lia.
  - step_by ltac:(by apply onRf_run, onLog_dummyIndex). rewrite Hl.
    destruct (entry_at_in_range l prev Hwf) as [e He]; [lia|].
    step_by ltac:(apply onRf_run, onLog_getEntry; rewrite ?Hl; done).
    destruct (backoff_spec l (Entry.Term e)
                (S (S (Z.to_nat (prev - dummy_of l)))) prev Hwf)
      as (c & Hrun & Hc1 & Hc2 & Hc3 & Hc4 & Hc5); [lia|lia|].
    step_by ltac:(apply onRf_run, onLog_read; rewrite Hl; exact Hrun).
    assert (Hte : term_at l prev = Some (Entry.Term e))
      by (apply term_at_Some; eauto).
    exists c. split; [reflexivity|].
    split; [lia|]. split; [|split; lia].
    intros _. rewrite Hte. done.
Qed.

(** C5, as stated, fails: the fast backup can answer an index that is
    not above the dummy index.  A follower whose log holds only the dummy entry (index 0,
    term 0) rejects a request with [PrevLogIndex = 0] and
    [PrevLogTerm = 1]; the walk starts at index 0, its condition
    [index > dummyIndex + 1] is false at once, and the reply carries
    [ConflictIndex = 0], the dummy index itself. *)
Theorem HandleAppendEntries_conflictIndex_at_dummy :
  AppendEntriesArgs.Term requestAtDummy >= Raft.currentTerm freshFollower /\
  onLog dummyIndex freshFollower = (Val 0, freshFollower) /\
  AppendEntriesArgs.PrevLogIndex requestAtDummy >= 0 /\
  onLog (matchLog (AppendEntriesArgs.PrevLogTerm requestAtDummy)
                  (AppendEntriesArgs.PrevLogIndex requestAtDummy)) freshFollower
    = (Val false, freshFollower) /\
  exists rf',
    HandleAppendEntries requestAtDummy (freshFollower, AppendEntriesReply.zero)
      = (Val tt, (rf', AppendEntriesReply.mk 1 false 0)).
Proof.
  split; [by vm_compute|]. split; [by vm_compute|]. split; [by vm_compute|].
  split; [by vm_compute|]. eexists. vm_compute. reflexivity.
Qed.

(** C5, amended: whenever the handler rejects because the log does not
    match ([args.Term >= currentTerm], [args.PrevLogIndex >= dummyIndex],
    [matchLog] false), it returns with the reply [(term, false)], the log
    untouched, and [ConflictIndex] equal to [lastIndex + 1] if
    [PrevLogIndex > lastIndex], and otherwise to the index reached from
    [PrevLogIndex] by walking backward while the term equals the term at
    [PrevLogIndex] and the index is above [dummyIndex + 1].  That index
    is strictly above the dummy index whenever [PrevLogIndex] is; for
    [PrevLogIndex = dummyIndex] it is the dummy index itself. *)
Theorem HandleAppendEntries_conflictIndex args rf reply :
  wf_log (Raft.raftLog rf) = true ->
  AppendEntriesArgs.Term args >= Raft.currentTerm rf ->
  AppendEntriesArgs.PrevLogIndex args >= dummy_of (Raft.raftLog rf) ->
  GoInt.is_int (AppendEntriesArgs.PrevLogIndex args) ->
  onLog (matchLog (AppendEntriesArgs.PrevLogTerm args)
                  (AppendEntriesArgs.PrevLogIndex args)) rf = (Val false, rf) ->
  exists c rf',
    HandleAppendEntries args (rf, reply) =
      (Val tt, (rf', AppendEntriesReply.mk (AppendEntriesArgs.Term args) false c)) /\
    Raft.raftLog rf' = Raft.raftLog rf /\
    (last_of (Raft.raftLog rf) < AppendEntriesArgs.PrevLogIndex args ->
     c = last_of (Raft.raftLog rf) + 1) /\
    (AppendEntriesArgs.PrevLogIndex args <= last_of (Raft.raftLog rf) ->
     c <= AppendEntriesArgs.PrevLogIndex args /\
     (forall j, c < j <= AppendEntriesArgs.PrevLogIndex args ->
                dummy_of (Raft.raftLog rf) + 1 < j /\
                term_at (Raft.raftLog rf) j
                = term_at (Raft.raftLog rf) (AppendEntriesArgs.PrevLogIndex args)) /\
     (c <= dummy_of (Raft.raftLog rf) + 1 \/
      term_at (Raft.raftLog rf) c
      <> term_at (Raft.raftLog rf) (AppendEntriesArgs.PrevLogIndex args))) /\
    (dummy_of (Raft.raftLog rf) < AppendEntriesArgs.PrevLogIndex args ->
     dummy_of (Raft.raftLog rf) < c) /\
    (AppendEntriesArgs.PrevLogIndex args = dummy_of (Raft.raftLog rf) ->
     c = dummy_of (Raft.raftLog rf)).
Proof.
  intros Hwf Hterm Hprev Hint Hmatch.
  rewrite (onLog_read _ _ _
             (matchLog_run (Raft.raftLog rf) (AppendEntriesArgs.PrevLogTerm args)
                (AppendEntriesArgs.PrevLogIndex args) Hwf ltac:(lia) Hint)) in Hmatch.
  assert (Hne : term_at (Raft.raftLog rf) (AppendEntriesArgs.PrevLogIndex args)
                <> Some (AppendEntriesArgs.PrevLogTerm args)).
  { intros Heq. rewrite Heq, Z.eqb_refl in Hmatch. discriminate. }
  destruct (HandleAppendEntries_mismatch args rf reply Hwf ltac:(lia) ltac:(lia) Hint Hne)
    as (c & Hrun & H1 & H2 & H3 & H4).
  exists c, (snd (persist (adoptTerm args rf))).
  split; [exact Hrun|].
  split; [rewrite persist_run; cbn [snd]; apply adoptTerm_raftLog|].
  split; [exact H1|]. split; [|split; [exact H3|exact H4]].
  intros Hle. destruct (H2 Hle) as (Hc & Hw & Hs).
  split; [exact Hc|]. split; [|exact Hs].
  intros j Hj. split; [|by apply Hw].
  destruct (Z.eq_dec (AppendEntriesArgs.PrevLogIndex args) (dummy_of (Raft.raftLog rf)))
    as [He|He].
  - specialize (H4 He). lia.
  - specialize (H3 ltac:(lia)). lia.
Qed.

Lemma HandleAppendEntries_conflictIndex_witness :
  exists c rf',
    HandleAppendEntries (AppendEntriesArgs.mk 2 1 2 2 [] 0)
      (node3 StateFollower 1 [ent 0 0; ent 1 1; ent 2 1] 0 0 [0; 0; 0] [0; 0; 0],
       AppendEntriesReply.zero) =
      (Val tt, (rf', AppendEntriesReply.mk 2 false c)) /\
    Raft.raftLog rf' = mkLog [ent 0 0; ent 1 1; ent 2 1] /\
    0 < c <= 2.
Proof.
  destruct (HandleAppendEntries_conflictIndex (AppendEntriesArgs.mk 2 1 2 2 [] 0)
              (node3 StateFollower 1 [ent 0 0; ent 1 1; ent 2 1] 0 0 [0; 0; 0] [0; 0; 0])
              AppendEntriesReply.zero)
    as (c & rf' & Hrun & Hlog & _ & H2 & H3 & _);
    [reflexivity | by vm_compute | by vm_compute | by vm_compute | by vm_compute |].
  exists c, rf'. split; [exact Hrun|]. split; [exact Hlog|].
  split.
  - apply H3. by vm_compute.
  - apply H2. by vm_compute.
Defined.

(** ** The submit interface (C10) *)

Lemma conds_ready_lookup rf j :
  conds_ready rf = true -> (j < Raft.peers rf)%nat -> Z.of_nat j <> Raft.me rf ->
  exists c, Raft.tryAppendCond rf !! j = Some (Some c).
Proof.
  unfold conds_ready. rewrite forallb_forall. intros H Hj Hme.
  specialize (H j). rewrite in_seq in H. specialize (H ltac:(lia)).
  apply orb_true_iff in H as [H|H]; [lia|].
  destruct (Raft.tryAppendCond rf !! j) as [[c|]|]; [eauto|done|done].
Qed.

Lemma signalTryAppendCond_run (j : nat) n rf :
  Raft.tryAppendCond rf !! j = Some (Some n) ->
  signalTryAppendCond (Z.of_nat j) rf =
  (Val tt, Raft.set_tryAppendCond (<[j := Some (S n)]> (Raft.tryAppendCond rf)) rf).
Proof.
  intros H. unfold signalTryAppendCond. step.
  step_by ltac:(apply index_run; [lia | by rewrite Nat2Z.id]).
  by rewrite Nat2Z.id.
Qed.

(** The broadcast of [Append] signals the condition of every peer other
    than the node once, and touches nothing else. *)
Lemma BroadcastAppend_loop_Append n : forall a rf,
  (forall j, (a <= j < a + n)%nat -> Z.of_nat j <> Raft.me rf ->
             exists c, Raft.tryAppendCond rf !! j = Some (Some c)) ->
  exists conds,
    BroadcastAppend_loop Append (seq a n) rf
      = (Val tt, Raft.set_tryAppendCond conds rf) /\
    forall j, conds !! j =
              if bool_decide ((a <= j < a + n)%nat /\ Z.of_nat j <> Raft.me rf)
              then fmap S <$> Raft.tryAppendCond rf !! j
              else Raft.tryAppendCond rf !! j.
Proof.
  induction n as [|n IH]; intros a rf Hc.
  - exists (Raft.tryAppendCond rf). split; [by destruct rf|].
    intros j. rewrite bool_decide_eq_false_2; [done|lia].
  - cbn [seq BroadcastAppend_loop]. step.
    destruct (Z.eqb_spec (Z.of_nat a) (Raft.me rf)) as [Hme|Hme].
    + step. destruct (IH (S a) rf) as (conds & Hrun & Hl).
      { intros j Hj. apply Hc. lia. }
      exists conds. split; [done|]. intros j. rewrite Hl.
      destruct (decide (j = a)) as [->|].
      * rewrite !bool_decide_eq_false_2; [done|lia|lia].
      * repeat case_bool_decide; try done; exfalso; lia.
    + destruct (Hc a) as (c & Ha); [lia|done|].
      step_by ltac:(by apply signalTryAppendCond_run).
      set (rf1 := Raft.set_tryAppendCond _ rf).
      destruct (IH (S a) rf1) as (conds & Hrun & Hl).
      { intros j Hj Hj'. subst rf1. simpl.
        rewrite list_lookup_insert_ne by lia. apply Hc; [lia|done]. }
      exists conds. split; [by rewrite Hrun|]. intros j. rewrite Hl.
      subst rf1. simpl.
      destruct (decide (j = a)) as [->|].
      * rewrite list_lookup_insert_eq by (by eapply lookup_lt_Some).
        rewrite bool_decide_eq_false_2 by lia.
        rewrite bool_decide_eq_true_2 by (split; [lia|done]).
        by rewrite Ha.
      * rewrite list_lookup_insert_ne by done.
        repeat case_bool_decide; try done; exfalso; lia.
Qed.

Lemma BroadcastAppend_Append rf :
  conds_ready rf = true ->
  exists conds,
    BroadcastAppend Append rf = (Val tt, Raft.set_tryAppendCond conds rf) /\
    forall j, conds !! j =
              if bool_decide ((j < Raft.peers rf)%nat /\ Z.of_nat j <> Raft.me rf)
              then fmap S <$> Raft.tryAppendCond rf !! j
              else Raft.tryAppendCond rf !! j.
Proof.
  intros Hc. unfold BroadcastAppend. step.
  destruct (BroadcastAppend_loop_Append (Raft.peers rf) 0%nat rf) as (conds & Hrun & Hl).
  - intros j Hj Hme. apply conds_ready_lookup; [done|lia|done].
  - exists conds. split; [done|]. intros j. rewrite Hl.
    repeat case_bool_decide; try done; exfalso; lia.
Qed.

Lemma append_run l ents e :
  last ents = Some e ->
  GoInt.is_int (len (logs l ++ ents) - 1) ->
  append ents l = (Val (Entry.Index e), mkLog (logs l ++ ents)).
Proof.
  intros He Hi. apply is_int_elim in Hi. unfold append.
  assert (Hlen : (0 < length ents)%nat).
  { destruct ents; [done|simpl; lia]. }
  destruct (Z.eqb_spec (len ents) 0) as [H0|_]; [unfold len in H0; lia|].
  step. unfold lastIndex. step. cbn [logs].
  assert (Hlast : (logs l ++ ents) !! Z.to_nat (len (logs l ++ ents) - 1) = Some e).
  { unfold len.
    replace (Z.to_nat (Z.of_nat (length (logs l ++ ents)) - 1))
      with (pred (length (logs l ++ ents))) by lia.
    by rewrite <- last_lookup, last_app, He. }
  rewrite sub_id by (apply is_int_intro; unfold len in *; lia).
  step_by ltac:(apply index_run; [unfold len; rewrite length_app; lia | exact Hlast]).
  reflexivity.
Qed.

Lemma Start_not_leader command rf :
  Raft.state rf <> StateLeader -> Start command rf = (Val (-1, -1, false), rf).
Proof. intros Hst. unfold Start. step. by destruct (Raft.state rf). Qed.

(** C10: [Start] on a node that is not the leader answers
    [(-1, -1, false)] and leaves the node as it was (log, term, vote and
    persisted blob included).  On a leader with a well-formed log it
    appends exactly one entry, with index [lastIndex + 1] and term
    [currentTerm], saves term, vote and the new log, signals the
    replicator of every other peer and answers that index, that term and
    [true]; nothing about replication is awaited or recorded
    ([nextIndex], [matchIndex], [commitIndex] are unchanged).  The
    key-value layer answers [ErrWrongLeader] when [Start] reports that
    the node is not the leader. *)
Theorem Start_submit command rf :
  (Raft.state rf <> StateLeader ->
   Start command rf = (Val (-1, -1, false), rf)) /\
  (Raft.state rf = StateLeader ->
   wf_log (Raft.raftLog rf) = true -> conds_ready rf = true ->
   let index := last_of (Raft.raftLog rf) + 1 in
   let newLog := Entry.mk index (Raft.currentTerm rf) command in
   exists conds,
     Start command rf =
     (Val (index, Raft.currentTerm rf, true),
      Raft.set_tryAppendCond conds
        (Raft.set_persister
           (Some (mkBlob (Raft.currentTerm rf) (Raft.votedFor rf)
                         (logs (Raft.raftLog rf) ++ [newLog])))
           (Raft.set_raftLog (mkLog (logs (Raft.raftLog rf) ++ [newLog])) rf))) /\
     forall j, conds !! j =
               if bool_decide ((j < Raft.peers rf)%nat /\ Z.of_nat j <> Raft.me rf)
               then fmap S <$> Raft.tryAppendCond rf !! j
               else Raft.tryAppendCond rf !! j) /\
  (forall kv args seq outcome,
     KVServer.rf kv = rf -> Raft.state rf <> StateLeader ->
     Command args seq outcome kv =
     (Val (CommandReply.mk ErrWrongLeader EmptyString),
      KVServer.set_waitChannel (delete seq (KVServer.waitChannel kv)) kv)).
Proof.
  split; [|split].
  - apply Start_not_leader.
  - intros Hst Hwf Hc. cbv zeta.
    destruct (wf_log_bounds _ Hwf) as (Hb & Hmax & Hlen).
    unfold Start. step. rewrite Hst. cbn [NodeState_eqb negb].
    step_by ltac:(by apply onLog_lastIndex).
    rewrite add_id by (apply is_int_intro; lia).
    step_by ltac:(apply onLog_run; eapply append_run;
                  [reflexivity
                  |apply is_int_intro; unfold len in *; rewrite length_app; simpl; lia]).
    step.
    set (rf1 := Raft.set_persister _ _).
    destruct (BroadcastAppend_Append rf1) as (conds & Hrun & Hl).
    { exact Hc. }
    step_by ltac:(exact Hrun).
    exists conds. split; [reflexivity|]. exact Hl.
  - intros kv args seq outcome Hrf Hst. subst rf.
    unfold Command. step. unfold onNode.
    step_by ltac:(unfold zoom; cbn [KVServer.rf KVServer.set_waitChannel];
                  rewrite Start_not_leader by done; reflexivity).
    cbn. apply f_equal. destruct kv as [? rfk ? ? ? wc ?].
    unfold KVServer.set_waitChannel, KVServer.set_rf. cbn.
    by rewrite delete_insert_eq.
Qed.

Lemma Start_submit_witness :
  Start None freshFollower = (Val (-1, -1, false), freshFollower) /\
  (exists conds,
     Start None leaderOne =
     (Val (2, 2, true),
      Raft.set_tryAppendCond conds
        (Raft.set_persister (Some (mkBlob 2 (-1) [ent 0 0; ent 1 1; ent 2 2]))
           (Raft.set_raftLog (mkLog [ent 0 0; ent 1 1; ent 2 2]) leaderOne))) /\
     conds !! 0%nat = Some None /\
     conds !! 1%nat = Some (Some 1%nat) /\
     conds !! 2%nat = Some (Some 1%nat)) /\
  Command getArgs 5 TimedOut (kv3 freshFollower (-1)) =
  (Val (CommandReply.mk ErrWrongLeader EmptyString),
   KVServer.set_waitChannel (delete 5 ∅) (kv3 freshFollower (-1))).
Proof.
  split; [|split].
  - apply (Start_submit None freshFollower). vm_compute. discriminate.
  - destruct (Start_submit None leaderOne) as (_ & H & _).
    destruct H as (conds & Hrun & Hl); [reflexivity|reflexivity|reflexivity|].
    exists conds. split; [exact Hrun|].
    rewrite !Hl. vm_compute. repeat split; reflexivity.
  - apply (Start_submit None freshFollower); [reflexivity|].
    vm_compute. discriminate.
Defined.

(** ** Components of the state a computation leaves alone *)

Lemma keeps_ret {S A T} (f : S -> T) (a : A) : keeps f (ret a).
Proof. by intros s. Qed.

Lemma keeps_panic {S A T} (f : S -> T) msg : keeps f (@panic S A msg).
Proof. by intros s. Qed.

Lemma keeps_get {S T} (f : S -> T) : keeps f get.
Proof. by intros s. Qed.

Lemma keeps_gets {S A T} (f : S -> T) (g : S -> A) : keeps f (gets g).
Proof. by intros s. Qed.

Lemma keeps_modify {S T} (f : S -> T) (g : S -> S) :
  (forall s, f (g s) = f s) -> keeps f (modify g).
Proof. intros H s. apply H. Qed.

Lemma keeps_bind {S A B T} (f : S -> T) (m : M S A) (k : A -> M S B) :
  keeps f m -> (forall a, keeps f (k a)) -> keeps f (bind m k).
Proof.
  intros Hm Hk s. unfold bind. specialize (Hm s).
  destruct (m s) as [[a|msg] s']; simpl in *; [|done].
  by rewrite Hk.
Qed.

Lemma keeps_zoom {S U A T} (f : S -> T) (proj : S -> U) (upd : U -> S -> S)
    (m : M U A) :
  (forall u s, f (upd u s) = f s) -> keeps f (zoom proj upd m).
Proof. intros H s. unfold zoom. destruct (m (proj s)). apply H. Qed.

Lemma keeps_index {S A T} (f : S -> T) (l : list A) i : keeps f (index l i).
Proof.
  intros s. unfold index. destruct (_ || _); [done|]. by destruct (l !! _).
Qed.

Lemma keeps_store {S A T} (f : S -> T) (l : list A) i v : keeps f (store l i v).
Proof. intros s. unfold store. by destruct (_ || _). Qed.

Ltac keeps_step :=
  first
    [ apply keeps_ret | apply keeps_panic | apply keeps_get | apply keeps_gets
    | apply keeps_index | apply keeps_store
    | apply keeps_modify; intros; reflexivity
    | apply keeps_zoom; intros; reflexivity
    | apply keeps_bind; [|intros]
    | match goal with
      | |- keeps _ (if ?b then _ else _) => destruct b
      | |- keeps _ (match ?x with _ => _ end) => destruct x
      end ].

Ltac keeps_tac := repeat keeps_step.

Lemma countMatch_keeps {T} (f : Raft.t -> T) i js : forall num,
  keeps f (countMatch i js num).
Proof. induction js as [|j js IH]; intros num; cbn [countMatch]; keeps_tac; apply IH. Qed.

Lemma advanceLoop_keeps_indices fuel : forall i, keeps indices (advanceLoop fuel i).
Proof.
  induction fuel as [|fuel IH]; intros i; cbn [advanceLoop]; keeps_tac;
    try apply countMatch_keeps; try apply IH.
Qed.

Lemma advanceCommitIndexForLeader_keeps_indices :
  keeps indices advanceCommitIndexForLeader.
Proof.
  unfold advanceCommitIndexForLeader.
  repeat first [apply advanceLoop_keeps_indices | keeps_step].
Qed.

Lemma signalTryAppendCond_keeps_indices peer : keeps indices (signalTryAppendCond peer).
Proof. unfold signalTryAppendCond; keeps_tac. Qed.

(** ** The reply processor (C4) *)

Lemma bind_assoc {S A B C} (m : M S A) (k : A -> M S B) (k' : B -> M S C) s :
  bind (bind m k) k' s = bind m (fun a => bind (k a) k') s.
Proof. unfold bind. by destruct (m s) as [[a|msg] s']. Qed.

Lemma store_run {S A} (l : list A) (i : Z) (v x : A) (s : S) :
  0 <= i -> l !! Z.to_nat i = Some x ->
  store l i v s = (Val (<[Z.to_nat i := v]> l), s).
Proof.
  intros Hi Hx. unfold store, len.
  pose proof (lookup_lt_Some _ _ _ Hx).
  destruct (Z.ltb_spec i 0); [lia|].
  destruct (Z.leb_spec (Z.of_nat (length l)) i); [lia|]. reflexivity.
Qed.

Lemma NodeState_eqb_eq a b : NodeState_eqb a b = true <-> a = b.
Proof. destruct a, b; simpl; split; congruence. Qed.

(** C4: a reply whose term is not ahead and that fails the staleness
    guard changes nothing at all on the node; and a reply that reports
    success never lowers [nextIndex[peer]] or [matchIndex[peer]],
    whatever way its processing ends. *)
Theorem processAppendEntriesReply_stale_guard peer args reply rf :
  AppendEntriesReply.Term reply <= Raft.currentTerm rf ->
  (stale peer args reply rf ->
   processAppendEntriesReply peer args reply rf = (Val tt, rf)) /\
  (AppendEntriesReply.Success reply = true ->
   forall next mtch,
     0 <= peer ->
     Raft.nextIndex rf !! Z.to_nat peer = Some next ->
     Raft.matchIndex rf !! Z.to_nat peer = Some mtch ->
     let rf' := snd (processAppendEntriesReply peer args reply rf) in
     exists next' mtch',
       Raft.nextIndex rf' !! Z.to_nat peer = Some next' /\ next <= next' /\
       Raft.matchIndex rf' !! Z.to_nat peer = Some mtch' /\ mtch <= mtch').
Proof.
  intros Hterm. split.
  - intros Hstale. unfold processAppendEntriesReply. step.
    destruct (Z.gtb_spec (AppendEntriesReply.Term reply) (Raft.currentTerm rf)); [lia|].
    erewrite (bind_val _ _ _ false rf); [reflexivity|].
    destruct (Z.eqb_spec (AppendEntriesReply.Term reply) (Raft.currentTerm rf));
      [|reflexivity].
    destruct (NodeState_eqb (Raft.state rf) StateLeader) eqn:Hst; [|reflexivity].
    apply NodeState_eqb_eq in Hst.
    destruct (Z.eqb_spec (AppendEntriesArgs.Term args) (Raft.currentTerm rf));
      [|reflexivity].
    destruct Hstale as [?|[?|[?|(next & Hp & Hn & Hne)]]]; try done.
    cbn [andb]. step_by ltac:(by apply index_run).
    by destruct (Z.eqb_spec (AppendEntriesArgs.PrevLogIndex args) (GoInt.sub next 1)).
  - intros Hs next mtch Hp Hn Hm. cbv zeta.
    unfold processAppendEntriesReply. step.
    destruct (Z.gtb_spec (AppendEntriesReply.Term reply) (Raft.currentTerm rf)); [lia|].
    destruct ((AppendEntriesReply.Term reply =? Raft.currentTerm rf)
              && NodeState_eqb (Raft.state rf) StateLeader
              && (AppendEntriesArgs.Term args =? Raft.currentTerm rf)).
    2:{ step. simpl. eauto 10 with lia. }
    step_by ltac:(step_by ltac:(by apply index_run); reflexivity).
    destruct (AppendEntriesArgs.PrevLogIndex args =? GoInt.sub next 1).
    2:{ simpl. eauto 10 with lia. }
    rewrite Hs.
    set (newNext := GoInt.add (GoInt.add _ _) 1).
    set (newMatch := GoInt.add _ _).
    rewrite !bind_assoc. step_by ltac:(by apply index_run).
    rewrite !bind_assoc.
    (* the node after the two updates *)
    set (rf1 := if newNext >? next
                then Raft.set_nextIndex (<[Z.to_nat peer := newNext]> (Raft.nextIndex rf)) rf
                else rf).
    erewrite (bind_val _ _ _ tt rf1).
    2:{ subst rf1. destruct (newNext >? next); [|reflexivity].
        unfold bind. by erewrite store_run. }
    rewrite !bind_assoc.
    assert (Hm1 : Raft.matchIndex rf1 = Raft.matchIndex rf)
      by (subst rf1; by destruct (newNext >? next)).
    step_by ltac:(by apply index_run).
    rewrite !bind_assoc.
    set (rf2 := if newMatch >? mtch
                then Raft.set_matchIndex (<[Z.to_nat peer := newMatch]> (Raft.matchIndex rf)) rf1
                else rf1).
    erewrite (bind_val _ _ _ tt rf2).
    2:{ subst rf2. destruct (newMatch >? mtch); [|reflexivity].
        unfold bind. by erewrite store_run. }
    match goal with
    | |- context [snd (?m rf2)] =>
        assert (Hk : indices (snd (m rf2)) = indices rf2)
    end.
    { apply (keeps_bind indices).
      - apply advanceCommitIndexForLeader_keeps_indices.
      - intros _. keeps_tac; apply signalTryAppendCond_keeps_indices. }
    unfold indices in Hk. injection Hk as -> ->.
    assert (Hn2 : exists next', Raft.nextIndex rf2 !! Z.to_nat peer = Some next'
                                /\ next <= next').
    { subst rf2 rf1.
      destruct (Z.gtb_spec newNext next), (newMatch >? mtch); simpl;
        rewrite ?list_lookup_insert_eq by (by eapply lookup_lt_Some);
        eauto with lia. }
    assert (Hm2 : exists mtch', Raft.matchIndex rf2 !! Z.to_nat peer = Some mtch'
                                /\ mtch <= mtch').
    { subst rf2. destruct (Z.gtb_spec newMatch mtch); simpl;
        rewrite ?list_lookup_insert_eq by (by eapply lookup_lt_Some);
        rewrite ?Hm1; eauto with lia. }
    destruct Hn2 as (next' & ? & ?), Hm2 as (mtch' & ? & ?). eauto 10.
Qed.

Lemma processAppendEntriesReply_stale_guard_witness :
  processAppendEntriesReply 1 staleArgs successReply leaderTwo = (Val tt, leaderTwo) /\
  (let rf' := snd (processAppendEntriesReply 2 freshArgs successReply leaderTwo) in
   exists next' mtch',
     Raft.nextIndex rf' !! Z.to_nat 2 = Some next' /\ 1 <= next' /\
     Raft.matchIndex rf' !! Z.to_nat 2 = Some mtch' /\ 0 <= mtch').
Proof.
  split.
  - apply (processAppendEntriesReply_stale_guard 1 staleArgs successReply leaderTwo).
    + vm_compute. discriminate.
    + right. right. right. exists 3. vm_compute. repeat split; discriminate.
  - apply (processAppendEntriesReply_stale_guard 2 freshArgs successReply leaderTwo).
    + vm_compute. discriminate.
    + reflexivity.
    + lia.
    + reflexivity.
    + reflexivity.
Defined.

(** ** Commit advancement of the leader (C1) *)

Lemma commit_ready_inv rf :
  commit_ready rf = true ->
  wf_log (Raft.raftLog rf) = true /\
  dummy_of (Raft.raftLog rf) <= Raft.commitIndex rf /\
  (Raft.peers rf <= length (Raft.matchIndex rf))%nat /\
  Z.of_nat (Raft.peers rf) < 9223372036854775807.
Proof.
  unfold commit_ready. rewrite !andb_true_iff.
  intros [[[H1 H2] H3] H4].
  apply Z.leb_le in H2. apply Nat.leb_le in H3. apply Z.ltb_lt in H4.
  unfold GoInt.max_int in H4. repeat split; try done; lia.
Qed.

Lemma countMatch_run rf i js : forall num,
  (forall j, j ∈ js -> (j < length (Raft.matchIndex rf))%nat) ->
  0 <= num -> num + Z.of_nat (length js) <= 9223372036854775807 ->
  countMatch i js num rf = (Val (num + Z.of_nat (holders rf i js)), rf).
Proof.
  induction js as [|j js IH]; intros num Hjs Hn Hmax.
  - unfold holders. simpl. by rewrite Z.add_0_r.
  - cbn [countMatch]. step.
    assert (Hhit :
      (if negb (Z.of_nat j =? Raft.me rf)
       then m <- index (Raft.matchIndex rf) (Z.of_nat j);; ret (m >=? i)
       else ret false) rf = (Val (holds rf i j), rf)).
    { unfold holds. destruct (negb _); [|reflexivity].
      destruct (lookup_lt_is_Some_2 (Raft.matchIndex rf) j) as [m Hm].
      { apply Hjs. by left. }
      step_by ltac:(apply index_run; [lia | by rewrite Nat2Z.id]).
      rewrite Hm. simpl. by rewrite Z.geb_leb. }
    step_by ltac:(exact Hhit).
    simpl length in Hmax.
    rewrite IH.
    + unfold holders. cbn [List.filter].
      destruct (holds rf i j); simpl length.
      * rewrite add_id by (apply is_int_intro; lia). do 2 f_equal. lia.
      * reflexivity.
    + intros j' Hj'. apply Hjs. by right.
    + destruct (holds rf i j); [rewrite add_id by (apply is_int_intro; lia)|]; lia.
    + destruct (holds rf i j); [rewrite add_id by (apply is_int_intro; lia)|]; lia.
Qed.

Lemma holders_le rf i js : (holders rf i js <= length js)%nat.
Proof. unfold holders. apply List.filter_length_le. Qed.

(** The scan from [i] downwards commits the largest index of
    [(commitIndex, i]] that can be committed, and changes nothing when
    there is none. *)
Lemma advanceLoop_spec rf fuel : forall i,
  commit_ready rf = true ->
  Raft.commitIndex rf <= i <= last_of (Raft.raftLog rf) ->
  (Z.to_nat (i - Raft.commitIndex rf) < fuel)%nat ->
  (exists j, j <= i /\ committable rf j /\
             (forall j', j < j' <= i -> ~ committable rf j') /\
             advanceLoop fuel i rf = (Val tt, committed j rf))
  \/ ((forall j, j <= i -> ~ committable rf j) /\
      advanceLoop fuel i rf = (Val tt, rf)).
Proof.
  induction fuel as [|fuel IH]; intros i Hready Hi Hf; [lia|].
  destruct (commit_ready_inv _ Hready) as (Hwf & Hc & Hlen & Hpeers).
  destruct (wf_log_bounds _ Hwf) as (Hb & Hmax & _).
  cbn [advanceLoop]. step.
  destruct (Z.gtb_spec i (Raft.commitIndex rf)) as [Hgt|Hle].
  2:{ right. split; [|reflexivity]. intros j Hj [Hr _]. lia. }
  step_by ltac:(apply countMatch_run;
                [intros j Hj%elem_of_seq; lia | lia | rewrite length_seq; lia]).
  pose proof (holders_le rf i (seq 0 (Raft.peers rf))) as Hh.
  rewrite length_seq in Hh.
  rewrite Z.add_0_l, add_id by (apply is_int_intro; lia).
  destruct (entry_at_in_range (Raft.raftLog rf) i Hwf) as [e He]; [lia|].
  assert (Hmaj : (Z.of_nat (holders rf i (seq 0 (Raft.peers rf))) + 1
                  >? Z.of_nat (Raft.peers rf) ÷ 2) = true <-> majority rf i).
  { unfold majority. rewrite Z.quot_div_nonneg by lia.
    pose proof (Z.div_mod (Z.of_nat (Raft.peers rf)) 2 ltac:(lia)).
    pose proof (Z.mod_pos_bound (Z.of_nat (Raft.peers rf)) 2 ltac:(lia)).
    destruct (Z.gtb_spec (Z.of_nat (holders rf i (seq 0 (Raft.peers rf))) + 1)
                (Z.of_nat (Raft.peers rf) / 2)); split; intros; try done; lia. }
  assert (Hok :
    (if Z.of_nat (holders rf i (seq 0 (Raft.peers rf))) + 1
        >? Z.of_nat (Raft.peers rf) ÷ 2
     then e0 <- onLog (getEntry i);; ret (Entry.Term e0 =? Raft.currentTerm rf)
     else ret false) rf
    = (Val (bool_decide (committable rf i)), rf)).
  { destruct (_ >? _) eqn:Hq.
    - step_by ltac:(by apply onLog_getEntry).
      unfold ret. do 2 f_equal. symmetry.
      destruct (Z.eqb_spec (Entry.Term e) (Raft.currentTerm rf)) as [Ht|Ht].
      + apply bool_decide_eq_true_2. split; [lia|]. split; [by apply Hmaj|].
        apply term_at_Some. eauto.
      + apply bool_decide_eq_false_2. intros (_ & _ & (e' & He' & Ht')%term_at_Some).
        congruence.
    - unfold ret. do 2 f_equal. symmetry.
      apply bool_decide_eq_false_2. intros (_ & Hm & _).
      apply Hmaj in Hm. congruence. }
  step_by ltac:(exact Hok).
  case_bool_decide as Hcm.
  - left. exists i. split; [lia|]. split; [done|]. split; [intros; lia|].
    step. reflexivity.
  - rewrite sub_id by (apply is_int_intro; lia).
    destruct (IH (i - 1)) as [(j & Hj & Hcj & Hmx & Hrun)|[Hnone Hrun]];
      [done|lia|lia| |].
    + left. exists j. split; [lia|]. split; [done|]. split; [|done].
      intros j' Hj'. destruct (Z.eq_dec j' i) as [->|]; [done|apply Hmx; lia].
    + right. split; [|done]. intros j Hj.
      destruct (Z.eq_dec j i) as [->|]; [done|apply Hnone; lia].
Qed.

(** C1: on a leader, [advanceCommitIndexForLeader] sets [commitIndex] to
    the largest index [i] with [commitIndex < i <= lastIndex] that a
    strict majority of the cluster holds (the leader and the peers with
    [matchIndex >= i]) and whose entry is of the current term, and signals
    the applier once; when there is no such index, or the node is not the
    leader, the node is unchanged.  In particular, while no entry above
    the commit index is of the current term, nothing is committed,
    however many peers hold those entries. *)
Theorem advanceCommitIndexForLeader_commits rf :
  commit_ready rf = true ->
  (Raft.state rf = StateLeader -> (exists i, committable rf i) ->
   exists i,
     committable rf i /\ (forall i', committable rf i' -> i' <= i) /\
     advanceCommitIndexForLeader rf = (Val tt, committed i rf)) /\
  (Raft.state rf <> StateLeader \/ (forall i, ~ committable rf i) ->
   advanceCommitIndexForLeader rf = (Val tt, rf)) /\
  ((forall i, Raft.commitIndex rf < i <= last_of (Raft.raftLog rf) ->
              term_at (Raft.raftLog rf) i <> Some (Raft.currentTerm rf)) ->
   advanceCommitIndexForLeader rf = (Val tt, rf)).
Proof.
  intros Hready.
  destruct (commit_ready_inv _ Hready) as (Hwf & Hc & Hlen & Hpeers).
  assert (Hrun : Raft.state rf = StateLeader ->
    advanceCommitIndexForLeader rf =
    advanceLoop (S (Z.to_nat (last_of (Raft.raftLog rf) - Raft.commitIndex rf)))
      (last_of (Raft.raftLog rf)) rf).
  { intros Hst. unfold advanceCommitIndexForLeader. step. rewrite Hst.
    cbn [NodeState_eqb negb]. step_by ltac:(by apply onLog_lastIndex). reflexivity. }
  assert (Hnone : Raft.state rf <> StateLeader \/ (forall i, ~ committable rf i) ->
                  advanceCommitIndexForLeader rf = (Val tt, rf)).
  { intros [Hst|Hno].
    - unfold advanceCommitIndexForLeader. step. by destruct (Raft.state rf).
    - destruct (decide (Raft.state rf = StateLeader)) as [Hst|Hst].
      2:{ unfold advanceCommitIndexForLeader. step. by destruct (Raft.state rf). }
      rewrite Hrun by done.
      destruct (Z.le_gt_cases (Raft.commitIndex rf) (last_of (Raft.raftLog rf)))
        as [Hle|Hgt].
      + destruct (advanceLoop_spec rf
                    (S (Z.to_nat (last_of (Raft.raftLog rf) - Raft.commitIndex rf)))
                    (last_of (Raft.raftLog rf)))
          as [(j & _ & Hcj & _)|[_ Hr]]; [done|lia|lia| |done].
        by destruct (Hno j).
      + cbn [advanceLoop]. step.
        by destruct (Z.gtb_spec (last_of (Raft.raftLog rf)) (Raft.commitIndex rf));
          [lia|].
  }
  split; [|split].
  - intros Hst (i0 & Hi0). rewrite Hrun by done.
    pose proof Hi0 as ((Hlo & Hhi) & _).
    destruct (advanceLoop_spec rf
                (S (Z.to_nat (last_of (Raft.raftLog rf) - Raft.commitIndex rf)))
                (last_of (Raft.raftLog rf)))
      as [(j & Hj & Hcj & Hmx & Hr)|[Hno _]]; [done|lia|lia| |].
    + exists j. split; [done|]. split; [|done].
      intros i' Hi'. destruct (Z.le_gt_cases i' j) as [|Hgt]; [done|].
      pose proof Hi' as ((_ & Hhi') & _). destruct (Hmx i'); [lia|done].
    + destruct (Hno i0); [lia|done].
  - exact Hnone.
  - intros Hold. apply Hnone. right. intros i (Hr & _ & Ht). by apply (Hold i).
Qed.

Lemma advanceCommitIndexForLeader_commits_witness :
  (exists i,
     committable leaderNewTerm i /\ (forall i', committable leaderNewTerm i' -> i' <= i) /\
     advanceCommitIndexForLeader leaderNewTerm = (Val tt, committed i leaderNewTerm)) /\
  advanceCommitIndexForLeader leaderOldTerm = (Val tt, leaderOldTerm).
Proof.
  split.
  - apply (advanceCommitIndexForLeader_commits leaderNewTerm);
      [reflexivity | reflexivity |].
    exists 3. apply (bool_decide_eq_true_1 (committable leaderNewTerm 3)).
    vm_compute. reflexivity.
  - apply (advanceCommitIndexForLeader_commits leaderOldTerm); [reflexivity|].
    intros i Hi. unfold leaderOldTerm, node3, last_of, dummy_of, len, ent in Hi.
    simpl in Hi.
    assert (Hcases : i = 1 \/ i = 2) by lia.
    destruct Hcases as [->| ->]; vm_compute; discriminate.
Defined.

(** ** The conflict scan of the receiver (C2) *)

Lemma filter_lt_contiguous d es i :
  contiguous_from d es = true ->
  List.filter (fun e => Entry.Index e <? i) es = take (Z.to_nat (i - d)) es.
Proof.
  revert d. induction es as [|e es IH]; intros d Hc.
  - by rewrite take_nil.
  - simpl in Hc. apply andb_true_iff in Hc as [He%Z.eqb_eq Hc].
    cbn [List.filter]. rewrite (IH _ Hc), He.
    destruct (Z.ltb_spec d i).
    + replace (Z.to_nat (i - d)) with (S (Z.to_nat (i - (d + 1)))) by lia.
      reflexivity.
    + replace (Z.to_nat (i - d)) with 0%nat by lia.
      replace (Z.to_nat (i - (d + 1))) with 0%nat by lia.
      by rewrite !take_0.
Qed.

Lemma wf_log_contiguous l :
  wf_log l = true -> contiguous_from (dummy_of l) (logs l) = true.
Proof.
  unfold wf_log, dummy_of. destruct (logs l) as [|e0 rest]; [done|].
  intros H. apply andb_true_iff in H as [_ Hc]. simpl. by rewrite Z.eqb_refl.
Qed.

Lemma truncate_at_take l high :
  wf_log l = true ->
  truncate_at l high = take (Z.to_nat (high - dummy_of l)) (logs l).
Proof. intros H. apply filter_lt_contiguous. by apply wf_log_contiguous. Qed.

(** A log put together from a well-formed one, cut after a stored index,
    and entries that continue it, is well formed. *)
Lemma wf_log_splice l p ents :
  wf_log l = true -> dummy_of l <= p <= last_of l ->
  contiguous_from (p + 1) ents = true ->
  p + len ents < 9223372036854775807 ->
  wf_log (mkLog (take (Z.to_nat (p + 1 - dummy_of l)) (logs l) ++ ents)) = true /\
  dummy_of (mkLog (take (Z.to_nat (p + 1 - dummy_of l)) (logs l) ++ ents)) = dummy_of l /\
  last_of (mkLog (take (Z.to_nat (p + 1 - dummy_of l)) (logs l) ++ ents)) = p + len ents.
Proof.
  intros Hwf Hp Hc Hmax.
  destruct (wf_log_bounds _ Hwf) as (Hb & Hm & Hlen).
  pose proof (wf_log_contiguous _ Hwf) as Hcl.
  unfold wf_log, last_of, dummy_of in *. cbn [logs].
  destruct (logs l) as [|e0 rest] eqn:El; [done|].
  replace (Z.to_nat (p + 1 - Entry.Index e0)) with (S (Z.to_nat (p - Entry.Index e0)))
    by lia.
  cbn [take app]. unfold len in *. simpl length in *. cbn beta iota in *.
  assert (Hlt : length (take (Z.to_nat (p - Entry.Index e0)) rest)
                = Z.to_nat (p - Entry.Index e0)).
  { rewrite length_take. lia. }
  rewrite length_app, Hlt.
  split; [|split; [done|lia]].
  apply andb_true_iff in Hwf as [Hwf Hcr]. apply andb_true_iff in Hwf as [H0 _].
  rewrite H0. cbn [andb]. apply andb_true_iff. split.
  - apply is_intb_spec, is_int_intro. lia.
  - rewrite contiguous_from_app. apply andb_true_iff. split.
    + by apply contiguous_from_take.
    + unfold len. rewrite Hlt.
      replace (Entry.Index e0 + 1 + Z.of_nat (Z.to_nat (p - Entry.Index e0)))
        with (p + 1) by lia.
      done.
Qed.

Lemma trunc_run l high :
  wf_log l = true -> dummy_of l < high <= last_of l + 1 ->
  trunc high l = (Val (high - 1), mkLog (take (Z.to_nat (high - dummy_of l)) (logs l))).
Proof.
  intros Hwf Hh. destruct (wf_log_bounds _ Hwf) as (Hb & Hm & Hlen).
  unfold trunc, sliceTo. rewrite bind_assoc.
  step_by ltac:(apply convertIndex_run; [done | lia | apply is_int_intro; lia]).
  rewrite bind_assoc. step.
  erewrite (bind_val _ _ _ (take (Z.to_nat (high - dummy_of l)) (logs l)) l).
  2:{ unfold slice_expr.
      destruct (Z.ltb_spec 0 0); [lia|].
      destruct (Z.ltb_spec (high - dummy_of l) 0); [lia|].
      destruct (Z.ltb_spec (len (logs l)) (high - dummy_of l)); [lia|].
      cbn [orb]. unfold ret. rewrite drop_0. do 3 f_equal. lia. }
  step.
  destruct (wf_log_splice l (high - 1) [] Hwf) as (Hwf' & Hd' & Hl');
    [lia|done|unfold len; simpl; lia|].
  rewrite app_nil_r in Hwf', Hl'.
  replace (high - 1 + 1) with high in * by lia.
  rewrite (lastIndex_run _ Hwf'), Hl'. unfold len. simpl. do 2 f_equal. lia.
Qed.

Lemma append_wf l ents :
  ents <> [] -> wf_log (mkLog (logs l ++ ents)) = true ->
  append ents l =
  (Val (last_of (mkLog (logs l ++ ents))), mkLog (logs l ++ ents)).
Proof.
  intros Hne Hwf. unfold append.
  destruct (Z.eqb_spec (len ents) 0) as [H0|_].
  { destruct ents; [done|]. unfold len in H0. simpl in H0. lia. }
  step. by apply lastIndex_run.
Qed.

Lemma scanEntries_run l ents : forall p,
  wf_log l = true -> dummy_of l <= p <= last_of l ->
  contiguous_from (p + 1) ents = true ->
  p + len ents < 9223372036854775807 ->
  scanEntries ents l = (Val tt, mkLog (conflict_scan l ents)).
Proof.
  induction ents as [|e rest IH]; intros p Hwf Hp Hc Hmax.
  - cbn. by destruct l.
  - destruct (wf_log_bounds _ Hwf) as (Hb & Hm & Hlen).
    pose proof Hc as Hc'. simpl in Hc'.
    apply andb_true_iff in Hc' as [He%Z.eqb_eq Hcr].
    assert (Hlr : len (e :: rest) = len rest + 1) by (unfold len; simpl length; lia).
    assert (0 <= len rest) by (unfold len; lia).
    cbn [scanEntries conflict_scan]. rewrite He.
    step_by ltac:(apply convertIndex_run; [done | lia | apply is_int_intro; lia]).
    step.
    (* the run once the conflict is found *)
    assert (Hcut : (trunc (p + 1);;; append (e :: rest);;; ret tt) l
                   = (Val tt, mkLog (truncate_at l (p + 1) ++ e :: rest))).
    { step_by ltac:(apply trunc_run; [done | lia]).
      destruct (wf_log_splice l p (e :: rest) Hwf) as (Hwf' & _ & _);
        [lia|done|lia|].
      rewrite truncate_at_take by done.
      erewrite bind_val; [reflexivity|].
      by apply append_wf. }
    destruct (Z.geb_spec (p + 1 - dummy_of l) (len (logs l))) as [Hge|Hlt].
    + step. destruct (Z.ltb_spec (last_of l) (p + 1)); [|lia]. exact Hcut.
    + destruct (entry_at_in_range l (p + 1) Hwf) as [e' He']; [lia|].
      step_by ltac:(step_by ltac:(by apply getEntry_run); reflexivity).
      destruct (Z.ltb_spec (last_of l) (p + 1)); [lia|]. cbn [orb].
      assert (Hdec : bool_decide (term_at l (p + 1) = Some (Entry.Term e))
                     = (Entry.Term e' =? Entry.Term e)).
      { unfold term_at. rewrite He'. simpl.
        destruct (Z.eqb_spec (Entry.Term e') (Entry.Term e)) as [->|Hne].
        - by apply bool_decide_eq_true_2.
        - apply bool_decide_eq_false_2. congruence. }
      rewrite Hdec. destruct (Entry.Term e' =? Entry.Term e); cbn [negb].
      * apply (IH (p + 1)); [done|lia|done|lia].
      * exact Hcut.
Qed.

Lemma conflict_scan_all_present l ents :
  wf_log l = true ->
  (forall e, e ∈ ents -> term_at l (Entry.Index e) = Some (Entry.Term e)) ->
  conflict_scan l ents = logs l.
Proof.
  intros Hwf. induction ents as [|e rest IH]; intros Hall; [done|].
  cbn [conflict_scan].
  assert (He : term_at l (Entry.Index e) = Some (Entry.Term e))
    by (apply Hall; by left).
  pose proof He as (e' & He' & _)%term_at_Some.
  destruct (entry_at_Some _ _ _ Hwf He') as (Hr & _).
  destruct (Z.ltb_spec (last_of l) (Entry.Index e)); [lia|].
  rewrite bool_decide_eq_true_2 by done. cbn [orb negb].
  apply IH. intros e0 He0. apply Hall. by right.
Qed.

Lemma conflict_scan_first_conflict l pre e post :
  wf_log l = true ->
  (forall e', e' ∈ pre -> term_at l (Entry.Index e') = Some (Entry.Term e')) ->
  term_at l (Entry.Index e) <> Some (Entry.Term e) ->
  conflict_scan l (pre ++ e :: post) = truncate_at l (Entry.Index e) ++ e :: post.
Proof.
  intros Hwf. induction pre as [|e0 pre IH]; intros Hall Hne.
  - cbn [app conflict_scan]. rewrite bool_decide_eq_false_2 by done.
    by rewrite orb_true_r.
  - cbn [app conflict_scan].
    assert (He : term_at l (Entry.Index e0) = Some (Entry.Term e0))
      by (apply Hall; by left).
    pose proof He as (e' & He' & _)%term_at_Some.
    destruct (entry_at_Some _ _ _ Hwf He') as (Hr & _).
    destruct (Z.ltb_spec (last_of l) (Entry.Index e0)); [lia|].
    rewrite bool_decide_eq_true_2 by done. cbn [orb negb].
    apply IH; [|done]. intros e1 He1. apply Hall. by right.
Qed.

(** The scan keeps the log well formed. *)
Lemma conflict_scan_wf l ents : forall p,
  wf_log l = true -> dummy_of l <= p <= last_of l ->
  contiguous_from (p + 1) ents = true ->
  p + len ents < 9223372036854775807 ->
  wf_log (mkLog (conflict_scan l ents)) = true.
Proof.
  induction ents as [|e rest IH]; intros p Hwf Hp Hc Hmax.
  - cbn. by destruct l.
  - pose proof Hc as Hc'. simpl in Hc'.
    apply andb_true_iff in Hc' as [He%Z.eqb_eq Hcr].
    assert (Hlr : len (e :: rest) = len rest + 1) by (unfold len; simpl length; lia).
    cbn [conflict_scan].
    destruct (_ || _) eqn:Hcf.
    + rewrite truncate_at_take, He by done.
      by apply (wf_log_splice l p (e :: rest) Hwf).
    + apply orb_false_iff in Hcf as [Hlt%Z.ltb_ge _].
      apply (IH (p + 1)); [done|lia|done|lia].
Qed.

(** C2: when the term of the request is not behind and the log matches
    at [(PrevLogTerm, PrevLogIndex)], the handler leaves the log that the
    per-entry scan describes: at the first entry that is beyond the last
    index or differs in term from the stored one, the log is cut at that
    index and that entry and the following ones are appended; when every
    entry is stored with its term, the log is unchanged.  The reply is
    success with the current term.  The worked scenario is the second
    part. *)
Theorem HandleAppendEntries_conflict_scan :
  (forall args rf reply,
     wf_log (Raft.raftLog rf) = true ->
     Raft.currentTerm rf <= AppendEntriesArgs.Term args ->
     term_at (Raft.raftLog rf) (AppendEntriesArgs.PrevLogIndex args)
       = Some (AppendEntriesArgs.PrevLogTerm args) ->
     contiguous_from (AppendEntriesArgs.PrevLogIndex args + 1)
       (AppendEntriesArgs.Entries args) = true ->
     AppendEntriesArgs.PrevLogIndex args + len (AppendEntriesArgs.Entries args)
       < GoInt.max_int ->
     let l := Raft.raftLog rf in
     let ents := AppendEntriesArgs.Entries args in
     exists rf',
       HandleAppendEntries args (rf, reply) =
       (Val tt, (rf', AppendEntriesReply.set_Success true
                        (AppendEntriesReply.set_Term (Raft.currentTerm rf') reply))) /\
       Raft.currentTerm rf' = AppendEntriesArgs.Term args /\
       logs (Raft.raftLog rf') = conflict_scan l ents /\
       wf_log (Raft.raftLog rf') = true /\
       ((forall e, e ∈ ents -> term_at l (Entry.Index e) = Some (Entry.Term e)) ->
        Raft.raftLog rf' = l) /\
       (forall pre e post,
          ents = pre ++ e :: post ->
          (forall e', e' ∈ pre -> term_at l (Entry.Index e') = Some (Entry.Term e')) ->
          term_at l (Entry.Index e) <> Some (Entry.Term e) ->
          logs (Raft.raftLog rf') =
          take (Z.to_nat (Entry.Index e - dummy_of l)) (logs l) ++ e :: post)) /\
  (forall cur term t1 t2 t3,
     cur <= term ->
     exists rf',
       HandleAppendEntries (conflictingArgs term t1 t3)
         (node3 StateFollower cur (followerLog t1 t2) 0 0 [0; 0; 0] [0; 0; 0],
          AppendEntriesReply.zero)
       = (Val tt, (rf', AppendEntriesReply.mk term true 0)) /\
       Raft.currentTerm rf' = term /\
       logs (Raft.raftLog rf') = [ent 0 0; ent 1 t1; ent 2 t1; ent 3 t3; ent 4 t3]).
Proof.
  assert (Hgen : forall args rf reply,
     wf_log (Raft.raftLog rf) = true ->
     Raft.currentTerm rf <= AppendEntriesArgs.Term args ->
     term_at (Raft.raftLog rf) (AppendEntriesArgs.PrevLogIndex args)
       = Some (AppendEntriesArgs.PrevLogTerm args) ->
     contiguous_from (AppendEntriesArgs.PrevLogIndex args + 1)
       (AppendEntriesArgs.Entries args) = true ->
     AppendEntriesArgs.PrevLogIndex args + len (AppendEntriesArgs.Entries args)
       < GoInt.max_int ->
     exists rf',
       HandleAppendEntries args (rf, reply) =
       (Val tt, (rf', AppendEntriesReply.set_Success true
                        (AppendEntriesReply.set_Term (Raft.currentTerm rf') reply))) /\
       Raft.currentTerm rf' = AppendEntriesArgs.Term args /\
       logs (Raft.raftLog rf')
         = conflict_scan (Raft.raftLog rf) (AppendEntriesArgs.Entries args) /\
       wf_log (Raft.raftLog rf') = true).
  { intros args rf reply Hwf Hterm Hmatch Hc Hmax.
    unfold GoInt.max_int in Hmax.
    set (l := Raft.raftLog rf) in *.
    set (prev := AppendEntriesArgs.PrevLogIndex args) in *.
    set (ents := AppendEntriesArgs.Entries args) in *.
    pose proof Hmatch as (ep & Hep & _)%term_at_Some.
    destruct (entry_at_Some _ _ _ Hwf Hep) as (Hr & _).
    destruct (wf_log_bounds _ Hwf) as (Hb & Hm & Hlen).
    rewrite HandleAppendEntries_adopt by done.
    assert (Hl : Raft.raftLog (adoptTerm args rf) = l) by apply adoptTerm_raftLog.
    assert (Hwf' : wf_log (Raft.raftLog (adoptTerm args rf)) = true) by (by rewrite Hl).
    assert (Ht : Raft.currentTerm (adoptTerm args rf) = AppendEntriesArgs.Term args)
      by (by apply adoptTerm_currentTerm).
    pose proof (conflict_scan_wf l ents prev Hwf Hr Hc ltac:(lia)) as Hwfs.
    unfold defer, HandleAppendEntries_log.
    step_by ltac:(by apply onRf_run, onLog_dummyIndex).
    rewrite Hl. fold prev.
    destruct (Z.ltb_spec prev (dummy_of l)); [lia|].
    step.
    step_by ltac:(apply onRf_run, onLog_read, matchLog_run; rewrite ?Hl;
                  [done | lia | apply is_int_intro; lia]).
    rewrite Hl. fold prev. rewrite Hmatch, Z.eqb_refl. cbn [negb].
    unfold HandleAppendEntries_append. fold ents.
    step_by ltac:(apply onRf_run, onLog_run; rewrite Hl;
                  by apply (scanEntries_run l ents prev)).
    set (rf1 := Raft.set_raftLog _ (adoptTerm args rf)).
    step. cbn [fst].
    set (rf2 := if AppendEntriesArgs.LeaderCommit args >? Raft.commitIndex rf1
                then committed (Z.min (AppendEntriesArgs.LeaderCommit args)
                                      (last_of (Raft.raftLog rf1))) rf1
                else rf1).
    erewrite (bind_val _ _ _ tt (rf2, reply)).
    2:{ subst rf2. destruct (_ >? _); [|reflexivity].
        step_by ltac:(by apply onRf_run, onLog_lastIndex).
        step. reflexivity. }
    step. cbn [fst].
    assert (Hl2 : Raft.raftLog rf2 = mkLog (conflict_scan l ents))
      by (subst rf2; by destruct (_ >? _)).
    assert (Ht2 : Raft.currentTerm rf2 = AppendEntriesArgs.Term args)
      by (subst rf2; by destruct (_ >? _)).
    exists (snd (persist rf2)). rewrite persist_run. cbn [snd].
    split; [reflexivity|]. split; [exact Ht2|].
    cbn. by rewrite Hl2. }
  split.
  - intros args rf reply Hwf Hterm Hmatch Hc Hmax. cbv zeta.
    destruct (Hgen args rf reply) as (rf' & Hrun & Ht & Hlog & Hwf'); try done.
    exists rf'. split; [done|]. split; [done|]. split; [done|]. split; [done|].
    split.
    + intros Hall. destruct (Raft.raftLog rf') as [ls']. cbn in Hlog. subst ls'.
      rewrite conflict_scan_all_present by done. by destruct (Raft.raftLog rf).
    + intros pre e post Hents Hpre Hne. rewrite Hlog, Hents.
      rewrite conflict_scan_first_conflict by done.
      by rewrite truncate_at_take.
  - intros cur term t1 t2 t3 Hcur.
    destruct (Hgen (conflictingArgs term t1 t3)
                (node3 StateFollower cur (followerLog t1 t2) 0 0 [0; 0; 0] [0; 0; 0])
                AppendEntriesReply.zero)
      as (rf' & Hrun & Ht & Hlog & _); try done.
    exists rf'. split; [by rewrite Hrun, Ht|]. split; [done|].
    rewrite Hlog. cbn.
    destruct (decide (Some t2 = Some t3)) as [[= ->]|Hne].
    + rewrite bool_decide_eq_true_2 by done. cbn.
      rewrite bool_decide_eq_false_2 by done. reflexivity.
    + rewrite bool_decide_eq_false_2 by done. reflexivity.
Qed.

Lemma HandleAppendEntries_conflict_scan_witness :
  (exists rf',
     HandleAppendEntries (conflictingArgs 3 1 3)
       (node3 StateFollower 2 (followerLog 1 2) 0 0 [0; 0; 0] [0; 0; 0],
        AppendEntriesReply.zero)
     = (Val tt, (rf', AppendEntriesReply.mk 3 true 0)) /\
     Raft.currentTerm rf' = 3 /\
     logs (Raft.raftLog rf') = [ent 0 0; ent 1 1; ent 2 1; ent 3 3; ent 4 3]) /\
  (exists rf',
     HandleAppendEntries (AppendEntriesArgs.mk 3 1 1 1 [ent 2 1; ent 3 2] 0)
       (node3 StateFollower 2 (followerLog 1 2) 0 0 [0; 0; 0] [0; 0; 0],
        AppendEntriesReply.zero)
     = (Val tt, (rf', AppendEntriesReply.mk (Raft.currentTerm rf') true 0)) /\
     Raft.raftLog rf' = mkLog (followerLog 1 2)).
Proof.
  split.
  - apply (proj2 HandleAppendEntries_conflict_scan 2 3 1 2 3). lia.
  - destruct (proj1 HandleAppendEntries_conflict_scan
                (AppendEntriesArgs.mk 3 1 1 1 [ent 2 1; ent 3 2] 0)
                (node3 StateFollower 2 (followerLog 1 2) 0 0 [0; 0; 0] [0; 0; 0])
                AppendEntriesReply.zero)
      as (rf' & Hrun & _ & _ & _ & Hsame & _).
    + reflexivity.
    + simpl. lia.
    + reflexivity.
    + reflexivity.
    + reflexivity.
    + exists rf'. split; [exact Hrun|]. apply Hsame.
      intros e He. simpl in He.
      apply elem_of_cons in He as [->|He]; [reflexivity|].
      apply elem_of_cons in He as [->|He]; [reflexivity|].
      by apply elem_of_nil in He.
Defined.

(** ** The applier (C3) *)

Lemma contiguous_from_drop d es n :
  contiguous_from d es = true -> (n <= length es)%nat ->
  contiguous_from (d + Z.of_nat n) (drop n es) = true.
Proof.
  intros H Hn. rewrite <- (take_drop n es) in H.
  rewrite contiguous_from_app in H. apply andb_true_iff in H as [_ H].
  unfold len in H. rewrite length_take in H.
  by replace (n `min` length es)%nat with n in H by lia.
Qed.

Lemma contiguous_indices es : forall d,
  contiguous_from d es = true -> Entry.Index <$> es = seqZ d (len es).
Proof.
  induction es as [|e es IH]; intros d H.
  - by rewrite seqZ_nil.
  - simpl in H. apply andb_true_iff in H as [He%Z.eqb_eq H].
    rewrite seqZ_cons by (unfold len; simpl length; lia).
    cbn [fmap list_fmap]. rewrite He. f_equal.
    rewrite (IH (d + 1)) by done. f_equal; unfold len; simpl length; lia.
Qed.









(** ** Deduplication in the key-value server (C8) *)

Lemma dupCommand_run kv op :
  dupCommand (Op.CommandId op) (Op.ClientId op) kv = (Val (dupb kv op), kv).
Proof.
  unfold dupCommand, dupb. step.
  by destruct (KVServer.latestTime kv !! Op.ClientId op).
Qed.

(** What the delivery of a command does to the store and the table. *)
Lemma listenApplyCh_kvCore size m op kv :
  ApplyMsg.CommandValid m = true -> ApplyMsg.Command m = Some op ->
  kvCore (snd (listenApplyCh size m kv)) =
  if (ApplyMsg.CommandIndex m >? KVServer.lastApplied kv)
     && negb (String.eqb (Op.OpTask op) Gett) && negb (dupb kv op)
  then (applyOp op (KVServer.storage kv),
        <[Op.ClientId op := Op.CommandId op]> (KVServer.latestTime kv))
  else kvCore kv.
Proof.
  intros Hv Hc. unfold listenApplyCh. rewrite Hv, Hc.
  step. destruct (ApplyMsg.CommandIndex m >? KVServer.lastApplied kv);
    [|reflexivity].
  step. cbn [andb].
  set (kv1 := KVServer.set_lastApplied _ kv).
  set (fresh := negb (String.eqb (Op.OpTask op) Gett) && negb (dupb kv op)).
  erewrite (bind_val _ _ _ fresh kv1).
  2:{ subst fresh. destruct (negb (String.eqb (Op.OpTask op) Gett)); [|reflexivity].
      step_by ltac:(apply dupCommand_run). reflexivity. }
  set (kv2 := if fresh
              then KVServer.set_latestTime
                     (<[Op.ClientId op := Op.CommandId op]> (KVServer.latestTime kv))
                     (KVServer.set_storage (applyOp op (KVServer.storage kv)) kv1)
              else kv1).
  erewrite (bind_val _ _ _ tt kv2).
  2:{ subst kv2. destruct fresh; [|reflexivity].
      unfold applyOp.
      destruct (String.eqb (Op.OpTask op) Appendd); [step; reflexivity|].
      destruct (String.eqb (Op.OpTask op) Putt); step; reflexivity. }
  match goal with
  | |- kvCore (snd (?t kv2)) = _ => assert (Hk : keeps kvCore t)
  end.
  { unfold needSnapShot, takeSnapShot, saveState, int_quot, onNode, GetState, Snapshot.
    keeps_tac. }
  rewrite Hk. subst kv2. by destruct fresh.
Qed.

Lemma dedupe_le_refl kv : dedupe_le kv kv.
Proof. intros c latest H. eauto with lia. Qed.

Lemma dedupe_le_trans kv1 kv2 kv3 :
  dedupe_le kv1 kv2 -> dedupe_le kv2 kv3 -> dedupe_le kv1 kv3.
Proof.
  intros H12 H23 c latest H.
  destruct (H12 _ _ H) as (l2 & H2 & ?). destruct (H23 _ _ H2) as (l3 & H3 & ?).
  eauto with lia.
Qed.

Lemma dedupe_le_core kv kv' :
  KVServer.latestTime kv' = KVServer.latestTime kv -> dedupe_le kv kv'.
Proof. intros Heq c latest H. rewrite Heq. eauto with lia. Qed.

Lemma listenApplyCh_dedupe_le size m kv :
  ApplyMsg.CommandValid m = true ->
  dedupe_le kv (snd (listenApplyCh size m kv)).
Proof.
  intros Hv. destruct (ApplyMsg.Command m) as [op|] eqn:Hc.
  - pose proof (listenApplyCh_kvCore size m op kv Hv Hc) as Hcore.
    destruct (_ && _) eqn:Hcond.
    + injection Hcore as _ Hlt. intros c latest Hl. rewrite Hlt.
      destruct (decide (c = Op.ClientId op)) as [->|Hne].
      * rewrite lookup_insert_eq. eexists. split; [done|].
        apply andb_true_iff in Hcond as [_ Hd]. unfold dupb in Hd.
        rewrite Hl in Hd. apply negb_true_iff, Z.leb_gt in Hd. lia.
      * rewrite lookup_insert_ne by done. eauto with lia.
    + injection Hcore as _ Hlt. by apply dedupe_le_core.
  - unfold listenApplyCh. rewrite Hv, Hc. apply dedupe_le_refl.
Qed.

Lemma listenApplyCh_run_dedupe_le size msgs : forall kv,
  Forall (fun m => ApplyMsg.CommandValid m = true) msgs ->
  dedupe_le kv (snd (listenApplyCh_run size msgs kv)).
Proof.
  induction msgs as [|m msgs IH]; intros kv Hall; [apply dedupe_le_refl|].
  apply Forall_cons in Hall as [Hm Hall].
  cbn [listenApplyCh_run]. unfold bind.
  pose proof (listenApplyCh_dedupe_le size m kv Hm) as Hstep.
  destruct (listenApplyCh size m kv) as [[[]|msg] kv1]; cbn [snd] in *; [|done].
  eapply dedupe_le_trans; [exact Hstep|by apply IH].
Qed.

(** C8: when the server handles a command message, the store and the
    dedupe table change only if the command index is above
    [lastApplied], the operation is not a Get, and the command identifier
    exceeds the entry of its client in the table (when there is one); the
    change is then the Put or Append on the store and the identifier
    recorded for the client.  A Get never changes them.  And once a
    command has changed them, or was found to be a duplicate, no later
    command message with the same client and command identifier changes
    them, whatever command messages came in between: operations with the
    same [(clientId, commandId)] affect the store at most once. *)
Theorem listenApplyCh_at_most_once size m op kv :
  ApplyMsg.CommandValid m = true -> ApplyMsg.Command m = Some op ->
  let kv' := snd (listenApplyCh size m kv) in
  (affects size m kv ->
   ApplyMsg.CommandIndex m > KVServer.lastApplied kv /\
   Op.OpTask op <> Gett /\
   (forall latest, KVServer.latestTime kv !! Op.ClientId op = Some latest ->
                   Op.CommandId op > latest) /\
   KVServer.storage kv' = applyOp op (KVServer.storage kv) /\
   KVServer.latestTime kv' =
     <[Op.ClientId op := Op.CommandId op]> (KVServer.latestTime kv)) /\
  (ApplyMsg.CommandIndex m > KVServer.lastApplied kv -> Op.OpTask op <> Gett ->
   dupb kv op = false -> affects size m kv) /\
  (Op.OpTask op = Gett -> kvCore kv' = kvCore kv) /\
  (forall mid m2 op2,
     affects size m kv \/ dupb kv op = true ->
     Forall (fun x => ApplyMsg.CommandValid x = true) mid ->
     ApplyMsg.CommandValid m2 = true -> ApplyMsg.Command m2 = Some op2 ->
     Op.ClientId op2 = Op.ClientId op -> Op.CommandId op2 = Op.CommandId op ->
     ~ affects size m2 (snd (listenApplyCh_run size mid kv'))).
Proof.
  intros Hv Hc. cbv zeta.
  pose proof (listenApplyCh_kvCore size m op kv Hv Hc) as Hcore.
  assert (Haff : affects size m kv ->
    (ApplyMsg.CommandIndex m >? KVServer.lastApplied kv) = true /\
    String.eqb (Op.OpTask op) Gett = false /\ dupb kv op = false /\
    kvCore (snd (listenApplyCh size m kv)) =
    (applyOp op (KVServer.storage kv),
     <[Op.ClientId op := Op.CommandId op]> (KVServer.latestTime kv))).
  { intros Ha. unfold affects in Ha. destruct (_ && _) eqn:Hcond; [|done].
    apply andb_true_iff in Hcond as [Hcond Hd].
    apply andb_true_iff in Hcond as [Hi Hg].
    apply negb_true_iff in Hg, Hd. done. }
  split; [|split; [|split]].
  - intros (Hi & Hg & Hd & Hk)%Haff. injection Hk as Hs Hl.
    split; [lia|]. split.
    { intros Heq. rewrite Heq in Hg. done. }
    split; [|done]. intros latest Hl'. unfold dupb in Hd. rewrite Hl' in Hd.
    apply Z.leb_gt in Hd. lia.
  - intros Hi Hg Hd Heq. unfold affects in *.
    destruct (Z.gtb_spec (ApplyMsg.CommandIndex m) (KVServer.lastApplied kv)); [|lia].
    destruct (String.eqb_spec (Op.OpTask op) Gett); [done|].
    rewrite Hd in Hcore. cbn in Hcore. rewrite Hcore in Heq.
    injection Heq as _ Hl. unfold dupb in Hd.
    assert (Hlook : KVServer.latestTime kv !! Op.ClientId op = Some (Op.CommandId op)).
    { rewrite <- Hl. apply lookup_insert_eq. }
    rewrite Hlook in Hd. apply Z.leb_gt in Hd. lia.
  - intros Hg. rewrite Hcore, Hg. cbn. by rewrite andb_false_r.
  - intros mid m2 op2 Hfirst Hmid Hv2 Hc2 Hcl Hid Ha2.
    set (kv1 := snd (listenApplyCh size m kv)) in *.
    set (kv2 := snd (listenApplyCh_run size mid kv1)) in *.
    assert (Hl1 : exists l1, KVServer.latestTime kv1 !! Op.ClientId op = Some l1
                             /\ Op.CommandId op <= l1).
    { destruct Hfirst as [(_ & _ & _ & Hk)%Haff|Hd].
      - injection Hk as _ Hl. exists (Op.CommandId op).
        split; [|lia]. rewrite Hl. apply lookup_insert_eq.
      - rewrite Hd, andb_false_r in Hcore. injection Hcore as _ Hl.
        rewrite Hl. unfold dupb in Hd.
        destruct (KVServer.latestTime kv !! Op.ClientId op) as [l1|]; [|done].
        exists l1. split; [done|]. by apply Z.leb_le. }
    destruct Hl1 as (l1 & Hl1 & Hle1).
    destruct (listenApplyCh_run_dedupe_le size mid kv1 Hmid _ _ Hl1)
      as (latest & Hl2 & Hle). fold kv2 in Hl2.
    unfold affects in Ha2.
    rewrite (listenApplyCh_kvCore size m2 op2 kv2 Hv2 Hc2) in Ha2.
    assert (Hd2 : dupb kv2 op2 = true).
    { unfold dupb. rewrite Hcl, Hl2, Hid. apply Z.leb_le. lia. }
    rewrite Hd2, andb_false_r in Ha2. done.
Qed.

Lemma listenApplyCh_at_most_once_witness :
  let kv' := snd (listenApplyCh 0 (cmdMsg 1 putOp) (kv3 freshFollower (-1))) in
  KVServer.storage kv' = {[ "k"%string := "v"%string ]} /\
  KVServer.latestTime kv' = {[ 1 := 7 ]} /\
  ~ affects 0 (cmdMsg 3 putAgain)
      (snd (listenApplyCh_run 0 [cmdMsg 2 appendOp] kv')).
Proof.
  destruct (listenApplyCh_at_most_once 0 (cmdMsg 1 putOp) putOp (kv3 freshFollower (-1)))
    as (H1 & H2 & _ & H4); [reflexivity|reflexivity|].
  assert (Ha : affects 0 (cmdMsg 1 putOp) (kv3 freshFollower (-1))).
  { apply H2; [simpl; lia | discriminate | reflexivity]. }
  destruct (H1 Ha) as (_ & _ & _ & Hs & Hl).
  cbv zeta. split; [exact Hs|]. split; [exact Hl|].
  apply (H4 [cmdMsg 2 appendOp] (cmdMsg 3 putAgain) putAgain); try reflexivity.
  - by left.
  - repeat constructor.
Defined.

(** ** The requests the sender builds *)

(** On a leader whose [nextIndex[peer]] lies within [dummyIndex + 1] and
    [lastIndex + 1], the sender builds a request whose [PrevLogTerm] is
    the term stored at [PrevLogIndex = nextIndex[peer] - 1] and whose
    entries are the rest of the log, with consecutive indices: the
    requests the conflict scan of the receiver is proved for. *)
Lemma appendOneRound_args_run peer next rf :
  wf_log (Raft.raftLog rf) = true ->
  Raft.state rf = StateLeader ->
  0 <= peer -> Raft.nextIndex rf !! Z.to_nat peer = Some next ->
  dummy_of (Raft.raftLog rf) + 1 <= next <= last_of (Raft.raftLog rf) + 1 ->
  exists t,
    term_at (Raft.raftLog rf) (next - 1) = Some t /\
    appendOneRound_args peer rf =
    (Val (Some (AppendEntriesArgs.mk (Raft.currentTerm rf) (Raft.me rf) (next - 1) t
                  (drop (Z.to_nat (next - dummy_of (Raft.raftLog rf)))
                        (logs (Raft.raftLog rf)))
                  (Raft.commitIndex rf))), rf) /\
    contiguous_from next
      (drop (Z.to_nat (next - dummy_of (Raft.raftLog rf))) (logs (Raft.raftLog rf)))
    = true.
Proof.
  intros Hwf Hst Hp Hn Hr.
  destruct (wf_log_bounds _ Hwf) as (Hb & Hmax & Hlen).
  set (l := Raft.raftLog rf) in *.
  destruct (entry_at_in_range l (next - 1) Hwf) as [e He]; [lia|].
  exists (Entry.Term e). split; [apply term_at_Some; eauto|]. split.
  - unfold appendOneRound_args.
    step. rewrite Hst. cbn [NodeState_eqb negb].
    step_by ltac:(by apply index_run).
    step_by ltac:(by apply onLog_dummyIndex).
    rewrite sub_id by (apply is_int_intro; lia). fold l.
    destruct (Z.ltb_spec (next - 1) (dummy_of l)); [lia|].
    step.
    step_by ltac:(by apply onLog_lastIndex). fold l.
    destruct (Z.gtb_spec (next - 1) (last_of l)); [lia|].
    step.
    step_by ltac:(by apply onLog_getEntry).
    step_by ltac:(by apply onLog_lastIndex). fold l.
    rewrite sub_id by (apply is_int_intro; lia).
    unfold make. destruct (Z.ltb_spec (last_of l - (next - 1)) 0); [lia|].
    step. rewrite add_id by (apply is_int_intro; lia).
    erewrite (bind_val _ _ _ (drop (Z.to_nat (next - dummy_of l)) (logs l)) rf).
    2:{ apply onLog_read. fold l. unfold sliceFrom.
        step_by ltac:(apply convertIndex_run; [done | lia | apply is_int_intro; lia]).
        step. unfold slice_expr.
        replace (next - 1 + 1 - dummy_of l) with (next - dummy_of l) by lia.
        destruct (Z.ltb_spec (next - dummy_of l) 0); [lia|].
        destruct (Z.ltb_spec (len (logs l)) (next - dummy_of l)); [lia|].
        destruct (Z.ltb_spec (len (logs l)) (len (logs l))); [lia|].
        cbn [orb]. unfold ret. do 2 f_equal.
        apply take_ge. rewrite length_drop. unfold len. lia. }
    unfold ret. do 4 f_equal. unfold copy.
    rewrite length_replicate, length_drop, drop_replicate.
    replace (Z.to_nat (last_of l - (next - 1))
             - (length (logs l) - Z.to_nat (next - dummy_of l)))%nat
      with 0%nat by (unfold len in Hlen; lia).
    cbn [replicate]. rewrite app_nil_r.
    apply take_ge. rewrite length_drop. unfold len in Hlen. lia.
  - set (n := Z.to_nat (next - dummy_of l)).
    assert (Hcd : contiguous_from (dummy_of l + Z.of_nat n) (drop n (logs l)) = true).
    { apply contiguous_from_drop; [by apply wf_log_contiguous|].
      unfold len in Hlen. lia. }
    by replace (dummy_of l + Z.of_nat n) with next in Hcd by lia.
Qed.

(** * Further properties of the sources *)

(** ** The log abstraction *)

Lemma sliceFrom_run l low :
  wf_log l = true -> dummy_of l <= low <= last_of l + 1 ->
  sliceFrom low l = (Val (drop (Z.to_nat (low - dummy_of l)) (logs l)), l).
Proof.
  intros Hwf Hr. destruct (wf_log_bounds _ Hwf) as (Hb & Hm & Hlen).
  unfold sliceFrom.
  step_by ltac:(apply convertIndex_run; [done | lia | apply is_int_intro; lia]).
  step. unfold slice_expr.
  destruct (Z.ltb_spec (low - dummy_of l) 0); [lia|].
  destruct (Z.ltb_spec (len (logs l)) (low - dummy_of l)); [lia|].
  destruct (Z.ltb_spec (len (logs l)) (len (logs l))); [lia|].
  cbn [orb]. unfold ret. do 2 f_equal.
  apply take_ge. rewrite length_drop. unfold len. lia.
Qed.

Lemma sliceTo_run l high :
  wf_log l = true -> dummy_of l <= high <= last_of l + 1 ->
  sliceTo high l = (Val (take (Z.to_nat (high - dummy_of l)) (logs l)), l).
Proof.
  intros Hwf Hr. destruct (wf_log_bounds _ Hwf) as (Hb & Hm & Hlen).
  unfold sliceTo.
  step_by ltac:(apply convertIndex_run; [done | lia | apply is_int_intro; lia]).
  step. unfold slice_expr.
  destruct (Z.ltb_spec 0 0); [lia|].
  destruct (Z.ltb_spec (high - dummy_of l) 0); [lia|].
  destruct (Z.ltb_spec (len (logs l)) (high - dummy_of l)); [lia|].
  cbn [orb]. unfold ret. rewrite drop_0. do 3 f_equal. lia.
Qed.

Lemma slice_run l lo hi :
  wf_log l = true -> dummy_of l <= lo -> lo <= hi -> hi <= last_of l + 1 ->
  slice lo hi l =
  (Val (take (Z.to_nat (hi - lo)) (drop (Z.to_nat (lo - dummy_of l)) (logs l))), l).
Proof.
  intros Hwf Hlo Hlh Hhi. destruct (wf_log_bounds _ Hwf) as (Hb & Hm & Hlen).
  unfold slice.
  step_by ltac:(apply convertIndex_run; [done | lia | apply is_int_intro; lia]).
  step_by ltac:(apply convertIndex_run; [done | lia | apply is_int_intro; lia]).
  step. unfold slice_expr.
  destruct (Z.ltb_spec (lo - dummy_of l) 0); [lia|].
  destruct (Z.ltb_spec (hi - dummy_of l) (lo - dummy_of l)); [lia|].
  destruct (Z.ltb_spec (len (logs l)) (hi - dummy_of l)); [lia|].
  cbn [orb]. unfold ret. do 3 f_equal. lia.
Qed.

(** X1: on a well-formed log, [dummyIndex] and [lastIndex] answer the two
    ends of the log; [getEntry(i)] answers, for an index between them,
    the entry that carries index [i] (the one at position
    [i - dummyIndex]) and leaves the log alone; below the dummy index it
    panics in [convertIndex], above the last index it panics on the
    slice bound. *)
Theorem getEntry_bounds l i :
  wf_log l = true -> GoInt.is_int i ->
  dummyIndex l = (Val (dummy_of l), l) /\
  lastIndex l = (Val (last_of l), l) /\
  (dummy_of l <= i <= last_of l ->
   exists e, getEntry i l = (Val e, l) /\ Entry.Index e = i /\
             logs l !! Z.to_nat (i - dummy_of l) = Some e) /\
  (i < dummy_of l ->
   getEntry i l = (Panic "current index is smaller than dummy Index", l)) /\
  (last_of l < i -> getEntry i l = (Panic "index out of range", l)).
Proof.
  intros Hwf Hi.
  split; [by apply dummyIndex_run|]. split; [by apply lastIndex_run|].
  split; [|split].
  - intros Hr. destruct (entry_at_in_range l i Hwf Hr) as [e He].
    destruct (entry_at_Some _ _ _ Hwf He) as (_ & Hidx & Hl).
    exists e. split; [by apply getEntry_run|done].
  - intros Hlow. unfold getEntry. by rewrite (bind_panic _ _ _ _ _ (convertIndex_low l i Hwf Hlow)).
  - intros Hhigh. by apply getEntry_beyond.
Qed.

Lemma getEntry_bounds_witness :
  (exists e, getEntry 5 sampleLog = (Val e, sampleLog) /\ Entry.Index e = 5 /\
             logs sampleLog !! Z.to_nat (5 - 3) = Some e) /\
  getEntry 2 sampleLog = (Panic "current index is smaller than dummy Index", sampleLog) /\
  getEntry 7 sampleLog = (Panic "index out of range", sampleLog).
Proof.
  split; [|split].
  - apply (getEntry_bounds sampleLog 5); [reflexivity | by vm_compute | by vm_compute].
  - apply (getEntry_bounds sampleLog 2); [reflexivity | by vm_compute | by vm_compute].
  - apply (getEntry_bounds sampleLog 7); [reflexivity | by vm_compute | by vm_compute].
Defined.

(** X2: on a well-formed log, [matchLog(t, i)] answers true exactly when
    the log stores term [t] at index [i]; in particular it answers false,
    without a panic, for an index past the last one, and at the dummy
    index it compares with the term of the dummy entry.  Below the dummy
    index it panics. *)
Theorem matchLog_iff l t i :
  wf_log l = true -> GoInt.is_int i ->
  (dummy_of l <= i ->
   exists b, matchLog t i l = (Val b, l) /\ (b = true <-> term_at l i = Some t)) /\
  (last_of l < i -> matchLog t i l = (Val false, l)) /\
  (i < dummy_of l ->
   matchLog t i l = (Panic "current index is smaller than dummy Index", l)).
Proof.
  intros Hwf Hi.
  destruct (wf_log_bounds _ Hwf) as (Hb & Hm & Hlen).
  split; [|split].
  - intros Hd. eexists. split; [by apply matchLog_run|].
    destruct (term_at l i) as [t'|]; [|done].
    destruct (Z.eqb_spec t t'); split; congruence.
  - intros Hlast. rewrite matchLog_run by (done || lia).
    unfold term_at. destruct (entry_at l i) as [e|] eqn:He; [|done].
    destruct (entry_at_Some _ _ _ Hwf He). lia.
  - intros Hlow. unfold matchLog.
    step_by ltac:(by apply lastIndex_run).
    destruct (Z.gtb_spec i (last_of l)); [lia|].
    unfold getEntry. rewrite bind_assoc.
    by rewrite (bind_panic _ _ _ _ _ (convertIndex_low l i Hwf Hlow)).
Qed.

Lemma matchLog_iff_witness :
  (exists b, matchLog 1 3 sampleLog = (Val b, sampleLog) /\
             (b = true <-> term_at sampleLog 3 = Some 1)) /\
  matchLog 2 9 sampleLog = (Val false, sampleLog) /\
  matchLog 1 0 sampleLog = (Panic "current index is smaller than dummy Index", sampleLog).
Proof.
  split; [|split].
  - apply (matchLog_iff sampleLog 1 3); [reflexivity | by vm_compute | by vm_compute].
  - apply (matchLog_iff sampleLog 2 9); [reflexivity | by vm_compute | by vm_compute].
  - apply (matchLog_iff sampleLog 1 0); [reflexivity | by vm_compute | by vm_compute].
Defined.

Lemma lastEntry_run l :
  wf_log l = true ->
  exists e, lastEntry l = (Val e, l) /\ entry_at l (last_of l) = Some e /\
            Entry.Index e = last_of l.
Proof.
  intros Hwf. destruct (wf_log_bounds _ Hwf) as (Hb & Hm & Hlen).
  destruct (entry_at_in_range l (last_of l) Hwf ltac:(lia)) as [e He].
  destruct (entry_at_Some _ _ _ Hwf He) as (_ & Hidx & Hl).
  exists e. split; [|done].
  unfold lastEntry. step.
  rewrite sub_id by (apply is_int_intro; lia).
  apply index_run; [lia|].
  replace (len (logs l) - 1) with (last_of l - dummy_of l) by lia. done.
Qed.

Lemma lastTerm_run l :
  wf_log l = true ->
  exists t, lastTerm l = (Val t, l) /\ term_at l (last_of l) = Some t.
Proof.
  intros Hwf. destruct (wf_log_bounds _ Hwf) as (Hb & Hm & Hlen).
  destruct (entry_at_in_range l (last_of l) Hwf ltac:(lia)) as [e He].
  destruct (entry_at_Some _ _ _ Hwf He) as (_ & Hidx & Hl).
  exists (Entry.Term e). split; [|by unfold term_at; rewrite He].
  unfold lastTerm. step.
  rewrite sub_id by (apply is_int_intro; lia).
  erewrite bind_val; [reflexivity|].
  apply index_run; [lia|].
  replace (len (logs l) - 1) with (last_of l - dummy_of l) by lia. done.
Qed.

Lemma isLogUpToDate_run l t i tl :
  wf_log l = true -> term_at l (last_of l) = Some tl ->
  isLogUpToDate t i l = (Val ((t >? tl) || ((tl =? t) && (i >=? last_of l))), l).
Proof.
  intros Hwf Ht. destruct (lastEntry_run l Hwf) as (e & Hrun & He & Hidx).
  unfold isLogUpToDate. step_by ltac:(exact Hrun).
  unfold term_at in Ht. rewrite He in Ht. simplify_eq/=.
  by rewrite Hidx.
Qed.

(** X3: [isLogUpToDate(t, i)] answers whether the pair [(t, i)] is, in
    the order by term first and index second, at least the pair of the
    last entry of the log.  Hence a log is up to date with respect to
    itself, of two logs at least one is up to date with respect to the
    other, and two logs each up to date with respect to the other end in
    the same term and index. *)
Theorem isLogUpToDate_order a b :
  wf_log a = true -> wf_log b = true ->
  exists ta tb,
    lastTerm a = (Val ta, a) /\ lastIndex a = (Val (last_of a), a) /\
    lastTerm b = (Val tb, b) /\ lastIndex b = (Val (last_of b), b) /\
    (forall t i,
       isLogUpToDate t i a =
       (Val (bool_decide (ta < t \/ (ta = t /\ last_of a <= i))), a)) /\
    isLogUpToDate ta (last_of a) a = (Val true, a) /\
    (isLogUpToDate tb (last_of b) a = (Val true, a) \/
     isLogUpToDate ta (last_of a) b = (Val true, b)) /\
    (isLogUpToDate tb (last_of b) a = (Val true, a) ->
     isLogUpToDate ta (last_of a) b = (Val true, b) ->
     ta = tb /\ last_of a = last_of b).
Proof.
  intros Ha Hb.
  destruct (lastTerm_run a Ha) as (ta & Hta & Hat).
  destruct (lastTerm_run b Hb) as (tb & Htb & Hbt).
  exists ta, tb.
  assert (Hchar : forall l tl t i, wf_log l = true -> term_at l (last_of l) = Some tl ->
            isLogUpToDate t i l =
            (Val (bool_decide (tl < t \/ (tl = t /\ last_of l <= i))), l)).
  { intros l tl t i Hl Htl. rewrite (isLogUpToDate_run l t i tl Hl Htl).
    do 2 f_equal.
    destruct (Z.gtb_spec t tl), (Z.eqb_spec tl t), (Z.geb_spec i (last_of l));
      cbn; case_bool_decide; try done; exfalso; lia. }
  split; [done|]. split; [by apply lastIndex_run|].
  split; [done|]. split; [by apply lastIndex_run|].
  split; [intros; by apply Hchar|].
  rewrite !(Hchar a ta) by done. rewrite !(Hchar b tb) by done.
  split; [|split].
  - rewrite bool_decide_eq_true_2; [done|lia].
  - destruct (decide (ta < tb \/ ta = tb /\ last_of a <= last_of b)) as [H|H].
    + left. by rewrite bool_decide_eq_true_2.
    + right. rewrite bool_decide_eq_true_2; [done|lia].
  - intros H1 H2. injection H1 as H1. injection H2 as H2.
    apply bool_decide_eq_true_1 in H1. apply bool_decide_eq_true_1 in H2. lia.
Qed.

Lemma isLogUpToDate_order_witness :
  exists ta tb,
    lastTerm sampleLog = (Val ta, sampleLog) /\
    lastIndex sampleLog = (Val (last_of sampleLog), sampleLog) /\
    lastTerm olderLog = (Val tb, olderLog) /\
    lastIndex olderLog = (Val (last_of olderLog), olderLog) /\
    (forall t i,
       isLogUpToDate t i sampleLog =
       (Val (bool_decide (ta < t \/ (ta = t /\ last_of sampleLog <= i))), sampleLog)) /\
    isLogUpToDate ta (last_of sampleLog) sampleLog = (Val true, sampleLog) /\
    (isLogUpToDate tb (last_of olderLog) sampleLog = (Val true, sampleLog) \/
     isLogUpToDate ta (last_of sampleLog) olderLog = (Val true, olderLog)) /\
    (isLogUpToDate tb (last_of olderLog) sampleLog = (Val true, sampleLog) ->
     isLogUpToDate ta (last_of sampleLog) olderLog = (Val true, olderLog) ->
     ta = tb /\ last_of sampleLog = last_of olderLog).
Proof. apply (isLogUpToDate_order sampleLog olderLog); reflexivity. Defined.

Lemma mkLog_logs l : mkLog (logs l) = l.
Proof. by destruct l. Qed.

Lemma wf_log_take l high :
  wf_log l = true -> dummy_of l < high <= last_of l + 1 ->
  let l' := mkLog (take (Z.to_nat (high - dummy_of l)) (logs l)) in
  wf_log l' = true /\ dummy_of l' = dummy_of l /\ last_of l' = high - 1 /\
  forall i, entry_at l' i = if i <? high then entry_at l i else None.
Proof.
  intros Hwf Hr l'. subst l'. destruct (wf_log_bounds _ Hwf) as (Hb & Hm & Hlen).
  destruct (wf_log_splice l (high - 1) [] Hwf ltac:(lia) eq_refl) as (H1 & H2 & H3).
  { unfold len; simpl; lia. }
  rewrite app_nil_r in H1, H2, H3.
  replace (high - 1 + 1 - dummy_of l) with (high - dummy_of l) in H1, H2, H3 by lia.
  unfold len in H3; simpl in H3.
  split; [done|]. split; [done|]. split; [lia|].
  intros i. unfold entry_at. rewrite H2.
  destruct (Z.ltb_spec i (dummy_of l)).
  - by destruct (i <? high).
  - cbn [logs]. destruct (Z.ltb_spec i high).
    + apply lookup_take_lt. lia.
    + apply lookup_take_ge. lia.
Qed.

(** X4: on a well-formed log, [trunc(high)] for an index above the dummy
    index keeps exactly the entries below [high] and answers the new last
    index [high - 1]; appending the entries [sliceFrom(high)] had copied
    out restores the log.  [trunc(dummyIndex)] empties the log and then
    panics in [lastIndex]. *)
Theorem trunc_append_roundtrip l high :
  wf_log l = true ->
  (dummy_of l < high <= last_of l + 1 ->
   (exists l',
      trunc high l = (Val (high - 1), l') /\
      wf_log l' = true /\ dummy_of l' = dummy_of l /\ last_of l' = high - 1 /\
      forall i, entry_at l' i = if i <? high then entry_at l i else None) /\
   (s <- sliceFrom high;; trunc high;;; append s) l = (Val (last_of l), l)) /\
  trunc (dummy_of l) l = (Panic "index out of range", mkLog []).
Proof.
  intros Hwf. destruct (wf_log_bounds _ Hwf) as (Hb & Hm & Hlen). split.
  - intros Hr.
    destruct (wf_log_take l high Hwf Hr) as (H1 & H2 & H3 & H4).
    split.
    { eexists. split; [by apply trunc_run|]. done. }
    step_by ltac:(apply sliceFrom_run; [done|lia]).
    step_by ltac:(by apply trunc_run).
    set (n := Z.to_nat (high - dummy_of l)) in *.
    destruct (drop n (logs l)) as [|e es] eqn:Hd.
    + unfold append. cbn.
      assert (take n (logs l) = logs l) as ->.
      { rewrite <- (take_drop n (logs l)) at 2. by rewrite Hd, app_nil_r. }
      rewrite mkLog_logs. by apply lastIndex_run.
    + rewrite append_wf; cbn [logs]; rewrite <- ?Hd, ?take_drop, ?mkLog_logs; try done.
      by rewrite Hd.
  - unfold trunc.
    step_by ltac:(apply sliceTo_run; [done|lia]).
    rewrite Z.sub_diag. cbn [Z.to_nat take].
    reflexivity.
Qed.

Lemma trunc_append_roundtrip_witness :
  ((exists l',
      trunc 5 sampleLog = (Val (5 - 1), l') /\
      wf_log l' = true /\ dummy_of l' = dummy_of sampleLog /\ last_of l' = 5 - 1 /\
      forall i, entry_at l' i = if i <? 5 then entry_at sampleLog i else None) /\
   (s <- sliceFrom 5;; trunc 5;;; append s) sampleLog
     = (Val (last_of sampleLog), sampleLog)) /\
  trunc 3 sampleLog = (Panic "index out of range", mkLog []).
Proof.
  split.
  - apply (trunc_append_roundtrip sampleLog 5); [reflexivity | by vm_compute].
  - apply (trunc_append_roundtrip sampleLog 3). reflexivity.
Defined.

(** X5: on a well-formed log and for [dummyIndex <= lo <= hi <=
    lastIndex + 1], [sliceTo(lo)], [slice(lo, hi)] and [sliceFrom(hi)]
    return without changing the log and cut it into three consecutive
    parts; [slice(lo, hi)] holds the entries of the indices [lo] to
    [hi - 1] in order, each the entry the log stores at its index. *)
Theorem slice_partition l lo hi :
  wf_log l = true -> dummy_of l <= lo -> lo <= hi -> hi <= last_of l + 1 ->
  exists pre mid post,
    sliceTo lo l = (Val pre, l) /\ slice lo hi l = (Val mid, l) /\
    sliceFrom hi l = (Val post, l) /\
    logs l = pre ++ mid ++ post /\
    Entry.Index <$> mid = seqZ lo (hi - lo) /\
    forall e, e ∈ mid -> entry_at l (Entry.Index e) = Some e.
Proof.
  intros Hwf Hlo Hlh Hhi. destruct (wf_log_bounds _ Hwf) as (Hb & Hm & Hlen).
  do 3 eexists.
  split; [apply sliceTo_run; [done|lia]|].
  split; [by apply slice_run|].
  split; [apply sliceFrom_run; [done|lia]|].
  set (a := Z.to_nat (lo - dummy_of l)). set (b := Z.to_nat (hi - lo)).
  assert (Hab : Z.to_nat (hi - dummy_of l) = (a + b)%nat) by lia.
  rewrite Hab.
  assert (Hc : contiguous_from lo (take b (drop a (logs l))) = true).
  { apply contiguous_from_take.
    replace lo with (dummy_of l + Z.of_nat a) by lia.
    apply contiguous_from_drop; [by apply wf_log_contiguous|]. unfold len in Hlen. lia. }
  assert (Hl : len (take b (drop a (logs l))) = hi - lo).
  { unfold len in *. rewrite length_take, length_drop. lia. }
  split; [|split].
  - rewrite <- (take_drop a (logs l)) at 1. f_equal.
    rewrite <- (take_drop b (drop a (logs l))) at 1. f_equal.
    by rewrite drop_drop.
  - rewrite (contiguous_indices _ _ Hc). by rewrite Hl.
  - intros e [k Hk]%list_elem_of_lookup.
    pose proof (contiguous_from_lookup _ _ _ _ Hc Hk) as Hidx.
    pose proof (lookup_lt_Some _ _ _ Hk) as Hlt.
    rewrite length_take, length_drop in Hlt.
    rewrite lookup_take_lt, lookup_drop in Hk by lia.
    unfold entry_at. destruct (Z.ltb_spec (Entry.Index e) (dummy_of l)); [lia|].
    rewrite <- Hk. f_equal. lia.
Qed.

Lemma slice_partition_witness :
  exists pre mid post,
    sliceTo 4 sampleLog = (Val pre, sampleLog) /\
    slice 4 6 sampleLog = (Val mid, sampleLog) /\
    sliceFrom 6 sampleLog = (Val post, sampleLog) /\
    logs sampleLog = pre ++ mid ++ post /\
    Entry.Index <$> mid = seqZ 4 (6 - 4) /\
    forall e, e ∈ mid -> entry_at sampleLog (Entry.Index e) = Some e.
Proof.
  apply (slice_partition sampleLog 4 6); [reflexivity | by vm_compute ..].
Defined.

Lemma wf_log_append l ents :
  wf_log l = true -> contiguous_from (last_of l + 1) ents = true ->
  last_of l + len ents < GoInt.max_int ->
  let l' := mkLog (logs l ++ ents) in
  wf_log l' = true /\ dummy_of l' = dummy_of l /\ last_of l' = last_of l + len ents /\
  (forall i, i <= last_of l -> entry_at l' i = entry_at l i) /\
  (forall k e, ents !! k = Some e -> entry_at l' (last_of l + 1 + Z.of_nat k) = Some e).
Proof.
  intros Hwf Hc Hmax l'. subst l'. destruct (wf_log_bounds _ Hwf) as (Hb & Hm & Hlen).
  destruct (wf_log_splice l (last_of l) ents Hwf ltac:(lia) Hc) as (H1 & H2 & H3).
  { unfold GoInt.max_int in Hmax. lia. }
  rewrite take_ge in H1, H2, H3 by (unfold len in Hlen; lia).
  split; [done|]. split; [done|]. split; [done|].
  unfold entry_at. rewrite H2. cbn [logs]. split.
  - intros i Hi. destruct (Z.ltb_spec i (dummy_of l)); [done|].
    apply lookup_app_l. unfold len in Hlen. lia.
  - intros k e Hk. destruct (Z.ltb_spec (last_of l + 1 + Z.of_nat k) (dummy_of l)); [lia|].
    rewrite lookup_app_r by (unfold len in Hlen; lia).
    rewrite <- Hk. f_equal. unfold len in Hlen. lia.
Qed.

(** X6: [append] of entries that continue the indices of a well-formed
    log answers the index of the last entry appended and leaves a
    well-formed log in which every old index keeps its entry and the new
    entries stand at their own indices; appending nothing answers the
    last index and leaves the log alone. *)
Theorem append_extends l ents :
  wf_log l = true -> contiguous_from (last_of l + 1) ents = true ->
  last_of l + len ents < GoInt.max_int ->
  exists l',
    append ents l = (Val (last_of l + len ents), l') /\
    logs l' = logs l ++ ents /\
    wf_log l' = true /\ dummy_of l' = dummy_of l /\
    last_of l' = last_of l + len ents /\
    (forall i, i <= last_of l -> entry_at l' i = entry_at l i) /\
    (forall k e, ents !! k = Some e ->
                 entry_at l' (last_of l + 1 + Z.of_nat k) = Some e) /\
    (ents = [] -> l' = l).
Proof.
  intros Hwf Hc Hmax.
  destruct (wf_log_append l ents Hwf Hc Hmax) as (H1 & H2 & H3 & H4 & H5).
  destruct ents as [|e es].
  - exists l. unfold append. cbn. rewrite app_nil_r in *.
    rewrite mkLog_logs in *. unfold len; cbn. rewrite Z.add_0_r.
    split; [by apply lastIndex_run|]. done.
  - exists (mkLog (logs l ++ e :: es)).
    split; [rewrite append_wf by done; by rewrite H3|]. done.
Qed.

Lemma append_extends_witness :
  exists l',
    append [ent 7 2; ent 8 3] sampleLog = (Val (last_of sampleLog + 2), l') /\
    logs l' = logs sampleLog ++ [ent 7 2; ent 8 3] /\
    wf_log l' = true /\ dummy_of l' = dummy_of sampleLog /\
    last_of l' = last_of sampleLog + 2 /\
    (forall i, i <= last_of sampleLog -> entry_at l' i = entry_at sampleLog i) /\
    (forall k e, [ent 7 2; ent 8 3] !! k = Some e ->
                 entry_at l' (last_of sampleLog + 1 + Z.of_nat k) = Some e) /\
    ([ent 7 2; ent 8 3] = [] -> l' = sampleLog).
Proof.
  apply (append_extends sampleLog [ent 7 2; ent 8 3]); [reflexivity | reflexivity | by vm_compute].
Defined.

(** ** The leader: commit advancement and broadcast *)

Lemma set_raftLog_same rf : Raft.set_raftLog (Raft.raftLog rf) rf = rf.
Proof. by destruct rf. Qed.

Lemma getEntry_keeps i : keeps (fun l : raftLog => l) (getEntry i).
Proof. unfold getEntry, convertIndex, dummyIndex. keeps_tac. Qed.

Lemma onLog_getEntry_state i rf : snd (onLog (getEntry i) rf) = rf.
Proof.
  unfold onLog, zoom. pose proof (getEntry_keeps i (Raft.raftLog rf)) as Hk.
  destruct (getEntry i (Raft.raftLog rf)) as [r l]. cbn in *. subst l.
  apply set_raftLog_same.
Qed.

Lemma lastIndex_keeps : keeps (fun l : raftLog => l) lastIndex.
Proof. unfold lastIndex. keeps_tac. Qed.

Lemma onLog_lastIndex_state rf : snd (onLog lastIndex rf) = rf.
Proof.
  unfold onLog, zoom. pose proof (lastIndex_keeps (Raft.raftLog rf)) as Hk.
  destruct (lastIndex (Raft.raftLog rf)) as [r l]. cbn in *. subst l.
  apply set_raftLog_same.
Qed.

Lemma advanceLoop_only_raises fuel : forall i rf,
  snd (advanceLoop fuel i rf) = rf \/
  exists j e,
    Raft.commitIndex rf < j /\
    onLog (getEntry j) rf = (Val e, rf) /\
    Entry.Term e = Raft.currentTerm rf /\
    advanceLoop fuel i rf = (Val tt, committed j rf).
Proof.
  induction fuel as [|fuel IH]; intros i rf; [by left|].
  remember (advanceLoop (S fuel) i rf) as r eqn:Hr.
  cbn [advanceLoop] in Hr. unfold bind at 1, get at 1 in Hr.
  destruct (Z.gtb_spec i (Raft.commitIndex rf)) as [Hgt|]; [|left; by subst r].
  unfold bind at 1 in Hr.
  pose proof (countMatch_keeps (fun s => s) i (seq 0 (Raft.peers rf)) 0 rf) as Hk.
  destruct (countMatch i (seq 0 (Raft.peers rf)) 0 rf) as [[num|msg] s]; cbn in Hk; subst s;
    [|left; by subst r].
  unfold bind at 1 in Hr.
  destruct (GoInt.add num 1 >? Z.of_nat (Raft.peers rf) `quot` 2).
  - unfold bind at 1 in Hr.
    pose proof (onLog_getEntry_state i rf) as Hs.
    destruct (onLog (getEntry i) rf) as [[e|msg] s] eqn:He; cbn in Hs; subst s;
      [|left; by subst r].
    unfold ret at 1 in Hr.
    destruct (Z.eqb_spec (Entry.Term e) (Raft.currentTerm rf)) as [Ht|].
    + right. exists i, e. split; [lia|]. split; [exact He|]. split; [done|].
      by subst r.
    + subst r. apply IH.
  - unfold ret at 1 in Hr. subst r. apply IH.
Qed.

Lemma advanceCommitIndexForLeader_raises rf :
  snd (advanceCommitIndexForLeader rf) = rf \/
  exists j e,
    Raft.state rf = StateLeader /\
    Raft.commitIndex rf < j /\
    onLog (getEntry j) rf = (Val e, rf) /\
    Entry.Term e = Raft.currentTerm rf /\
    advanceCommitIndexForLeader rf = (Val tt, committed j rf).
Proof.
  remember (advanceCommitIndexForLeader rf) as r eqn:Hr.
  unfold advanceCommitIndexForLeader in Hr. unfold bind at 1, get at 1 in Hr.
  destruct (NodeState_eqb (Raft.state rf) StateLeader) eqn:Hst; [|left; by subst r].
  apply NodeState_eqb_eq in Hst. cbn [negb] in Hr.
  unfold bind at 1 in Hr.
  pose proof (onLog_lastIndex_state rf) as Hs.
  destruct (onLog lastIndex rf) as [[last|msg] s]; cbn in Hs; subst s; [|left; by subst r].
  subst r.
  destruct (advanceLoop_only_raises
              (S (Z.to_nat (last - Raft.commitIndex rf))) last rf)
    as [H|(j & e & H1 & H2 & H3 & H4)]; [by left|].
  right. by exists j, e.
Qed.

(** X7: whatever the state of the node, and whether it returns or
    panics, [advanceCommitIndexForLeader] either leaves the node exactly
    as it was, or the node is a leader and the call raises [commitIndex]
    to an index above the old one whose entry is of the current term,
    signals the applier once and changes nothing else. *)
Theorem advanceCommitIndexForLeader_only_raises rf :
  snd (advanceCommitIndexForLeader rf) = rf \/
  exists j e,
    Raft.state rf = StateLeader /\
    Raft.commitIndex rf < j /\
    onLog (getEntry j) rf = (Val e, rf) /\
    Entry.Term e = Raft.currentTerm rf /\
    advanceCommitIndexForLeader rf = (Val tt, committed j rf).
Proof. apply advanceCommitIndexForLeader_raises. Qed.

Lemma BroadcastAppend_loop_HeartBeat ps : forall rf,
  BroadcastAppend_loop HeartBeat ps rf =
  (Val tt,
   Raft.set_goroutines
     (Raft.goroutines rf
      ++ (Z.of_nat <$> filter (fun j => Z.of_nat j <> Raft.me rf) ps)) rf).
Proof.
  induction ps as [|p ps IH]; intros rf.
  - cbn. rewrite app_nil_r. by destruct rf.
  - destruct (decide (Z.of_nat p = Raft.me rf)) as [Hp|Hp].
    + rewrite filter_cons_False by naive_solver.
      cbn [BroadcastAppend_loop]. unfold bind at 1, get at 1.
      rewrite (proj2 (Z.eqb_eq _ _) Hp).
      unfold bind at 1, ret at 1. apply IH.
    + rewrite filter_cons_True by done. rewrite fmap_cons.
      cbn [BroadcastAppend_loop]. unfold bind at 1, get at 1.
      rewrite (proj2 (Z.eqb_neq _ _) Hp).
      unfold bind at 1, goAppendOneRound, modify. rewrite IH.
      cbn [Raft.goroutines Raft.set_goroutines Raft.me].
      rewrite <- app_assoc. by destruct rf.
Qed.

(** X8: [BroadcastAppend(HeartBeat)] never panics and signals no
    replicator: it starts one [appendOneRound] for every peer position
    other than the node's own, in the order of the positions, and
    changes nothing else. *)
Theorem BroadcastAppend_HeartBeat rf :
  exists launched,
    BroadcastAppend HeartBeat rf
      = (Val tt, Raft.set_goroutines (Raft.goroutines rf ++ launched) rf) /\
    launched
      = (Z.of_nat <$> filter (fun j => Z.of_nat j <> Raft.me rf) (seq 0 (Raft.peers rf))) /\
    (forall p, p ∈ launched <-> 0 <= p < Z.of_nat (Raft.peers rf) /\ p <> Raft.me rf) /\
    NoDup launched.
Proof.
  eexists. split; [|split; [reflexivity|split]].
  - unfold BroadcastAppend. step. by rewrite BroadcastAppend_loop_HeartBeat.
  - intros p. rewrite list_elem_of_fmap. split.
    + intros (j & -> & [Hj Hin]%list_elem_of_filter). apply elem_of_seq in Hin. lia.
    + intros [Hr Hp]. exists (Z.to_nat p). split; [lia|].
      apply list_elem_of_filter. split; [lia|]. apply elem_of_seq. lia.
  - apply NoDup_fmap; [apply _|]. apply NoDup_filter, NoDup_seq.
Qed.

(** ** The receiver *)

(** X9: a request of a term behind the node's own is refused without any
    effect on the node but the persisted blob: the reply carries the
    node's term and [false] (its [ConflictIndex] is left as the caller
    passed it), and the role, the term, the vote, the log, the commit
    index and the election timer are what they were. *)
Theorem HandleAppendEntries_stale_term args rf reply :
  wf_log (Raft.raftLog rf) = true ->
  AppendEntriesArgs.Term args < Raft.currentTerm rf ->
  HandleAppendEntries args (rf, reply) =
  (Val tt,
   (Raft.set_persister
      (Some (mkBlob (Raft.currentTerm rf) (Raft.votedFor rf) (logs (Raft.raftLog rf)))) rf,
    AppendEntriesReply.mk (Raft.currentTerm rf) false
      (AppendEntriesReply.ConflictIndex reply))).
Proof.
  intros Hwf Hterm.
  unfold HandleAppendEntries, defer.
  step_by ltac:(apply onRf_onLog_read, dummyIndex_run, Hwf).
  step_by ltac:(apply onRf_onLog_read, lastIndex_run, Hwf).
  step. cbn [fst].
  destruct (Z.ltb_spec (AppendEntriesArgs.Term args) (Raft.currentTerm rf)) as [_|?]; [|lia].
  reflexivity.
Qed.

Lemma HandleAppendEntries_stale_term_witness :
  HandleAppendEntries (AppendEntriesArgs.mk 1 1 0 0 [ent 1 1] 1)
    (leaderOne, AppendEntriesReply.zero) =
  (Val tt,
   (Raft.set_persister (Some (mkBlob 2 (-1) [ent 0 0; ent 1 1])) leaderOne,
    AppendEntriesReply.mk 2 false 0)).
Proof.
  apply (HandleAppendEntries_stale_term (AppendEntriesArgs.mk 1 1 0 0 [ent 1 1] 1)
           leaderOne AppendEntriesReply.zero); [reflexivity | by vm_compute].
Defined.

Lemma adoptTerm_fields args rf :
  Raft.commitIndex (adoptTerm args rf) = Raft.commitIndex rf /\
  Raft.lastApplied (adoptTerm args rf) = Raft.lastApplied rf /\
  Raft.applyCond (adoptTerm args rf) = Raft.applyCond rf /\
  Raft.state (adoptTerm args rf) = StateFollower /\
  Raft.electionTimer (adoptTerm args rf) = S (Raft.electionTimer rf) /\
  Raft.nextIndex (adoptTerm args rf) = Raft.nextIndex rf /\
  Raft.matchIndex (adoptTerm args rf) = Raft.matchIndex rf.
Proof.
  unfold adoptTerm.
  by destruct (AppendEntriesArgs.Term args >? Raft.currentTerm rf).
Qed.

Lemma HandleAppendEntries_match_run args rf reply :
  wf_log (Raft.raftLog rf) = true ->
  Raft.currentTerm rf <= AppendEntriesArgs.Term args ->
  term_at (Raft.raftLog rf) (AppendEntriesArgs.PrevLogIndex args)
    = Some (AppendEntriesArgs.PrevLogTerm args) ->
  contiguous_from (AppendEntriesArgs.PrevLogIndex args + 1)
    (AppendEntriesArgs.Entries args) = true ->
  AppendEntriesArgs.PrevLogIndex args + len (AppendEntriesArgs.Entries args)
    < GoInt.max_int ->
  let l' := mkLog (conflict_scan (Raft.raftLog rf) (AppendEntriesArgs.Entries args)) in
  let rf1 := Raft.set_raftLog l' (adoptTerm args rf) in
  let rf2 := if AppendEntriesArgs.LeaderCommit args >? Raft.commitIndex rf
             then committed (Z.min (AppendEntriesArgs.LeaderCommit args) (last_of l')) rf1
             else rf1 in
  wf_log l' = true /\
  HandleAppendEntries args (rf, reply) =
  (Val tt, (snd (persist rf2),
            AppendEntriesReply.mk (AppendEntriesArgs.Term args) true
              (AppendEntriesReply.ConflictIndex reply))).
Proof.
  intros Hwf Hterm Hmatch Hc Hmax l' rf1 rf2.
  unfold GoInt.max_int in Hmax.
  set (l := Raft.raftLog rf) in *.
  set (prev := AppendEntriesArgs.PrevLogIndex args) in *.
  set (ents := AppendEntriesArgs.Entries args) in *.
  pose proof Hmatch as (ep & Hep & _)%term_at_Some.
  destruct (entry_at_Some _ _ _ Hwf Hep) as (Hr & _).
  destruct (wf_log_bounds _ Hwf) as (Hb & Hm & Hlen).
  pose proof (conflict_scan_wf l ents prev Hwf Hr Hc ltac:(lia)) as Hwfs.
  split; [exact Hwfs|].
  rewrite HandleAppendEntries_adopt by done.
  assert (Hl : Raft.raftLog (adoptTerm args rf) = l) by apply adoptTerm_raftLog.
  assert (Hwf' : wf_log (Raft.raftLog (adoptTerm args rf)) = true) by (by rewrite Hl).
  assert (Ht : Raft.currentTerm (adoptTerm args rf) = AppendEntriesArgs.Term args)
    by (by apply adoptTerm_currentTerm).
  unfold defer, HandleAppendEntries_log.
  step_by ltac:(by apply onRf_run, onLog_dummyIndex).
  rewrite Hl. fold prev.
  destruct (Z.ltb_spec prev (dummy_of l)); [lia|].
  step.
  step_by ltac:(apply onRf_run, onLog_read, matchLog_run; rewrite ?Hl;
                [done | lia | apply is_int_intro; lia]).
  rewrite Hl. fold prev. rewrite Hmatch, Z.eqb_refl. cbn [negb].
  unfold HandleAppendEntries_append. fold ents.
  step_by ltac:(apply onRf_run, onLog_run; rewrite Hl;
                by apply (scanEntries_run l ents prev)).
  fold l' rf1.
  step. cbn [fst].
  assert (Hci : Raft.commitIndex rf1 = Raft.commitIndex rf).
  { subst rf1. cbn. apply adoptTerm_fields. }
  rewrite Hci.
  erewrite (bind_val _ _ _ tt (rf2, reply)).
  2:{ subst rf2.
      destruct (AppendEntriesArgs.LeaderCommit args >? Raft.commitIndex rf); [|reflexivity].
      step_by ltac:(by apply onRf_run, onLog_lastIndex).
      step. reflexivity. }
  step. cbn [fst].
  assert (Ht2 : Raft.currentTerm rf2 = AppendEntriesArgs.Term args).
  { subst rf2 rf1.
    by destruct (AppendEntriesArgs.LeaderCommit args >? Raft.commitIndex rf). }
  rewrite Ht2. reflexivity.
Qed.

(** X10: when the log matches the request at [PrevLogIndex] (and the
    entries of the request carry consecutive indices from
    [PrevLogIndex + 1]), the handler accepts: the node is a follower of
    the term of the request with its election timer reset, the reply is
    [(term, true)], and [commitIndex] becomes
    [min(LeaderCommit, lastIndex)] of the log as it is after the request
    with one signal to the applier if [LeaderCommit] exceeds it, and is
    untouched otherwise.  A request without entries (a heartbeat) leaves
    the log alone and still moves the commit index. *)
Theorem HandleAppendEntries_commit args rf reply :
  wf_log (Raft.raftLog rf) = true ->
  Raft.currentTerm rf <= AppendEntriesArgs.Term args ->
  term_at (Raft.raftLog rf) (AppendEntriesArgs.PrevLogIndex args)
    = Some (AppendEntriesArgs.PrevLogTerm args) ->
  contiguous_from (AppendEntriesArgs.PrevLogIndex args + 1)
    (AppendEntriesArgs.Entries args) = true ->
  AppendEntriesArgs.PrevLogIndex args + len (AppendEntriesArgs.Entries args)
    < GoInt.max_int ->
  exists rf',
    HandleAppendEntries args (rf, reply) =
    (Val tt, (rf', AppendEntriesReply.mk (AppendEntriesArgs.Term args) true
                     (AppendEntriesReply.ConflictIndex reply))) /\
    Raft.state rf' = StateFollower /\
    Raft.currentTerm rf' = AppendEntriesArgs.Term args /\
    Raft.electionTimer rf' = S (Raft.electionTimer rf) /\
    Raft.lastApplied rf' = Raft.lastApplied rf /\
    Raft.persister rf' =
      Some (mkBlob (AppendEntriesArgs.Term args) (Raft.votedFor rf')
                   (logs (Raft.raftLog rf'))) /\
    (AppendEntriesArgs.Entries args = [] -> Raft.raftLog rf' = Raft.raftLog rf) /\
    (AppendEntriesArgs.LeaderCommit args > Raft.commitIndex rf ->
     Raft.commitIndex rf' =
       Z.min (AppendEntriesArgs.LeaderCommit args) (last_of (Raft.raftLog rf')) /\
     Raft.applyCond rf' = S (Raft.applyCond rf)) /\
    (AppendEntriesArgs.LeaderCommit args <= Raft.commitIndex rf ->
     Raft.commitIndex rf' = Raft.commitIndex rf /\
     Raft.applyCond rf' = Raft.applyCond rf).
Proof.
  intros Hwf Hterm Hmatch Hc Hmax.
  destruct (HandleAppendEntries_match_run args rf reply Hwf Hterm Hmatch Hc Hmax)
    as [Hwf' Hrun].
  cbv zeta in Hrun.
  eexists. split; [exact Hrun|].
  rewrite persist_run. cbn [snd].
  assert (Ht : Raft.currentTerm (adoptTerm args rf) = AppendEntriesArgs.Term args)
    by (by apply adoptTerm_currentTerm).
  pose proof (adoptTerm_fields args rf) as (F1 & F2 & F3 & F4 & F5 & _).
  set (A := adoptTerm args rf) in *. clearbody A.
  destruct (Z.gtb_spec (AppendEntriesArgs.LeaderCommit args) (Raft.commitIndex rf)) as [Hlc|Hlc].
  - cbn. rewrite Ht, F2, F3, F4, F5.
    split; [done|]. split; [done|]. split; [done|]. split; [done|]. split; [done|].
    split. { intros ->. cbn. apply mkLog_logs. }
    split; [|intros; lia]. done.
  - cbn. rewrite Ht, F1, F2, F3, F4, F5.
    split; [done|]. split; [done|]. split; [done|]. split; [done|]. split; [done|].
    split. { intros ->. cbn. apply mkLog_logs. }
    split; [intros; lia|]. done.
Qed.

Lemma HandleAppendEntries_commit_witness :
  exists rf',
    HandleAppendEntries (AppendEntriesArgs.mk 2 1 3 2 [] 2)
      (node3 StateCandidate 2 (followerLog 1 2) 0 0 [0; 0; 0] [0; 0; 0],
       AppendEntriesReply.zero) =
    (Val tt, (rf', AppendEntriesReply.mk 2 true 0)) /\
    Raft.state rf' = StateFollower /\
    Raft.raftLog rf' = mkLog (followerLog 1 2) /\
    Raft.commitIndex rf' = 2 /\
    Raft.applyCond rf' = 1%nat.
Proof.
  destruct (HandleAppendEntries_commit (AppendEntriesArgs.mk 2 1 3 2 [] 2)
              (node3 StateCandidate 2 (followerLog 1 2) 0 0 [0; 0; 0] [0; 0; 0])
              AppendEntriesReply.zero)
    as (rf' & Hrun & Hst & _ & _ & _ & _ & Hlog & Hc & _);
    [reflexivity | by vm_compute | reflexivity | reflexivity | by vm_compute |].
  exists rf'. split; [exact Hrun|]. split; [exact Hst|].
  split; [by apply Hlog|].
  destruct Hc as [Hc1 Hc2]; [by vm_compute|].
  split; [|exact Hc2]. rewrite Hc1, (Hlog eq_refl). reflexivity.
Defined.

(** ** One round of replication, end to end *)

Lemma advanceCommitIndexForLeader_returns rf :
  commit_ready rf = true ->
  exists rf',
    advanceCommitIndexForLeader rf = (Val tt, rf') /\
    (rf' = rf \/
     exists j, Raft.commitIndex rf < j <= last_of (Raft.raftLog rf) /\
               rf' = committed j rf).
Proof.
  intros Hcr. destruct (commit_ready_inv _ Hcr) as (Hwf & Hd & Hp & Hn).
  unfold advanceCommitIndexForLeader. step.
  destruct (NodeState_eqb (Raft.state rf) StateLeader); [|by exists rf; split; [|left]].
  cbn [negb]. step_by ltac:(by apply onLog_lastIndex).
  destruct (Z.le_gt_cases (Raft.commitIndex rf) (last_of (Raft.raftLog rf))) as [Hle|Hgt].
  - destruct (advanceLoop_spec rf
                (S (Z.to_nat (last_of (Raft.raftLog rf) - Raft.commitIndex rf)))
                (last_of (Raft.raftLog rf)) Hcr ltac:(lia) ltac:(lia))
      as [(j & Hj & Hc & _ & Hrun)|[_ Hrun]].
    + exists (committed j rf). split; [done|]. right. exists j. split; [|done].
      by destruct Hc.
    + exists rf. split; [done|by left].
  - exists rf. split; [|by left].
    cbn [advanceLoop]. step.
    by destruct (Z.gtb_spec (last_of (Raft.raftLog rf)) (Raft.commitIndex rf)); [lia|].
Qed.

Lemma set_nextIndex_same rf : Raft.set_nextIndex (Raft.nextIndex rf) rf = rf.
Proof. by destruct rf. Qed.

Lemma processAppendEntriesReply_caught_up peer args reply rf next mtch :
  commit_ready rf = true -> Raft.state rf = StateLeader ->
  AppendEntriesReply.Term reply = Raft.currentTerm rf ->
  AppendEntriesArgs.Term args = Raft.currentTerm rf ->
  AppendEntriesReply.Success reply = true ->
  0 <= peer ->
  Raft.nextIndex rf !! Z.to_nat peer = Some next ->
  Raft.matchIndex rf !! Z.to_nat peer = Some mtch ->
  0 < next ->
  AppendEntriesArgs.PrevLogIndex args = next - 1 ->
  len (AppendEntriesArgs.Entries args) + AppendEntriesArgs.PrevLogIndex args
    = last_of (Raft.raftLog rf) ->
  let last := last_of (Raft.raftLog rf) in
  let rfA := Raft.set_matchIndex (<[Z.to_nat peer := Z.max mtch last]> (Raft.matchIndex rf))
               (Raft.set_nextIndex (<[Z.to_nat peer := last + 1]> (Raft.nextIndex rf)) rf) in
  exists rf',
    processAppendEntriesReply peer args reply rf = (Val tt, rf') /\
    (rf' = rfA \/ exists j, Raft.commitIndex rf < j <= last /\ rf' = committed j rfA).
Proof.
  intros Hcr Hst Hrt Hat Hs Hp Hn Hm Hpos Hprev Hlen last rfA.
  destruct (commit_ready_inv _ Hcr) as (Hwf & Hd & Hpe & Hpn).
  destruct (wf_log_bounds _ Hwf) as (Hb & Hmx & Hll).
  assert (Hl0 : 0 <= len (AppendEntriesArgs.Entries args)) by (unfold len; lia).
  fold last in Hlen, Hmx, Hb.
  unfold processAppendEntriesReply. step.
  destruct (Z.gtb_spec (AppendEntriesReply.Term reply) (Raft.currentTerm rf)); [lia|].
  rewrite Hrt, Hat, Z.eqb_refl, (proj2 (NodeState_eqb_eq _ _) Hst). cbn [andb].
  step_by ltac:(step_by ltac:(by apply index_run); reflexivity).
  rewrite sub_id by (apply is_int_intro; lia).
  rewrite Hprev, Z.eqb_refl, Hs.
  rewrite !add_id by (rewrite ?add_id; apply is_int_intro; lia).
  replace (len (AppendEntriesArgs.Entries args) + (next - 1) + 1) with (last + 1) by lia.
  replace (len (AppendEntriesArgs.Entries args) + (next - 1)) with last by lia.
  rewrite !bind_assoc. step_by ltac:(by apply index_run).
  rewrite !bind_assoc.
  set (rf1 := Raft.set_nextIndex (<[Z.to_nat peer := last + 1]> (Raft.nextIndex rf)) rf).
  erewrite (bind_val _ _ _ tt rf1).
  2:{ subst rf1. destruct (Z.gtb_spec (last + 1) next).
      - unfold bind. by erewrite store_run.
      - assert (next = last + 1) as -> by lia.
        rewrite list_insert_id by done. by rewrite set_nextIndex_same. }
  rewrite !bind_assoc.
  step_by ltac:(by apply index_run).
  rewrite !bind_assoc.
  erewrite (bind_val _ _ _ tt rfA).
  2:{ subst rfA. fold rf1. destruct (Z.gtb_spec last mtch).
      - unfold bind. erewrite store_run by done. cbn.
        by rewrite Z.max_r by lia.
      - rewrite Z.max_l by lia. rewrite list_insert_id by done. by destruct rf. }
  assert (HcrA : commit_ready rfA = true).
  { subst rfA. unfold commit_ready in *. cbn. by rewrite length_insert. }
  destruct (advanceCommitIndexForLeader_returns rfA HcrA) as (rfB & Hrun & HB).
  step_by ltac:(exact Hrun).
  exists rfB. split; [|exact HB].
  assert (HnB : Raft.nextIndex rfB !! Z.to_nat peer = Some (last + 1)).
  { destruct HB as [->|(j & _ & ->)]; cbn;
      apply list_lookup_insert_eq; by eapply lookup_lt_Some. }
  assert (HlB : Raft.raftLog rfB = Raft.raftLog rf).
  { by destruct HB as [->|(j & _ & ->)]. }
  step. step_by ltac:(by apply index_run).
  step_by ltac:(apply onLog_lastIndex; by rewrite HlB).
  rewrite HlB. fold last.
  rewrite add_id by (apply is_int_intro; lia).
  by rewrite Z.eqb_refl.
Qed.

Lemma conflict_scan_prefix L k ents : forall n,
  wf_log L = true -> wf_log (mkLog (take k (logs L))) = true ->
  (n <= k)%nat -> drop n (logs L) = ents ->
  conflict_scan (mkLog (take k (logs L))) ents = logs L.
Proof.
  intros n HL HF. revert n.
  set (F := mkLog (take k (logs L))) in *.
  destruct (wf_log_inv _ HL) as (HdL & _ & HnL & HiL).
  destruct (wf_log_inv _ HF) as (HdF & _ & HnF & HiF).
  destruct (wf_log_bounds _ HF) as (_ & _ & HlenF).
  assert (Hd : dummy_of F = dummy_of L).
  { unfold dummy_of, F. cbn [logs]. destruct (logs L) as [|e0 es]; [cbn in HnL; lia|].
    destruct k; [cbn in HnF; lia|done]. }
  assert (HFl : len (logs F) = Z.of_nat (k `min` length (logs L))).
  { unfold F, len. cbn [logs]. by rewrite length_take. }
  induction ents as [|e rest IH]; intros n Hn Hdr.
  - cbn. apply take_ge.
    assert (length (drop n (logs L)) = 0%nat) as Hz by (by rewrite Hdr).
    rewrite length_drop in Hz. lia.
  - assert (He : logs L !! n = Some e).
    { rewrite <- (Nat.add_0_r n), <- lookup_drop, Hdr. done. }
    assert (Hrest : drop (S n) (logs L) = rest).
    { rewrite (drop_S _ _ _ He) in Hdr. by injection Hdr. }
    pose proof (lookup_lt_Some _ _ _ He) as Hlt.
    pose proof (HiL _ _ He) as Hidx.
    cbn [conflict_scan].
    destruct (decide (n < k)%nat) as [Hnk|Hnk].
    + assert ((last_of F <? Entry.Index e) = false) as ->.
      { apply Z.ltb_ge. unfold last_of. rewrite HFl, Hd, Hidx. lia. }
      assert (term_at F (Entry.Index e) = Some (Entry.Term e)) as ->.
      { unfold term_at, entry_at. rewrite Hd, Hidx.
        destruct (Z.ltb_spec (dummy_of L + Z.of_nat n) (dummy_of L)); [lia|].
        replace (Z.to_nat (dummy_of L + Z.of_nat n - dummy_of L)) with n by lia.
        unfold F. cbn [logs]. rewrite lookup_take_lt by done. by rewrite He. }
      rewrite bool_decide_eq_true_2 by done. cbn [negb orb].
      apply (IH (S n)); [lia|done].
    + assert (n = k) as -> by lia.
      assert ((last_of F <? Entry.Index e) = true) as ->.
      { apply Z.ltb_lt. unfold last_of. rewrite HFl, Hd, Hidx. lia. }
      cbn [orb]. rewrite truncate_at_take by done.
      rewrite Hd, Hidx.
      replace (Z.to_nat (dummy_of L + Z.of_nat k - dummy_of L)) with k by lia.
      unfold F. cbn [logs]. rewrite take_take, Nat.min_id.
      rewrite <- Hdr. apply take_drop.
Qed.

Lemma dummy_of_take L k :
  wf_log L = true -> wf_log (mkLog (take k (logs L))) = true ->
  dummy_of (mkLog (take k (logs L))) = dummy_of L.
Proof.
  intros HL HF.
  destruct (wf_log_inv _ HL) as (_ & _ & HnL & _).
  destruct (wf_log_inv _ HF) as (_ & _ & HnF & _).
  unfold dummy_of. cbn [logs] in *. destruct (logs L) as [|e0 es]; [cbn in HnL; lia|].
  destruct k; [cbn in HnF; lia|done].
Qed.

(** X12: one round of replication to a follower that lags behind.  When
    the log of the follower is a prefix of the log of the leader that
    reaches [nextIndex[peer] - 1], and the follower is not of a later
    term, the request the leader builds is accepted, the log of the
    follower becomes the log of the leader, and the leader, on the
    reply, sets [nextIndex[peer]] to [lastIndex + 1] and [matchIndex[peer]]
    to at least [lastIndex], does not lower its commit index, does not
    signal the replicator again, and [needAppend(peer)] answers false. *)
Theorem appendOneRound_catches_up peer next mtch k leader follower :
  commit_ready leader = true -> Raft.state leader = StateLeader ->
  0 <= peer ->
  Raft.nextIndex leader !! Z.to_nat peer = Some next ->
  Raft.matchIndex leader !! Z.to_nat peer = Some mtch ->
  dummy_of (Raft.raftLog leader) + 1 <= next <= last_of (Raft.raftLog leader) + 1 ->
  wf_log (Raft.raftLog follower) = true ->
  Raft.currentTerm follower <= Raft.currentTerm leader ->
  logs (Raft.raftLog follower) = take k (logs (Raft.raftLog leader)) ->
  (Z.to_nat (next - dummy_of (Raft.raftLog leader)) <= k)%nat ->
  exists args leader',
    appendOneRound_args peer leader = (Val (Some args), leader) /\
    HandleAppendEntries args (follower, AppendEntriesReply.zero) =
      (Val tt, (received follower args,
                AppendEntriesReply.mk (Raft.currentTerm leader) true 0)) /\
    Raft.raftLog (received follower args) = Raft.raftLog leader /\
    Raft.currentTerm (received follower args) = Raft.currentTerm leader /\
    appendOneRound (deliver follower) peer leader = (Val tt, leader') /\
    Raft.nextIndex leader' !! Z.to_nat peer = Some (last_of (Raft.raftLog leader) + 1) /\
    Raft.matchIndex leader' !! Z.to_nat peer
      = Some (Z.max mtch (last_of (Raft.raftLog leader))) /\
    Raft.raftLog leader' = Raft.raftLog leader /\
    Raft.commitIndex leader <= Raft.commitIndex leader' /\
    Raft.tryAppendCond leader' = Raft.tryAppendCond leader /\
    needAppend peer leader' = (Val false, leader').
Proof.
  intros Hcr Hst Hp Hn Hm Hr HwfF Hterm Hpre Hk.
  destruct (commit_ready_inv _ Hcr) as (HwfL & Hd & Hpe & Hpn).
  destruct (wf_log_bounds _ HwfL) as (Hb & Hmx & Hlen).
  set (L := Raft.raftLog leader) in *.
  destruct (appendOneRound_args_run peer next leader HwfL Hst Hp Hn Hr)
    as (t & Ht & Hargs & Hcont).
  fold L in Ht, Hargs, Hcont.
  set (ents := drop (Z.to_nat (next - dummy_of L)) (logs L)) in *.
  set (args := AppendEntriesArgs.mk (Raft.currentTerm leader) (Raft.me leader)
                 (next - 1) t ents (Raft.commitIndex leader)) in *.
  assert (HF : Raft.raftLog follower = mkLog (take k (logs L))).
  { destruct (Raft.raftLog follower) as [fl]. cbn in Hpre. by subst fl. }
  rewrite HF in HwfF.
  pose proof (dummy_of_take L k HwfL HwfF) as HdF.
  assert (Hlents : len ents = last_of L - next + 1).
  { unfold ents, len in *. rewrite length_drop. lia. }
  assert (HtF : term_at (Raft.raftLog follower) (AppendEntriesArgs.PrevLogIndex args)
                = Some (AppendEntriesArgs.PrevLogTerm args)).
  { rewrite HF. cbn [args AppendEntriesArgs.PrevLogIndex AppendEntriesArgs.PrevLogTerm].
    apply term_at_Some in Ht as (e & He & Hte).
    destruct (entry_at_Some _ _ _ HwfL He) as (_ & _ & Hl).
    apply term_at_Some. exists e. split; [|done].
    unfold entry_at. rewrite HdF.
    destruct (Z.ltb_spec (next - 1) (dummy_of L)); [lia|].
    cbn [logs]. rewrite lookup_take_lt by lia. done. }
  destruct (HandleAppendEntries_match_run args follower AppendEntriesReply.zero)
    as [HwfF' Hrun]; try done.
  { rewrite HF. done. }
  { cbn [args AppendEntriesArgs.PrevLogIndex AppendEntriesArgs.Entries].
    by replace (next - 1 + 1) with next by lia. }
  { cbn [args AppendEntriesArgs.PrevLogIndex AppendEntriesArgs.Entries].
    unfold GoInt.max_int. lia. }
  cbv zeta in Hrun.
  assert (Hscan : conflict_scan (Raft.raftLog follower) (AppendEntriesArgs.Entries args)
                  = logs L).
  { rewrite HF. by apply (conflict_scan_prefix L k ents (Z.to_nat (next - dummy_of L))). }
  rewrite Hscan, mkLog_logs in Hrun.
  assert (Hrecv : received follower args = fst (snd (HandleAppendEntries args
                    (follower, AppendEntriesReply.zero)))) by reflexivity.
  rewrite Hrun in Hrecv. cbn [fst snd] in Hrecv.
  assert (Hdel : deliver follower peer args
                 = Some (AppendEntriesReply.mk (Raft.currentTerm leader) true 0)).
  { unfold deliver. by rewrite Hrun. }
  destruct (processAppendEntriesReply_caught_up peer args
              (AppendEntriesReply.mk (Raft.currentTerm leader) true 0) leader next mtch)
    as (leader' & Hproc & HB); try done.
  { lia. }
  { cbn [args AppendEntriesArgs.PrevLogIndex AppendEntriesArgs.Entries]. fold L. lia. }
  fold L in HB.
  exists args, leader'.
  split; [exact Hargs|].
  split; [by rewrite Hrecv|].
  assert (HtA : Raft.currentTerm (adoptTerm args follower) = Raft.currentTerm leader)
    by (by apply (adoptTerm_currentTerm args follower)).
  set (A := adoptTerm args follower) in *. clearbody A.
  split. { rewrite Hrecv, persist_run. cbn [snd].
           by destruct (AppendEntriesArgs.LeaderCommit args >? Raft.commitIndex follower). }
  split. { rewrite Hrecv, persist_run. cbn [snd].
           by destruct (AppendEntriesArgs.LeaderCommit args >? Raft.commitIndex follower). }
  split. { unfold appendOneRound. step_by ltac:(exact Hargs). cbv beta iota. by rewrite Hdel. }
  assert (Hlt1 : (Z.to_nat peer < length (Raft.nextIndex leader))%nat)
    by (by eapply lookup_lt_Some).
  assert (Hlt2 : (Z.to_nat peer < length (Raft.matchIndex leader))%nat)
    by (by eapply lookup_lt_Some).
  assert (Hfacts :
    Raft.nextIndex leader' !! Z.to_nat peer = Some (last_of L + 1) /\
    Raft.matchIndex leader' !! Z.to_nat peer = Some (Z.max mtch (last_of L)) /\
    Raft.raftLog leader' = L /\
    Raft.commitIndex leader <= Raft.commitIndex leader' /\
    Raft.tryAppendCond leader' = Raft.tryAppendCond leader /\
    Raft.state leader' = StateLeader).
  { destruct HB as [->|(j & Hj & ->)]; cbn;
      rewrite !list_lookup_insert_eq by done; repeat split; try done; lia. }
  destruct Hfacts as (F1 & F2 & F3 & F4 & F5 & F6).
  do 5 (split; [done|]).
  unfold needAppend. step. rewrite (proj2 (NodeState_eqb_eq _ _) F6).
  step_by ltac:(by apply index_run).
  step_by ltac:(apply onLog_lastIndex; by rewrite F3).
  rewrite F3. unfold ret. do 2 f_equal. apply Z.ltb_ge. lia.
Qed.

Lemma appendOneRound_catches_up_witness :
  exists args leader',
    appendOneRound_args 2 leaderNewTerm = (Val (Some args), leaderNewTerm) /\
    HandleAppendEntries args (freshFollower, AppendEntriesReply.zero) =
      (Val tt, (received freshFollower args,
                AppendEntriesReply.mk (Raft.currentTerm leaderNewTerm) true 0)) /\
    Raft.raftLog (received freshFollower args) = Raft.raftLog leaderNewTerm /\
    Raft.currentTerm (received freshFollower args) = Raft.currentTerm leaderNewTerm /\
    appendOneRound (deliver freshFollower) 2 leaderNewTerm = (Val tt, leader') /\
    Raft.nextIndex leader' !! Z.to_nat 2 = Some (last_of (Raft.raftLog leaderNewTerm) + 1) /\
    Raft.matchIndex leader' !! Z.to_nat 2
      = Some (Z.max 0 (last_of (Raft.raftLog leaderNewTerm))) /\
    Raft.raftLog leader' = Raft.raftLog leaderNewTerm /\
    Raft.commitIndex leaderNewTerm <= Raft.commitIndex leader' /\
    Raft.tryAppendCond leader' = Raft.tryAppendCond leaderNewTerm /\
    needAppend 2 leader' = (Val false, leader').
Proof.
  apply (appendOneRound_catches_up 2 1 0 1%nat leaderNewTerm freshFollower);
    [reflexivity | reflexivity | lia | reflexivity | reflexivity | by vm_compute
    | reflexivity | by vm_compute | reflexivity | by vm_compute].
Defined.

Lemma processAppendEntriesReply_rejected peer args reply rf next n :
  wf_log (Raft.raftLog rf) = true -> Raft.state rf = StateLeader ->
  AppendEntriesReply.Term reply = Raft.currentTerm rf ->
  AppendEntriesArgs.Term args = Raft.currentTerm rf ->
  AppendEntriesReply.Success reply = false ->
  0 <= peer ->
  Raft.nextIndex rf !! Z.to_nat peer = Some next ->
  GoInt.is_int (next - 1) ->
  AppendEntriesArgs.PrevLogIndex args = next - 1 ->
  Raft.tryAppendCond rf !! Z.to_nat peer = Some (Some n) ->
  let rf1 := Raft.set_nextIndex
               (<[Z.to_nat peer := AppendEntriesReply.ConflictIndex reply]> (Raft.nextIndex rf))
               rf in
  processAppendEntriesReply peer args reply rf =
  (Val tt,
   if AppendEntriesReply.ConflictIndex reply =? last_of (Raft.raftLog rf) + 1
   then rf1
   else Raft.set_tryAppendCond (<[Z.to_nat peer := Some (S n)]> (Raft.tryAppendCond rf)) rf1).
Proof.
  intros Hwf Hst Hrt Hat Hs Hp Hn Hint Hprev Hc rf1.
  destruct (wf_log_bounds _ Hwf) as (Hb & Hmx & Hll).
  unfold processAppendEntriesReply. step.
  destruct (Z.gtb_spec (AppendEntriesReply.Term reply) (Raft.currentTerm rf)); [lia|].
  rewrite Hrt, Hat, Z.eqb_refl, (proj2 (NodeState_eqb_eq _ _) Hst). cbn [andb].
  step_by ltac:(step_by ltac:(by apply index_run); reflexivity).
  rewrite sub_id by done.
  rewrite Hprev, Z.eqb_refl, Hs.
  rewrite !bind_assoc.
  step_by ltac:(by eapply store_run).
  step. fold rf1. step.
  assert (Hlt : (Z.to_nat peer < length (Raft.nextIndex rf))%nat)
    by (by eapply lookup_lt_Some).
  step_by ltac:(apply index_run; [done|]; subst rf1; cbn;
                by apply list_lookup_insert_eq).
  step_by ltac:(by apply onLog_lastIndex).
  cbn [Raft.raftLog rf1 Raft.set_nextIndex].
  rewrite add_id by (apply is_int_intro; lia).
  destruct (AppendEntriesReply.ConflictIndex reply =? last_of (Raft.raftLog rf) + 1);
    [reflexivity|].
  cbn [negb]. rewrite <- (Z2Nat.id peer) at 1 by done.
  by rewrite (signalTryAppendCond_run (Z.to_nat peer) n rf1).
Qed.

(** X13: one round of replication to a follower whose log does not hold,
    at [nextIndex[peer] - 1], the term the leader has there.  The
    follower refuses, and the leader, on the reply, moves
    [nextIndex[peer]] to the conflict index, which lies strictly below
    the old [nextIndex[peer]] (and above the dummy index of the follower
    when the index asked about does), signals the replicator of the
    peer once more, and changes nothing else. *)
Theorem appendOneRound_backs_off peer next n leader follower :
  wf_log (Raft.raftLog leader) = true -> Raft.state leader = StateLeader ->
  0 <= peer ->
  Raft.nextIndex leader !! Z.to_nat peer = Some next ->
  dummy_of (Raft.raftLog leader) + 1 <= next <= last_of (Raft.raftLog leader) + 1 ->
  Raft.tryAppendCond leader !! Z.to_nat peer = Some (Some n) ->
  wf_log (Raft.raftLog follower) = true ->
  Raft.currentTerm follower <= Raft.currentTerm leader ->
  dummy_of (Raft.raftLog follower) <= next - 1 ->
  term_at (Raft.raftLog follower) (next - 1) <> term_at (Raft.raftLog leader) (next - 1) ->
  exists c args,
    appendOneRound_args peer leader = (Val (Some args), leader) /\
    AppendEntriesArgs.PrevLogIndex args = next - 1 /\
    deliver follower peer args
      = Some (AppendEntriesReply.mk (Raft.currentTerm leader) false c) /\
    appendOneRound (deliver follower) peer leader =
    (Val tt,
     Raft.set_tryAppendCond (<[Z.to_nat peer := Some (S n)]> (Raft.tryAppendCond leader))
       (Raft.set_nextIndex (<[Z.to_nat peer := c]> (Raft.nextIndex leader)) leader)) /\
    c < next /\
    (dummy_of (Raft.raftLog follower) < next - 1 -> dummy_of (Raft.raftLog follower) < c) /\
    (last_of (Raft.raftLog follower) < next - 1 -> c = last_of (Raft.raftLog follower) + 1).
Proof.
  intros HwfL Hst Hp Hn Hr Hc HwfF Hterm HdF Hne.
  destruct (wf_log_bounds _ HwfL) as (Hb & Hmx & Hlen).
  destruct (appendOneRound_args_run peer next leader HwfL Hst Hp Hn Hr)
    as (t & Ht & Hargs & _).
  set (args := AppendEntriesArgs.mk _ _ _ _ _ _) in *.
  destruct (HandleAppendEntries_mismatch args follower AppendEntriesReply.zero)
    as (c & Hrun & H1 & H2 & H3 & H4); try done.
  { apply is_int_intro. cbn. lia. }
  { cbn [args AppendEntriesArgs.PrevLogIndex AppendEntriesArgs.PrevLogTerm].
    by rewrite <- Ht. }
  cbn [args AppendEntriesArgs.PrevLogIndex AppendEntriesArgs.Term] in Hrun, H1, H2, H3, H4.
  assert (Hdel : deliver follower peer args
                 = Some (AppendEntriesReply.mk (Raft.currentTerm leader) false c)).
  { unfold deliver. by rewrite Hrun. }
  assert (Hcn : c < next).
  { destruct (Z.lt_ge_cases (last_of (Raft.raftLog follower)) (next - 1)) as [Hlt|Hge].
    - rewrite (H1 Hlt). lia.
    - destruct (H2 ltac:(lia)) as (? & _). lia. }
  exists c, args. split; [exact Hargs|]. split; [reflexivity|].
  split; [exact Hdel|]. split; [|by repeat split].
  unfold appendOneRound. step_by ltac:(exact Hargs). cbv beta iota. rewrite Hdel.
  rewrite (processAppendEntriesReply_rejected peer args _ leader next n); try done.
  - cbn [AppendEntriesReply.ConflictIndex].
    by destruct (Z.eqb_spec c (last_of (Raft.raftLog leader) + 1)); [lia|].
  - apply is_int_intro. lia.
Qed.

Lemma appendOneRound_backs_off_witness :
  exists c args,
    appendOneRound_args 1 leaderTwo = (Val (Some args), leaderTwo) /\
    AppendEntriesArgs.PrevLogIndex args = 3 - 1 /\
    deliver (node3 StateFollower 1 [ent 0 0; ent 1 1; ent 2 1] 0 0 [0; 0; 0] [0; 0; 0]) 1
      args
      = Some (AppendEntriesReply.mk (Raft.currentTerm leaderTwo) false c) /\
    appendOneRound
      (deliver (node3 StateFollower 1 [ent 0 0; ent 1 1; ent 2 1] 0 0 [0; 0; 0] [0; 0; 0]))
      1 leaderTwo =
    (Val tt,
     Raft.set_tryAppendCond (<[Z.to_nat 1 := Some 1%nat]> (Raft.tryAppendCond leaderTwo))
       (Raft.set_nextIndex (<[Z.to_nat 1 := c]> (Raft.nextIndex leaderTwo)) leaderTwo)) /\
    c < 3 /\
    (dummy_of (mkLog [ent 0 0; ent 1 1; ent 2 1]) < 3 - 1 ->
     dummy_of (mkLog [ent 0 0; ent 1 1; ent 2 1]) < c) /\
    (last_of (mkLog [ent 0 0; ent 1 1; ent 2 1]) < 3 - 1 ->
     c = last_of (mkLog [ent 0 0; ent 1 1; ent 2 1]) + 1).
Proof.
  apply (appendOneRound_backs_off 1 3 0%nat leaderTwo
           (node3 StateFollower 1 [ent 0 0; ent 1 1; ent 2 1] 0 0 [0; 0; 0] [0; 0; 0]));
    [reflexivity | reflexivity | lia | reflexivity | by vm_compute | reflexivity
    | reflexivity | by vm_compute | by vm_compute | by vm_compute].
Defined.

(** ** The request of the sender *)

(** X11: what [appendOneRound] sends.  A node that is not the leader
    sends nothing.  A leader whose [nextIndex[peer]] lies between
    [dummyIndex + 1] and [lastIndex + 1] sends its term, its position,
    [PrevLogIndex = nextIndex[peer] - 1] with the term stored there, its
    commit index, and a copy of the entries from [nextIndex[peer]] to the
    last one in order (none when [nextIndex[peer] = lastIndex + 1]: a
    heartbeat); the node is not changed.  With [nextIndex[peer]] at or
    below the dummy index it panics. *)
Theorem appendOneRound_args_request peer rf :
  wf_log (Raft.raftLog rf) = true ->
  (Raft.state rf <> StateLeader -> appendOneRound_args peer rf = (Val None, rf)) /\
  (Raft.state rf = StateLeader ->
   forall next,
     0 <= peer -> Raft.nextIndex rf !! Z.to_nat peer = Some next ->
     GoInt.is_int (next - 1) ->
     (next <= dummy_of (Raft.raftLog rf) ->
      appendOneRound_args peer rf = (Panic "weird", rf)) /\
     (dummy_of (Raft.raftLog rf) + 1 <= next <= last_of (Raft.raftLog rf) + 1 ->
      exists t ents,
        appendOneRound_args peer rf =
        (Val (Some (AppendEntriesArgs.mk (Raft.currentTerm rf) (Raft.me rf) (next - 1) t
                      ents (Raft.commitIndex rf))), rf) /\
        term_at (Raft.raftLog rf) (next - 1) = Some t /\
        Entry.Index <$> ents = seqZ next (last_of (Raft.raftLog rf) - next + 1) /\
        (forall e, e ∈ ents -> entry_at (Raft.raftLog rf) (Entry.Index e) = Some e) /\
        (next = last_of (Raft.raftLog rf) + 1 -> ents = []))).
Proof.
  intros Hwf. destruct (wf_log_bounds _ Hwf) as (Hb & Hmx & Hlen). split.
  - intros Hst. unfold appendOneRound_args. step.
    destruct (NodeState_eqb (Raft.state rf) StateLeader) eqn:E; [|done].
    by apply NodeState_eqb_eq in E.
  - intros Hst next Hp Hn Hint. split.
    + intros Hlow. unfold appendOneRound_args. step.
      rewrite (proj2 (NodeState_eqb_eq _ _) Hst). cbn [negb].
      step_by ltac:(by apply index_run).
      rewrite sub_id by done.
      step_by ltac:(by apply onLog_dummyIndex).
      destruct (Z.ltb_spec (next - 1) (dummy_of (Raft.raftLog rf))); [|lia].
      erewrite bind_panic; [reflexivity|].
      by step_by ltac:(by apply index_run).
    + intros Hr.
      destruct (appendOneRound_args_run peer next rf Hwf Hst Hp Hn Hr)
        as (t & Ht & Hargs & Hcont).
      set (n := Z.to_nat (next - dummy_of (Raft.raftLog rf))) in *.
      exists t, (drop n (logs (Raft.raftLog rf))).
      assert (Hl : len (drop n (logs (Raft.raftLog rf)))
                   = last_of (Raft.raftLog rf) - next + 1).
      { unfold len in *. rewrite length_drop. lia. }
      split; [done|]. split; [done|]. split; [|split].
      * by rewrite (contiguous_indices _ _ Hcont), Hl.
      * intros e [k Hk]%list_elem_of_lookup.
        pose proof (contiguous_from_lookup _ _ _ _ Hcont Hk) as Hidx.
        rewrite lookup_drop in Hk.
        unfold entry_at. destruct (Z.ltb_spec (Entry.Index e) (dummy_of (Raft.raftLog rf))); [lia|].
        rewrite <- Hk. f_equal. lia.
      * intros ->. apply nil_length_inv. unfold len in Hl. lia.
Qed.

Lemma appendOneRound_args_request_witness :
  appendOneRound_args 1 freshFollower = (Val None, freshFollower) /\
  (exists t ents,
     appendOneRound_args 2 leaderTwo =
     (Val (Some (AppendEntriesArgs.mk (Raft.currentTerm leaderTwo) (Raft.me leaderTwo)
                   (1 - 1) t ents (Raft.commitIndex leaderTwo))), leaderTwo) /\
     term_at (Raft.raftLog leaderTwo) (1 - 1) = Some t /\
     Entry.Index <$> ents = seqZ 1 (last_of (Raft.raftLog leaderTwo) - 1 + 1) /\
     (forall e, e ∈ ents -> entry_at (Raft.raftLog leaderTwo) (Entry.Index e) = Some e) /\
     (1 = last_of (Raft.raftLog leaderTwo) + 1 -> ents = [])) /\
  appendOneRound_args 1
    (node3 StateLeader 2 [ent 0 0; ent 1 2] 0 0 [2; 0; 2] [0; 0; 0]) =
    (Panic "weird", node3 StateLeader 2 [ent 0 0; ent 1 2] 0 0 [2; 0; 2] [0; 0; 0]).
Proof.
  split; [|split].
  - apply (appendOneRound_args_request 1 freshFollower); [reflexivity | discriminate].
  - apply (appendOneRound_args_request 2 leaderTwo eq_refl);
      [reflexivity | lia | reflexivity | by vm_compute | by vm_compute].
  - eapply (appendOneRound_args_request 1
              (node3 StateLeader 2 [ent 0 0; ent 1 2] 0 0 [2; 0; 2] [0; 0; 0]) eq_refl);
      [reflexivity | lia | reflexivity | by vm_compute | by vm_compute].
Defined.

(** ** The term of a node *)

Lemma defer_snd {S A} (d : M S unit) (body : M S A) s :
  snd (defer d body s) = snd (d (snd (body s))).
Proof.
  unfold defer. destruct (body s) as [[a|msg] s']; cbn; [|done].
  by destruct (d s') as [[?|?] ?].
Qed.

Lemma keeps_onRf {A T} (g : Raft.t -> T) (m : M Raft.t A) :
  keeps g m -> keeps (fun h : Handler => g (fst h)) (onRf m).
Proof.
  intros Hk [rf reply]. unfold onRf, zoom. cbn. specialize (Hk rf).
  by destruct (m rf).
Qed.

Lemma signalTryAppendCond_keeps_termState peer :
  keeps termState (signalTryAppendCond peer).
Proof. unfold signalTryAppendCond; keeps_tac. Qed.

Lemma advanceLoop_keeps_termState fuel : forall i, keeps termState (advanceLoop fuel i).
Proof.
  induction fuel as [|fuel IH]; intros i; cbn [advanceLoop]; keeps_tac;
    try apply countMatch_keeps; try apply IH.
Qed.

Lemma advanceCommitIndexForLeader_keeps_termState :
  keeps termState advanceCommitIndexForLeader.
Proof.
  unfold advanceCommitIndexForLeader.
  repeat first [apply advanceLoop_keeps_termState | keeps_step].
Qed.

Lemma BroadcastAppend_loop_keeps_termState job ps :
  keeps termState (BroadcastAppend_loop job ps).
Proof.
  induction ps as [|p ps IH]; cbn [BroadcastAppend_loop];
    repeat first [apply IH | apply signalTryAppendCond_keeps_termState | keeps_step].
Qed.

Lemma BroadcastAppend_keeps_termState job : keeps termState (BroadcastAppend job).
Proof.
  unfold BroadcastAppend.
  repeat first [apply BroadcastAppend_loop_keeps_termState | keeps_step].
Qed.

Lemma appendOneRound_args_keeps_termState peer :
  keeps termState (appendOneRound_args peer).
Proof. unfold appendOneRound_args, make. keeps_tac. Qed.

Lemma steps_up_termState rf a b :
  termState a = termState b -> steps_up rf a -> steps_up rf b.
Proof. unfold termState, steps_up. intros [= -> -> ->]. done. Qed.

Lemma steps_up_same rf a : termState a = termState rf -> steps_up rf a.
Proof. unfold termState, steps_up. intros [= -> -> ->]. lia. Qed.

Lemma processAppendEntriesReply_steps_up peer args reply rf :
  steps_up rf (snd (processAppendEntriesReply peer args reply rf)).
Proof.
  unfold processAppendEntriesReply. unfold bind at 1, get at 1.
  destruct (Z.gtb_spec (AppendEntriesReply.Term reply) (Raft.currentTerm rf)).
  - cbn. unfold steps_up. cbn. split; [lia|done].
  - apply steps_up_same.
    match goal with |- termState (snd (?m rf)) = _ => assert (Hk : keeps termState m) end.
    { repeat first [apply advanceCommitIndexForLeader_keeps_termState
                   | apply signalTryAppendCond_keeps_termState | keeps_step]. }
    apply Hk.
Qed.

Lemma HandleAppendEntries_log_keeps_termState args :
  keeps (fun h : Handler => termState (fst h)) (HandleAppendEntries_log args).
Proof.
  unfold HandleAppendEntries_log, HandleAppendEntries_conflict,
    HandleAppendEntries_append, setReply, onReply.
  repeat first [apply keeps_onRf | keeps_step].
Qed.

Lemma HandleAppendEntries_steps_up args rf reply :
  steps_up rf (fst (snd (HandleAppendEntries args (rf, reply)))).
Proof.
  unfold HandleAppendEntries. rewrite defer_snd.
  match goal with |- steps_up rf (fst (snd (onRf persist ?h))) =>
    apply (steps_up_termState rf (fst h)); [by destruct h|] end.
  unfold bind at 1.
  pose proof (keeps_onRf termState (onLog dummyIndex)
                ltac:(unfold onLog; keeps_tac) (rf, reply)) as K1.
  destruct (onRf (onLog dummyIndex) (rf, reply)) as [[a|msg] [rf1 reply1]];
    cbn [fst snd] in K1 |- *; [|by apply steps_up_same].
  unfold bind at 1.
  pose proof (keeps_onRf termState (onLog lastIndex)
                ltac:(unfold onLog; keeps_tac) (rf1, reply1)) as K2.
  destruct (onRf (onLog lastIndex) (rf1, reply1)) as [[b|msg] [rf2 reply2]];
    cbn [fst snd] in K2 |- *; [|apply steps_up_same; congruence].
  assert (K : termState rf2 = termState rf) by congruence.
  unfold bind at 1, gets at 1. cbn [fst].
  destruct (Z.ltb_spec (AppendEntriesArgs.Term args) (Raft.currentTerm rf2)).
  { by apply steps_up_same. }
  unfold bind at 1.
  pose proof (HandleAppendEntries_log_keeps_termState args) as KL.
  unfold termState in K. injection K as K1' K2' K3'.
  destruct (Z.gtb_spec (AppendEntriesArgs.Term args) (Raft.currentTerm rf2)).
  - cbn [onRf zoom modify fst snd].
    unfold bind at 1. cbn [onRf zoom ChangeState modify fst snd].
    unfold bind at 1. cbn [onRf zoom resetElectionTimer modify fst snd].
    match goal with |- steps_up rf (fst (snd (_ ?h))) =>
      apply (steps_up_termState rf (fst h)); [symmetry; apply (KL h)|] end.
    unfold steps_up. cbn. split; [lia|done].
  - unfold ret at 1.
    unfold bind at 1. cbn [onRf zoom ChangeState modify fst snd].
    unfold bind at 1. cbn [onRf zoom resetElectionTimer modify fst snd].
    match goal with |- steps_up rf (fst (snd (_ ?h))) =>
      apply (steps_up_termState rf (fst h)); [symmetry; apply (KL h)|] end.
    unfold steps_up. cbn. split; lia.
Qed.

(** X14: the term of a node never goes down.  Whatever the request, the
    reply and the state, and whether they return or panic, the receiver
    [HandleAppendEntries], the reply processor and a whole
    [appendOneRound] leave a term that is at least the old one, and if it
    is larger the node has become a follower with no vote.  [Start],
    [BroadcastAppend] and [advanceCommitIndexForLeader] touch neither the
    term, nor the vote, nor the role. *)
Theorem currentTerm_never_decreases :
  (forall args rf reply,
     steps_up rf (fst (snd (HandleAppendEntries args (rf, reply))))) /\
  (forall peer args reply rf,
     steps_up rf (snd (processAppendEntriesReply peer args reply rf))) /\
  (forall send peer rf, steps_up rf (snd (appendOneRound send peer rf))) /\
  (forall command rf, termState (snd (Start command rf)) = termState rf) /\
  (forall job rf, termState (snd (BroadcastAppend job rf)) = termState rf) /\
  (forall rf, termState (snd (advanceCommitIndexForLeader rf)) = termState rf).
Proof.
  split; [apply HandleAppendEntries_steps_up|].
  split; [apply processAppendEntriesReply_steps_up|].
  split; [|split; [|split]].
  - intros send peer rf. unfold appendOneRound. unfold bind.
    pose proof (appendOneRound_args_keeps_termState peer rf) as K.
    destruct (appendOneRound_args peer rf) as [[[args|]|msg] rf1]; cbn [snd] in K |- *;
      try (by apply steps_up_same).
    destruct (send peer args) as [reply|]; [|by apply steps_up_same].
    eapply steps_up_termState; [reflexivity|].
    pose proof (processAppendEntriesReply_steps_up peer args reply rf1) as [H1 H2].
    unfold termState in K. injection K as K1 K2 K3.
    unfold steps_up. rewrite <- K1. done.
  - intros command rf.
    assert (Hk : keeps termState (Start command)); [|apply Hk].
    unfold Start, persist, append.
    repeat first [apply BroadcastAppend_keeps_termState | keeps_step].
  - intros job rf. apply BroadcastAppend_keeps_termState.
  - intros rf. apply advanceCommitIndexForLeader_keeps_termState.
Qed.

(** ** Submitting a command and constructing a node *)

Lemma Start_leader_run command rf :
  Raft.state rf = StateLeader ->
  wf_log (Raft.raftLog rf) = true -> conds_ready rf = true ->
  let newLog := Entry.mk (last_of (Raft.raftLog rf) + 1) (Raft.currentTerm rf) command in
  exists conds,
    Start command rf =
    (Val (last_of (Raft.raftLog rf) + 1, Raft.currentTerm rf, true),
     Raft.set_tryAppendCond conds
       (Raft.set_persister
          (Some (mkBlob (Raft.currentTerm rf) (Raft.votedFor rf)
                        (logs (Raft.raftLog rf) ++ [newLog])))
          (Raft.set_raftLog (mkLog (logs (Raft.raftLog rf) ++ [newLog])) rf))) /\
    forall j, conds !! j =
              if bool_decide ((j < Raft.peers rf)%nat /\ Z.of_nat j <> Raft.me rf)
              then fmap S <$> Raft.tryAppendCond rf !! j
              else Raft.tryAppendCond rf !! j.
Proof.
  intros Hst Hwf Hc newLog.
  destruct (wf_log_bounds _ Hwf) as (Hb & Hmax & Hlen).
  unfold Start. step. rewrite Hst. cbn [NodeState_eqb negb].
  step_by ltac:(by apply onLog_lastIndex).
  rewrite add_id by (apply is_int_intro; lia).
  step_by ltac:(apply onLog_run; eapply append_run;
                [reflexivity
                |apply is_int_intro; unfold len in *; rewrite length_app; simpl; lia]).
  step.
  set (rf1 := Raft.set_persister _ _).
  destruct (BroadcastAppend_Append rf1) as (conds & Hrun & Hl).
  { exact Hc. }
  step_by ltac:(exact Hrun).
  exists conds. split; [reflexivity|]. exact Hl.
Qed.

(** X15: [Start] on a leader (with a well-formed log, replicator
    conditions for its peers and room for one more index) answers the
    index after the last one and the current term, and leaves a node
    that is ready again: the log is well formed, holds the command at the
    answered index and every old entry where it was, the persisted blob
    holds that log, the commit index, [lastApplied] and the apply channel
    are untouched, and [needAppend(peer)] answers true for every peer
    whose [matchIndex] does not exceed the old last index. *)
Theorem Start_keeps_ready command rf :
  Raft.state rf = StateLeader ->
  wf_log (Raft.raftLog rf) = true -> conds_ready rf = true ->
  last_of (Raft.raftLog rf) + 1 < GoInt.max_int ->
  let index := last_of (Raft.raftLog rf) + 1 in
  exists rf',
    Start command rf = (Val (index, Raft.currentTerm rf, true), rf') /\
    wf_log (Raft.raftLog rf') = true /\
    dummy_of (Raft.raftLog rf') = dummy_of (Raft.raftLog rf) /\
    last_of (Raft.raftLog rf') = index /\
    entry_at (Raft.raftLog rf') index
      = Some (Entry.mk index (Raft.currentTerm rf) command) /\
    (forall i, i < index -> entry_at (Raft.raftLog rf') i = entry_at (Raft.raftLog rf) i) /\
    Raft.persister rf' =
      Some (mkBlob (Raft.currentTerm rf) (Raft.votedFor rf) (logs (Raft.raftLog rf'))) /\
    Raft.commitIndex rf' = Raft.commitIndex rf /\
    Raft.lastApplied rf' = Raft.lastApplied rf /\
    Raft.applyCh rf' = Raft.applyCh rf /\
    indices rf' = indices rf /\
    conds_ready rf' = true /\
    (commit_ready rf = true -> commit_ready rf' = true) /\
    (applier_ready rf = true -> applier_ready rf' = true) /\
    (forall peer m, 0 <= peer -> Raft.matchIndex rf !! Z.to_nat peer = Some m ->
                    needAppend peer rf' = (Val (m <? index), rf')).
Proof.
  intros Hst Hwf Hc Hmax index.
  destruct (wf_log_bounds _ Hwf) as (Hb & Hmx & Hlen).
  destruct (Start_leader_run command rf Hst Hwf Hc) as (conds & Hrun & Hl).
  cbv zeta in Hrun. fold index in Hrun.
  set (newLog := Entry.mk index (Raft.currentTerm rf) command) in *.
  destruct (wf_log_append (Raft.raftLog rf) [newLog] Hwf) as (W1 & W2 & W3 & W4 & W5).
  { cbn. by rewrite Z.eqb_refl. }
  { unfold len; cbn. unfold index, GoInt.max_int in *. lia. }
  replace (last_of (Raft.raftLog rf) + len [newLog]) with index in W3
    by (unfold len, index; cbn; lia).
  match type of Hrun with _ = (_, ?r) => set (rf' := r) in * end.
  assert (Hlog : Raft.raftLog rf' = mkLog (logs (Raft.raftLog rf) ++ [newLog]))
    by reflexivity.
  assert (Hst' : Raft.state rf' = StateLeader) by exact Hst.
  assert (Hmi : Raft.matchIndex rf' = Raft.matchIndex rf) by reflexivity.
  exists rf'. split; [exact Hrun|]. rewrite Hlog.
  split; [done|]. split; [done|]. split; [done|].
  split. { specialize (W5 0%nat newLog eq_refl).
           by replace (last_of (Raft.raftLog rf) + 1 + Z.of_nat 0) with index in W5
             by (unfold index; lia). }
  split. { intros i Hi. apply W4. unfold index in Hi. lia. }
  split; [done|]. split; [done|]. split; [done|]. split; [done|]. split; [done|].
  split.
  { unfold conds_ready in *. apply forallb_forall. intros j Hj.
    rewrite forallb_forall in Hc. specialize (Hc j Hj). apply in_seq in Hj.
    change (Raft.me rf') with (Raft.me rf).
    change (Raft.tryAppendCond rf') with conds.
    destruct (Z.eqb_spec (Z.of_nat j) (Raft.me rf)) as [|Hne]; [done|].
    cbn in Hc |- *.
    rewrite Hl, bool_decide_eq_true_2 by (split; [apply Hj|done]).
    destruct (Raft.tryAppendCond rf !! j) as [[c|]|]; done. }
  split.
  { unfold commit_ready. rewrite Hlog, Hmi.
    change (Raft.commitIndex rf') with (Raft.commitIndex rf).
    change (Raft.peers rf') with (Raft.peers rf).
    rewrite !andb_true_iff.
    intros (((_ & H2) & H3) & H4). rewrite W1, W2. done. }
  split.
  { unfold applier_ready. rewrite Hlog.
    change (Raft.commitIndex rf') with (Raft.commitIndex rf).
    change (Raft.lastApplied rf') with (Raft.lastApplied rf).
    rewrite !andb_true_iff.
    intros (((_ & H2) & H3) & H4). rewrite W1, W2, W3.
    repeat split; try done. apply Z.leb_le. apply Z.leb_le in H4. unfold index. lia. }
  intros peer m Hp Hm. unfold needAppend. step.
  rewrite Hst'. cbn [NodeState_eqb].
  rewrite Hmi. step_by ltac:(by apply index_run).
  step_by ltac:(apply onLog_lastIndex; by rewrite Hlog).
  by rewrite Hlog, W3.
Qed.

Lemma Start_keeps_ready_witness :
  exists rf',
    Start None leaderOne = (Val (2, 2, true), rf') /\
    wf_log (Raft.raftLog rf') = true /\
    entry_at (Raft.raftLog rf') 2 = Some (Entry.mk 2 2 None) /\
    Raft.commitIndex rf' = 0 /\
    conds_ready rf' = true /\ commit_ready rf' = true /\ applier_ready rf' = true /\
    needAppend 1 rf' = (Val true, rf').
Proof.
  destruct (Start_keeps_ready None leaderOne)
    as (rf' & H1 & H2 & _ & _ & H5 & _ & _ & H8 & _ & _ & _ & H12 & H13 & H14 & H15);
    [reflexivity | reflexivity | reflexivity | by vm_compute |].
  exists rf'. split; [exact H1|]. split; [exact H2|]. split; [exact H5|].
  split; [exact H8|]. split; [exact H12|].
  split; [by apply H13|]. split; [by apply H14|].
  apply (H15 1 0); [lia | reflexivity].
Defined.

Lemma Make_loop_run n : forall a rf,
  (a + n <= length (Raft.tryAppendCond rf))%nat ->
  exists conds,
    Make_loop (seq a n) rf = (Val tt, Raft.set_tryAppendCond conds rf) /\
    length conds = length (Raft.tryAppendCond rf) /\
    forall j, conds !! j =
              if bool_decide ((a <= j < a + n)%nat /\ Z.of_nat j <> Raft.me rf)
              then Some (Some 0%nat)
              else Raft.tryAppendCond rf !! j.
Proof.
  induction n as [|n IH]; intros a rf Hlen.
  - exists (Raft.tryAppendCond rf). split; [by destruct rf|]. split; [done|].
    intros j. rewrite bool_decide_eq_false_2; [done|lia].
  - cbn [seq Make_loop]. step.
    destruct (Z.eqb_spec (Z.of_nat a) (Raft.me rf)) as [Hme|Hme]; cbn [negb].
    + step. destruct (IH (S a) rf ltac:(lia)) as (conds & Hrun & Hl & Hc).
      exists conds. split; [done|]. split; [done|].
      intros j. rewrite Hc. repeat case_bool_decide; try done; exfalso; lia.
    + destruct (lookup_lt_is_Some_2 (Raft.tryAppendCond rf) a ltac:(lia)) as [c0 Hc0].
      rewrite bind_assoc.
      step_by ltac:(eapply store_run; [lia | by rewrite Nat2Z.id]).
      rewrite Nat2Z.id. step.
      set (rf1 := Raft.set_tryAppendCond _ rf).
      destruct (IH (S a) rf1) as (conds & Hrun & Hl & Hc).
      { subst rf1. cbn. rewrite length_insert. lia. }
      exists conds. split; [by rewrite Hrun|].
      split; [rewrite Hl; subst rf1; cbn; by rewrite length_insert|].
      intros j. rewrite Hc. subst rf1. cbn.
      destruct (decide (j = a)) as [->|Hja].
      * rewrite bool_decide_eq_false_2 by lia.
        rewrite bool_decide_eq_true_2 by (split; [lia|done]).
        apply list_lookup_insert_eq. lia.
      * rewrite list_lookup_insert_ne by done.
        repeat case_bool_decide; try done; exfalso; lia.
Qed.

(** X16: a node constructed by [Make] over a store that holds nothing is
    a follower of term 0 without a vote, with the log of the dummy entry
    alone and commit and applied index 0; it has one replicator
    condition for every peer position but its own, and it satisfies what
    the commit advancement, the applier and the broadcast rely on.  It
    refuses [Start], and its applier waits. *)
Theorem Make_fresh peers me :
  Z.of_nat peers < GoInt.max_int ->
  exists rf,
    Make peers me None = (Val tt, rf) /\
    termState rf = (0, -1, StateFollower) /\
    Raft.raftLog rf = newLogs /\
    Raft.commitIndex rf = 0 /\ Raft.lastApplied rf = 0 /\ Raft.applyCh rf = [] /\
    indices rf = (replicate peers 0, replicate peers 0) /\
    (forall j, Raft.tryAppendCond rf !! j =
               if bool_decide ((j < peers)%nat /\ Z.of_nat j <> me)
               then Some (Some 0%nat)
               else if bool_decide (j < peers)%nat then Some None else None) /\
    commit_ready rf = true /\ applier_ready rf = true /\ conds_ready rf = true /\
    (forall command, Start command rf = (Val (-1, -1, false), rf)) /\
    applier_collect rf = (Val None, rf).
Proof.
  intros Hmax. unfold Make, readPersist.
  set (rf0 := Raft.mk _ _ _ _ _ _ _ _ _ _ _ _ _ _ _ _ _).
  step. step.
  destruct (Make_loop_run peers 0 rf0) as (conds & Hrun & Hlen & Hc).
  { subst rf0. cbn. by rewrite length_replicate. }
  eexists. split; [exact Hrun|]. cbn.
  assert (Hconds : forall j, conds !! j =
            if bool_decide ((j < peers)%nat /\ Z.of_nat j <> me)
            then Some (Some 0%nat)
            else if bool_decide (j < peers)%nat then Some None else None).
  { intros j. rewrite Hc. subst rf0. cbn.
    repeat case_bool_decide; try done; try (exfalso; lia).
    - by apply lookup_replicate_2.
    - apply lookup_replicate_None. lia. }
  split; [done|]. split; [done|]. split; [done|]. split; [done|]. split; [done|].
  split; [done|]. split; [exact Hconds|].
  split.
  { unfold commit_ready. cbn. rewrite length_replicate, Nat.leb_refl.
    cbn. apply Z.ltb_lt. done. }
  split; [done|].
  split.
  { unfold conds_ready. cbn. apply forallb_forall. intros j Hj%in_seq.
    destruct (Z.eqb_spec (Z.of_nat j) me) as [|Hne]; [done|].
    cbn. by rewrite Hconds, bool_decide_eq_true_2 by (split; [lia|done]). }
  split; [|done].
  intros command. reflexivity.
Qed.

Lemma Make_fresh_witness :
  exists rf,
    Make 3 0 None = (Val tt, rf) /\
    termState rf = (0, -1, StateFollower) /\
    Raft.tryAppendCond rf = [None; Some 0%nat; Some 0%nat] /\
    commit_ready rf = true /\ applier_ready rf = true /\ conds_ready rf = true.
Proof.
  destruct (Make_fresh 3 0) as (rf & H1 & H2 & _ & _ & _ & _ & _ & H8 & H9 & H10 & H11 & _);
    [by vm_compute|].
  exists rf. split; [exact H1|]. split; [exact H2|].
  split; [|by repeat split].
  vm_compute in H1. injection H1 as <-. reflexivity.
Defined.

(** ** The key-value server *)


Lemma listenApplyCh_command_run size m op kv :
  ApplyMsg.CommandValid m = true -> ApplyMsg.Command m = Some op ->
  ApplyMsg.CommandIndex m > KVServer.lastApplied kv ->
  let fresh := negb (String.eqb (Op.OpTask op) Gett) && negb (dupb kv op) in
  let kv1 := KVServer.set_lastApplied (ApplyMsg.CommandIndex m) kv in
  let kv2 := if fresh
             then KVServer.set_latestTime
                    (<[Op.ClientId op := Op.CommandId op]> (KVServer.latestTime kv))
                    (KVServer.set_storage (applyOp op (KVServer.storage kv)) kv1)
             else kv1 in
  let kv3 := if NodeState_eqb (Raft.state (KVServer.rf kv)) StateLeader
                && (ApplyMsg.CommandTerm m =? Raft.currentTerm (KVServer.rf kv))
             then KVServer.set_waitChannel (notified op (KVServer.waitChannel kv)) kv2
             else kv2 in
  listenApplyCh size m kv =
  (need <- needSnapShot size;;
   if need then takeSnapShot (ApplyMsg.CommandIndex m) else ret tt) kv3.
Proof.
  intros Hv Hc Hidx fresh kv1 kv2 kv3. unfold listenApplyCh. rewrite Hv, Hc.
  step. destruct (Z.gtb_spec (ApplyMsg.CommandIndex m) (KVServer.lastApplied kv)); [|lia].
  step. fold kv1.
  erewrite (bind_val _ _ _ fresh kv1).
  2:{ subst fresh. destruct (negb (String.eqb (Op.OpTask op) Gett)); [|reflexivity].
      step_by ltac:(apply dupCommand_run). reflexivity. }
  erewrite (bind_val _ _ _ tt kv2).
  2:{ subst kv2. destruct fresh; [|reflexivity].
      unfold applyOp.
      destruct (String.eqb (Op.OpTask op) Appendd); [step; reflexivity|].
      destruct (String.eqb (Op.OpTask op) Putt); step; reflexivity. }
  assert (Hrf : KVServer.rf kv2 = KVServer.rf kv) by (subst kv2; by destruct fresh).
  assert (Hwc : KVServer.waitChannel kv2 = KVServer.waitChannel kv)
    by (subst kv2; by destruct fresh).
  erewrite (bind_val _ _ _
              (Raft.currentTerm (KVServer.rf kv),
               NodeState_eqb (Raft.state (KVServer.rf kv)) StateLeader) kv2).
  2:{ unfold onNode, zoom, GetState. munfold. rewrite Hrf. f_equal.
      rewrite <- Hrf. by destruct kv2. }
  cbn [fst snd].
  erewrite (bind_val _ _ _ tt kv3); [reflexivity|].
  subst kv3.
  destruct (NodeState_eqb (Raft.state (KVServer.rf kv)) StateLeader
            && (ApplyMsg.CommandTerm m =? Raft.currentTerm (KVServer.rf kv)));
    [|reflexivity].
  step. rewrite Hwc. unfold notified.
  destruct (KVServer.waitChannel kv !! Op.Seq op); [reflexivity|].
  unfold ret. f_equal. rewrite <- Hwc. by destruct kv2.
Qed.

(** X17: whatever the message and the state, and whether it returns or
    panics, one step of [listenApplyCh] never lowers [lastApplied], and
    when it moves it, then to the index of the message.  A command whose
    index is not above [lastApplied], a snapshot whose index is not above
    it, and a message that is neither, leave the server exactly as it
    was; so does every run over such messages. *)
Theorem listenApplyCh_lastApplied size m kv :
  let kv' := snd (listenApplyCh size m kv) in
  KVServer.lastApplied kv <= KVServer.lastApplied kv' /\
  (KVServer.lastApplied kv' <> KVServer.lastApplied kv ->
   KVServer.lastApplied kv' =
     if ApplyMsg.CommandValid m then ApplyMsg.CommandIndex m
     else ApplyMsg.SnapshotIndex m) /\
  ((if ApplyMsg.CommandValid m
    then is_Some (ApplyMsg.Command m) /\
         ApplyMsg.CommandIndex m <= KVServer.lastApplied kv
    else ApplyMsg.SnapshotValid m = true ->
         ApplyMsg.SnapshotIndex m <= KVServer.lastApplied kv) ->
   listenApplyCh size m kv = (Val tt, kv)).
Proof.
  cbv zeta.
  destruct (ApplyMsg.CommandValid m) eqn:Hv.
  - destruct (ApplyMsg.Command m) as [op|] eqn:Hc.
    + destruct (Z.le_gt_cases (ApplyMsg.CommandIndex m) (KVServer.lastApplied kv))
        as [Hle|Hgt].
      * assert (Hrun : listenApplyCh size m kv = (Val tt, kv)).
        { unfold listenApplyCh. rewrite Hv, Hc. step.
          by destruct (Z.gtb_spec (ApplyMsg.CommandIndex m) (KVServer.lastApplied kv));
            [lia|]. }
        rewrite Hrun. cbn. split; [lia|]. split; done.
      * rewrite (listenApplyCh_command_run size m op kv Hv Hc) by lia.
        match goal with
        | |- context [snd (?t ?s)] =>
            assert (Hk : keeps KVServer.lastApplied t);
            [|rewrite (Hk s);
              assert (KVServer.lastApplied s = ApplyMsg.CommandIndex m) as ->]
        end.
        { unfold needSnapShot, takeSnapShot, saveState, int_quot, onNode, Snapshot.
          keeps_tac. }
        { by destruct (NodeState_eqb _ _ && _), (negb _ && _). }
        split; [lia|]. split; [done|]. intros [_ ?]. lia.
    + unfold listenApplyCh. rewrite Hv, Hc. cbn. split; [lia|]. split; [done|].
      by intros [[? ?] _].
  - assert (Hr : listenApplyCh size m kv =
      if ApplyMsg.SnapshotValid m
         && (KVServer.lastApplied kv <? ApplyMsg.SnapshotIndex m)
      then match ApplyMsg.Snapshot m with
           | NoData => (Val tt, KVServer.set_lastApplied (ApplyMsg.SnapshotIndex m) kv)
           | Corrupt => (Panic "log.Fatal: error", kv)
           | Encoded storage latestTime =>
               (Val tt, KVServer.set_lastApplied (ApplyMsg.SnapshotIndex m)
                          (KVServer.set_latestTime latestTime
                             (KVServer.set_storage storage kv)))
           end
      else (Val tt, kv)).
    { unfold listenApplyCh. rewrite Hv.
      destruct (ApplyMsg.SnapshotValid m); [|done]. step.
      destruct (KVServer.lastApplied kv <? ApplyMsg.SnapshotIndex m); [|done].
      destruct kv. by destruct (ApplyMsg.Snapshot m). }
    rewrite Hr.
    destruct (ApplyMsg.SnapshotValid m),
      (Z.ltb_spec (KVServer.lastApplied kv) (ApplyMsg.SnapshotIndex m)),
      (ApplyMsg.Snapshot m); cbn; (split; [lia|]; split; [done|]); intros H';
      try done; specialize (H' eq_refl); lia.
Qed.

(** X18: a snapshot message whose index is above [lastApplied] is
    installed: decoded data replaces the store and the dedupe table and
    [lastApplied] becomes the index of the snapshot; empty data only
    moves [lastApplied]; data that fails to decode aborts with the
    server untouched.  After decoded data was installed, a command
    message whose index is not above the index of the snapshot, or whose
    command the installed dedupe table records as done, changes neither
    the store nor the table. *)
Theorem listenApplyCh_snapshot size data term index kv :
  KVServer.lastApplied kv < index ->
  listenApplyCh size (snapMsg data term index) kv =
    match data with
    | NoData => (Val tt, KVServer.set_lastApplied index kv)
    | Corrupt => (Panic "log.Fatal: error", kv)
    | Encoded storage latestTime =>
        (Val tt, KVServer.set_lastApplied index
                   (KVServer.set_latestTime latestTime
                      (KVServer.set_storage storage kv)))
    end /\
  forall storage latestTime m op,
    data = Encoded storage latestTime ->
    ApplyMsg.CommandValid m = true -> ApplyMsg.Command m = Some op ->
    ApplyMsg.CommandIndex m <= index \/
    (exists latest, latestTime !! Op.ClientId op = Some latest /\
                    Op.CommandId op <= latest) ->
    kvCore (snd (listenApplyCh size m
                   (snd (listenApplyCh size (snapMsg data term index) kv))))
    = (storage, latestTime).
Proof.
  intros Hlt.
  assert (Hrun : listenApplyCh size (snapMsg data term index) kv =
    match data with
    | NoData => (Val tt, KVServer.set_lastApplied index kv)
    | Corrupt => (Panic "log.Fatal: error", kv)
    | Encoded storage latestTime =>
        (Val tt, KVServer.set_lastApplied index
                   (KVServer.set_latestTime latestTime
                      (KVServer.set_storage storage kv)))
    end).
  { unfold listenApplyCh, snapMsg. cbn [ApplyMsg.CommandValid ApplyMsg.SnapshotValid
      ApplyMsg.SnapshotIndex ApplyMsg.Snapshot ApplyMsg.SnapshotTerm ApplyMsg.CommandIndex].
    step. destruct (Z.ltb_spec (KVServer.lastApplied kv) index); [|lia].
    clear. destruct kv. by destruct data. }
  split; [exact Hrun|].
  intros storage latestTime m op -> Hv Hc Hcov.
  rewrite Hrun. cbn [snd].
  rewrite (listenApplyCh_kvCore size m op _ Hv Hc).
  cbn [KVServer.lastApplied KVServer.set_lastApplied].
  destruct Hcov as [Hidx|(latest & Hl & Hle)].
  - destruct (Z.gtb_spec (ApplyMsg.CommandIndex m) index); [lia|]. reflexivity.
  - assert (Hdup : dupb (KVServer.set_lastApplied index
                           (KVServer.set_latestTime latestTime
                              (KVServer.set_storage storage kv))) op = true).
    { unfold dupb. cbn. rewrite Hl. apply Z.leb_le. lia. }
    rewrite Hdup, !andb_false_r. reflexivity.
Qed.

Lemma listenApplyCh_snapshot_witness :
  listenApplyCh 0 (snapMsg (Encoded {[ "k"%string := "v"%string ]} {[ 1 := 7 ]}) 1 5)
    (kv3 freshFollower (-1)) =
  (Val tt, KVServer.set_lastApplied 5
             (KVServer.set_latestTime {[ 1 := 7 ]}
                (KVServer.set_storage {[ "k"%string := "v"%string ]}
                   (kv3 freshFollower (-1))))).
Proof.
  apply (listenApplyCh_snapshot 0 (Encoded {[ "k"%string := "v"%string ]} {[ 1 := 7 ]}) 1 5
           (kv3 freshFollower (-1))).
  by vm_compute.
Defined.

Lemma listenApplyCh_tail_keeps {T} (f : KVServer.t -> T) size index :
  (forall v kv, f (KVServer.set_rf v kv) = f kv) ->
  keeps f (need <- needSnapShot size;; if need then takeSnapShot index else ret tt).
Proof.
  intros Hf. unfold needSnapShot, takeSnapShot, saveState, int_quot, onNode.
  repeat first [apply keeps_zoom; intros; apply Hf | keeps_step].
Qed.

(** X19: the delivery of a command wakes the request that waits for it
    exactly when the index of the message is above [lastApplied], the
    node is the leader and the term of the message is the node's
    current term; it then sends [true] on the wait channel registered
    under the token of the command, if there is one.  That channel holds
    one value, so this is stated for a channel that is empty, as
    [startWaitChannelL] creates it: the send then goes through at once.
    No other wait channel is touched, and none is created or removed.
    This holds whether the command was applied, was a duplicate or was a
    Get, and whether the snapshot check that follows returns or
    panics. *)
Theorem listenApplyCh_notifies size m op kv :
  ApplyMsg.CommandValid m = true -> ApplyMsg.Command m = Some op ->
  (forall c, KVServer.waitChannel kv !! Op.Seq op = Some c -> c = []) ->
  let kv' := snd (listenApplyCh size m kv) in
  KVServer.waitChannel kv' =
    (if (ApplyMsg.CommandIndex m >? KVServer.lastApplied kv)
        && NodeState_eqb (Raft.state (KVServer.rf kv)) StateLeader
        && (ApplyMsg.CommandTerm m =? Raft.currentTerm (KVServer.rf kv))
     then match KVServer.waitChannel kv !! Op.Seq op with
          | Some _ => <[Op.Seq op := [true]]> (KVServer.waitChannel kv)
          | None => KVServer.waitChannel kv
          end
     else KVServer.waitChannel kv) /\
  (forall seq, seq <> Op.Seq op ->
               KVServer.waitChannel kv' !! seq = KVServer.waitChannel kv !! seq) /\
  (forall seq, is_Some (KVServer.waitChannel kv' !! seq)
               <-> is_Some (KVServer.waitChannel kv !! seq)).
Proof.
  intros Hv Hc Hempty. cbv zeta.
  assert (Hwc : KVServer.waitChannel (snd (listenApplyCh size m kv)) =
    (if (ApplyMsg.CommandIndex m >? KVServer.lastApplied kv)
        && NodeState_eqb (Raft.state (KVServer.rf kv)) StateLeader
        && (ApplyMsg.CommandTerm m =? Raft.currentTerm (KVServer.rf kv))
     then match KVServer.waitChannel kv !! Op.Seq op with
          | Some _ => <[Op.Seq op := [true]]> (KVServer.waitChannel kv)
          | None => KVServer.waitChannel kv
          end
     else KVServer.waitChannel kv)).
  { assert (Hn : notified op (KVServer.waitChannel kv) =
                 match KVServer.waitChannel kv !! Op.Seq op with
                 | Some _ => <[Op.Seq op := [true]]> (KVServer.waitChannel kv)
                 | None => KVServer.waitChannel kv
                 end).
    { unfold notified. destruct (KVServer.waitChannel kv !! Op.Seq op) as [c|] eqn:Hl;
        [|done]. by rewrite (Hempty c eq_refl). }
    rewrite <- Hn.
    destruct (Z.gtb_spec (ApplyMsg.CommandIndex m) (KVServer.lastApplied kv)) as [Hgt|Hle].
    - rewrite (listenApplyCh_command_run size m op kv Hv Hc) by lia.
      rewrite (listenApplyCh_tail_keeps KVServer.waitChannel) by done.
      cbn [andb].
      destruct (NodeState_eqb _ _ && _);
        by destruct (negb (String.eqb (Op.OpTask op) Gett) && negb (dupb kv op)).
    - unfold listenApplyCh. rewrite Hv, Hc. unfold bind, get.
      by destruct (Z.gtb_spec (ApplyMsg.CommandIndex m) (KVServer.lastApplied kv)); [lia|]. }
  rewrite Hwc. split; [done|].
  destruct (_ && _ && _); [|done].
  destruct (KVServer.waitChannel kv !! Op.Seq op) as [c|] eqn:Hl; [|done].
  split.
  - intros seq Hne. by rewrite lookup_insert_ne.
  - intros seq. destruct (decide (seq = Op.Seq op)) as [->|Hne].
    + rewrite lookup_insert_eq, Hl. split; eauto.
    + by rewrite lookup_insert_ne.
Qed.

Lemma listenApplyCh_notifies_witness :
  KVServer.waitChannel
    (snd (listenApplyCh 0 (ApplyMsg.mk true (Some putOp) 2 1 false NoData 0 0)
            (KVServer.set_waitChannel {[ 42 := [] ]} (kv3 leaderOne (-1)))))
  = {[ 42 := [true] ]} /\
  KVServer.waitChannel
    (snd (listenApplyCh 0 (ApplyMsg.mk true (Some putOp) 1 1 false NoData 0 0)
            (KVServer.set_waitChannel {[ 42 := [] ]} (kv3 leaderOne (-1)))))
  = {[ 42 := [] ]}.
Proof.
  assert (Hempty : forall c : list bool,
            KVServer.waitChannel
              (KVServer.set_waitChannel {[ 42 := [] ]} (kv3 leaderOne (-1)))
              !! Op.Seq putOp = Some c -> c = []).
  { intros c Hc. vm_compute in Hc. by injection Hc as <-. }
  split.
  - destruct (listenApplyCh_notifies 0 (ApplyMsg.mk true (Some putOp) 2 1 false NoData 0 0)
                putOp (KVServer.set_waitChannel {[ 42 := [] ]} (kv3 leaderOne (-1)))
                eq_refl eq_refl Hempty) as [H _].
    rewrite H. by vm_compute.
  - destruct (listenApplyCh_notifies 0 (ApplyMsg.mk true (Some putOp) 1 1 false NoData 0 0)
                putOp (KVServer.set_waitChannel {[ 42 := [] ]} (kv3 leaderOne (-1)))
                eq_refl eq_refl Hempty) as [H _].
    rewrite H. by vm_compute.
Defined.





(** ** The receiver: what an accepted request leaves in the log *)

Lemma conflict_scan_holds l ents : forall p,
  wf_log l = true -> dummy_of l <= p <= last_of l ->
  contiguous_from (p + 1) ents = true ->
  p + len ents < 9223372036854775807 ->
  let l' := mkLog (conflict_scan l ents) in
  (forall i, i <= p -> entry_at l' i = entry_at l i) /\
  (forall k e, ents !! k = Some e ->
               term_at l' (p + 1 + Z.of_nat k) = Some (Entry.Term e)).
Proof.
  induction ents as [|e rest IH]; intros p Hwf Hp Hc Hmax l'; subst l'.
  - cbn. rewrite mkLog_logs. split; [done|]. intros k e Hk. done.
  - cbn [contiguous_from] in Hc. apply andb_true_iff in Hc as [He Hc].
    apply Z.eqb_eq in He.
    assert (Hlr : len (e :: rest) = len rest + 1) by (unfold len; cbn; lia).
    destruct (wf_log_bounds _ Hwf) as (Hb & Hm & Hlen).
    cbn [conflict_scan].
    destruct ((last_of l <? Entry.Index e)
              || negb (bool_decide (term_at l (Entry.Index e) = Some (Entry.Term e))))
      eqn:Hconf.
    + rewrite truncate_at_take by done. rewrite He.
      assert (Hc' : contiguous_from (p + 1) (e :: rest) = true).
      { cbn. rewrite He, Z.eqb_refl. done. }
      destruct (wf_log_splice l p (e :: rest) Hwf Hp Hc' ltac:(lia)) as (W1 & W2 & W3).
      set (n := Z.to_nat (p + 1 - dummy_of l)) in *.
      split.
      * intros i Hi. unfold entry_at. rewrite W2. cbn [logs].
        destruct (Z.ltb_spec i (dummy_of l)); [done|].
        rewrite lookup_app_l by (rewrite length_take; unfold len in Hlen; lia).
        apply lookup_take_lt. lia.
      * intros k e' Hk. apply term_at_Some. exists e'. split; [|done].
        unfold entry_at. rewrite W2. cbn [logs].
        destruct (Z.ltb_spec (p + 1 + Z.of_nat k) (dummy_of l)); [lia|].
        rewrite lookup_app_r by (rewrite length_take; unfold len in Hlen; lia).
        rewrite length_take. rewrite <- Hk. f_equal. unfold len in Hlen. lia.
    + apply orb_false_iff in Hconf as [Hlast Hterm].
      apply Z.ltb_ge in Hlast. apply negb_false_iff, bool_decide_eq_true_1 in Hterm.
      destruct (IH (p + 1) Hwf ltac:(lia) Hc ltac:(lia)) as [I1 I2].
      split.
      * intros i Hi. apply I1. lia.
      * intros [|k] e' Hk.
        -- cbn in Hk. injection Hk as <-. unfold term_at.
           rewrite Z.add_0_r, I1 by lia. fold (term_at l (p + 1)).
           by rewrite <- He.
        -- cbn in Hk. specialize (I2 k e' Hk).
           replace (p + 1 + Z.of_nat (S k)) with (p + 1 + 1 + Z.of_nat k) by lia. done.
Qed.

(** X22: after an accepted request (the log matches at [PrevLogIndex],
    the entries carry consecutive indices from [PrevLogIndex + 1]) the
    log is unchanged up to [PrevLogIndex] and holds, at the index of
    every entry of the request, an entry of the term of that entry.
    Delivering the same request once more is accepted again and changes
    neither the log, nor the term, the vote, the role, nor the commit
    index: a duplicated request is harmless. *)
Theorem HandleAppendEntries_idempotent args rf reply :
  wf_log (Raft.raftLog rf) = true ->
  Raft.currentTerm rf <= AppendEntriesArgs.Term args ->
  term_at (Raft.raftLog rf) (AppendEntriesArgs.PrevLogIndex args)
    = Some (AppendEntriesArgs.PrevLogTerm args) ->
  contiguous_from (AppendEntriesArgs.PrevLogIndex args + 1)
    (AppendEntriesArgs.Entries args) = true ->
  AppendEntriesArgs.PrevLogIndex args + len (AppendEntriesArgs.Entries args)
    < GoInt.max_int ->
  exists rf1 rf2 r,
    HandleAppendEntries args (rf, reply) = (Val tt, (rf1, r)) /\
    HandleAppendEntries args (rf1, reply) = (Val tt, (rf2, r)) /\
    AppendEntriesReply.Success r = true /\
    (forall i, i <= AppendEntriesArgs.PrevLogIndex args ->
               entry_at (Raft.raftLog rf1) i = entry_at (Raft.raftLog rf) i) /\
    (forall e, e ∈ AppendEntriesArgs.Entries args ->
               term_at (Raft.raftLog rf1) (Entry.Index e) = Some (Entry.Term e)) /\
    Raft.raftLog rf2 = Raft.raftLog rf1 /\
    termState rf2 = termState rf1 /\
    Raft.commitIndex rf2 = Raft.commitIndex rf1.
Proof.
  intros Hwf Hterm Hmatch Hc Hmax.
  destruct (HandleAppendEntries_match_run args rf reply Hwf Hterm Hmatch Hc Hmax)
    as [Hwf1 Hrun1].
  cbv zeta in Hrun1.
  set (l := Raft.raftLog rf) in *.
  set (prev := AppendEntriesArgs.PrevLogIndex args) in *.
  set (ents := AppendEntriesArgs.Entries args) in *.
  set (l1 := mkLog (conflict_scan l ents)) in *.
  pose proof Hmatch as (ep & Hep & _)%term_at_Some.
  destruct (entry_at_Some _ _ _ Hwf Hep) as (Hr & _).
  destruct (conflict_scan_holds l ents prev Hwf Hr Hc) as [K1 K2].
  { unfold GoInt.max_int in Hmax. lia. }
  fold l1 in K1, K2.
  assert (K2' : forall e, e ∈ ents -> term_at l1 (Entry.Index e) = Some (Entry.Term e)).
  { intros e [k Hk]%list_elem_of_lookup.
    rewrite (contiguous_from_lookup _ _ _ _ Hc Hk). by apply K2. }
  match type of Hrun1 with _ = (_, (?a, ?b)) => set (rf1 := a) in *; set (r := b) in * end.
  assert (Hl1 : Raft.raftLog rf1 = l1).
  { subst rf1. rewrite persist_run. cbn [snd].
    by destruct (AppendEntriesArgs.LeaderCommit args >? Raft.commitIndex rf). }
  assert (Ht1 : Raft.currentTerm rf1 = AppendEntriesArgs.Term args).
  { subst rf1. rewrite persist_run. cbn [snd].
    destruct (AppendEntriesArgs.LeaderCommit args >? Raft.commitIndex rf); cbn;
      by apply adoptTerm_currentTerm. }
  assert (Hs1 : Raft.state rf1 = StateFollower).
  { subst rf1. rewrite persist_run. cbn [snd].
    destruct (AppendEntriesArgs.LeaderCommit args >? Raft.commitIndex rf); cbn;
      first [done | apply adoptTerm_fields]. }
  assert (Hc12 : Raft.commitIndex rf1 =
                 if AppendEntriesArgs.LeaderCommit args >? Raft.commitIndex rf
                 then Z.min (AppendEntriesArgs.LeaderCommit args) (last_of l1)
                 else Raft.commitIndex rf).
  { subst rf1. rewrite persist_run. cbn [snd].
    destruct (AppendEntriesArgs.LeaderCommit args >? Raft.commitIndex rf); cbn;
      first [done | apply adoptTerm_fields | by destruct (_ >? _)]. }
  clearbody rf1.
  destruct (HandleAppendEntries_match_run args rf1 reply) as [Hwf2 Hrun2].
  { by rewrite Hl1. }
  { lia. }
  { rewrite Hl1. unfold term_at. rewrite K1 by lia. exact Hmatch. }
  { done. }
  { done. }
  cbv zeta in Hrun2. fold prev ents in Hrun2. rewrite Hl1 in Hrun2.
  rewrite (conflict_scan_all_present l1 ents Hwf1 K2'), mkLog_logs in Hrun2.
  match type of Hrun2 with _ = (_, (?a, _)) => set (rf2 := a) in * end.
  assert (Hat : adoptTerm args rf1 =
                Raft.set_electionTimer (S (Raft.electionTimer rf1)) rf1).
  { unfold adoptTerm. rewrite Ht1.
    destruct (Z.gtb_spec (AppendEntriesArgs.Term args) (AppendEntriesArgs.Term args));
      [lia|]. rewrite <- Hs1. by destruct rf1. }
  exists rf1, rf2, r.
  split; [exact Hrun1|]. split; [exact Hrun2|]. split; [done|].
  split; [by rewrite Hl1|]. split; [by rewrite Hl1|].
  subst rf2. rewrite persist_run, Hat. cbn [snd].
  destruct (Z.gtb_spec (AppendEntriesArgs.LeaderCommit args) (Raft.commitIndex rf1)) as [H2|H2];
    cbn; rewrite ?set_raftLog_same.
  - split; [done|]. split; [done|].
    rewrite Hc12 in H2 |- *.
    destruct (Z.gtb_spec (AppendEntriesArgs.LeaderCommit args) (Raft.commitIndex rf)); lia.
  - split; [done|]. done.
Qed.

Lemma HandleAppendEntries_idempotent_witness :
  exists rf1 rf2 r,
    HandleAppendEntries (conflictingArgs 3 1 3)
      (node3 StateFollower 2 (followerLog 1 2) 0 0 [0; 0; 0] [0; 0; 0],
       AppendEntriesReply.zero) = (Val tt, (rf1, r)) /\
    HandleAppendEntries (conflictingArgs 3 1 3) (rf1, AppendEntriesReply.zero)
      = (Val tt, (rf2, r)) /\
    AppendEntriesReply.Success r = true /\
    (forall i, i <= AppendEntriesArgs.PrevLogIndex (conflictingArgs 3 1 3) ->
               entry_at (Raft.raftLog rf1) i = entry_at (mkLog (followerLog 1 2)) i) /\
    (forall e, e ∈ AppendEntriesArgs.Entries (conflictingArgs 3 1 3) ->
               term_at (Raft.raftLog rf1) (Entry.Index e) = Some (Entry.Term e)) /\
    Raft.raftLog rf2 = Raft.raftLog rf1 /\
    termState rf2 = termState rf1 /\
    Raft.commitIndex rf2 = Raft.commitIndex rf1.
Proof.
  apply (HandleAppendEntries_idempotent (conflictingArgs 3 1 3)
           (node3 StateFollower 2 (followerLog 1 2) 0 0 [0; 0; 0] [0; 0; 0])
           AppendEntriesReply.zero);
    [reflexivity | by vm_compute | reflexivity | reflexivity | by vm_compute].
Defined.

(** ** What the entry points leave alone *)

Lemma keeps_onLog_read {A T} (f : Raft.t -> T) (m : M raftLog A) :
  keeps (fun l : raftLog => l) m -> keeps f (onLog m).
Proof.
  intros Hk rf. unfold onLog, zoom. specialize (Hk (Raft.raftLog rf)).
  destruct (m (Raft.raftLog rf)) as [r l]. cbn in *. subst l.
  by rewrite set_raftLog_same.
Qed.

Lemma keeps_defer {S A T} (f : S -> T) (d : M S unit) (body : M S A) :
  keeps f d -> keeps f body -> keeps f (defer d body).
Proof. intros Hd Hb s. rewrite defer_snd, Hd. apply Hb. Qed.

Ltac log_reader :=
  unfold lastIndex, lastTerm, lastEntry, getEntry, convertIndex, dummyIndex,
    sliceFrom, sliceTo, slice, slice_expr;
  keeps_tac.

Lemma advanceLoop_keeps_raftLog fuel : forall i, keeps Raft.raftLog (advanceLoop fuel i).
Proof.
  induction fuel as [|fuel IH]; intros i; cbn [advanceLoop];
    repeat first [apply IH | apply keeps_onLog_read; solve [log_reader]
                 | apply countMatch_keeps | keeps_step].
Qed.

Lemma BroadcastAppend_keeps {T} (f : Raft.t -> T) job :
  (forall v s, f (Raft.set_goroutines v s) = f s) ->
  (forall v s, f (Raft.set_tryAppendCond v s) = f s) ->
  keeps f (BroadcastAppend job).
Proof.
  intros Hg Hc. unfold BroadcastAppend. apply keeps_bind; [apply keeps_get|].
  intros rf. generalize (seq 0 (Raft.peers rf)). intros ps.
  induction ps as [|p ps IH]; cbn [BroadcastAppend_loop]; [apply keeps_ret|].
  apply keeps_bind; [apply keeps_get|]. intros rf'.
  apply keeps_bind; [|intros; apply IH].
  destruct (Z.of_nat p =? Raft.me rf'); [apply keeps_ret|].
  destruct job.
  - apply keeps_modify. intros. apply Hg.
  - unfold signalTryAppendCond. apply keeps_bind; [apply keeps_get|]. intros rf''.
    apply keeps_bind; [apply keeps_index|]. intros [n|]; [|apply keeps_panic].
    apply keeps_modify. intros. apply Hc.
Qed.

Lemma processAppendEntriesReply_keeps_raftLog peer args reply :
  keeps Raft.raftLog (processAppendEntriesReply peer args reply).
Proof.
  unfold processAppendEntriesReply, advanceCommitIndexForLeader, signalTryAppendCond,
    ChangeState, resetElectionTimer, persist.
  repeat first [apply advanceLoop_keeps_raftLog
               | apply keeps_onLog_read; solve [log_reader]
               | keeps_step].
Qed.

Lemma appendOneRound_keeps_raftLog send peer :
  keeps Raft.raftLog (appendOneRound send peer).
Proof.
  unfold appendOneRound, appendOneRound_args, make.
  repeat first [apply processAppendEntriesReply_keeps_raftLog
               | apply keeps_onLog_read; solve [log_reader]
               | keeps_step].
Qed.

(** X23: who writes what.  In every state and whatever the outcome, the
    reply processor, a whole [appendOneRound], [BroadcastAppend], the
    commit advancement and the first critical section of the applier
    leave the log exactly as it is: only the receiver and [Start] write
    it.  The receiver and [Start] in turn touch neither [lastApplied] nor
    the apply channel nor the replication indices, and [Start] does not
    touch the commit index. *)
Theorem state_frames :
  (forall peer args reply rf,
     Raft.raftLog (snd (processAppendEntriesReply peer args reply rf)) = Raft.raftLog rf) /\
  (forall send peer rf,
     Raft.raftLog (snd (appendOneRound send peer rf)) = Raft.raftLog rf) /\
  (forall job rf, Raft.raftLog (snd (BroadcastAppend job rf)) = Raft.raftLog rf) /\
  (forall rf, Raft.raftLog (snd (advanceCommitIndexForLeader rf)) = Raft.raftLog rf) /\
  (forall rf, snd (applier_collect rf) = rf) /\
  (forall args rf reply,
     let rf' := fst (snd (HandleAppendEntries args (rf, reply))) in
     (Raft.lastApplied rf', Raft.applyCh rf', indices rf')
     = (Raft.lastApplied rf, Raft.applyCh rf, indices rf)) /\
  (forall command rf,
     let rf' := snd (Start command rf) in
     (Raft.commitIndex rf', Raft.lastApplied rf', Raft.applyCh rf', indices rf')
     = (Raft.commitIndex rf, Raft.lastApplied rf, Raft.applyCh rf, indices rf)).
Proof.
  split; [intros; apply processAppendEntriesReply_keeps_raftLog|].
  split; [intros; apply appendOneRound_keeps_raftLog|].
  split; [intros; by apply BroadcastAppend_keeps|].
  split.
  { intros rf. destruct (advanceCommitIndexForLeader_raises rf)
      as [->|(j & e & _ & _ & _ & _ & ->)]; done. }
  split.
  { intros rf.
    assert (Hk : keeps (fun s : Raft.t => s) applier_collect); [|apply Hk].
    unfold applier_collect, make.
    repeat first [apply keeps_onLog_read; solve [log_reader] | keeps_step]. }
  split.
  { intros args rf reply. cbv zeta.
    assert (Hk : keeps (fun h : Handler =>
                          (Raft.lastApplied (fst h), Raft.applyCh (fst h), indices (fst h)))
                   (HandleAppendEntries args)); [|apply (Hk (rf, reply))].
    unfold HandleAppendEntries. apply keeps_defer.
    - apply (keeps_onRf (fun rf => (Raft.lastApplied rf, Raft.applyCh rf, indices rf))).
      unfold persist. keeps_tac.
    - unfold HandleAppendEntries_log, HandleAppendEntries_conflict,
        HandleAppendEntries_append, setReply, onReply, ChangeState, resetElectionTimer,
        signalApplyCond.
      repeat first
        [ apply (keeps_onRf (fun rf => (Raft.lastApplied rf, Raft.applyCh rf, indices rf)))
        | keeps_step ]. }
  intros command rf. cbv zeta.
  assert (Hk : keeps (fun rf => (Raft.commitIndex rf, Raft.lastApplied rf,
                                 Raft.applyCh rf, indices rf)) (Start command));
    [|apply Hk].
  unfold Start, persist.
  repeat first [apply BroadcastAppend_keeps; intros; reflexivity | keeps_step].
Qed.
